(** * The SQL-subset translator of the chat backend

    A shallow embedding of [backend/src/services/geminiService.js]
    ([isSafeQuery], [parseQueryIntent] and the cleaning of the statement in
    [generateSQLQuery]), of [backend/src/services/databaseService.js]
    ([executeQuery], [executeDynamicQuery], [parseAndExecuteSQL], the
    [apply*] helpers and the fixed queries [getItemsByCategory],
    [getItemsByPriceRange], [getItemsByRating], [getCategoryStats],
    [searchItemsByName], [getAllCategories] and [getItemsCount]) and of the
    older copies of the same two modules under [src/services/], together
    with the properties their specification states about them and further
    properties read off the code.

    JavaScript strings are modelled as lists of 8-bit code units (the Latin-1
    range of UTF-16).  JavaScript numbers are modelled as exact rationals;
    rounding to IEEE doubles is not modelled. *)

From Stdlib Require Import String Ascii List NArith ZArith QArith Qcanon Lia Bool Sorted.
From stdpp Require Import base list strings gmap.

Set Default Proof Using "Type".
Local Open Scope nat_scope.

(* ================================================================== *)
(** * JavaScript strings *)
(* ================================================================== *)

Definition jsstring := list ascii.

Abbreviation js s := (list_ascii_of_string s) (only parsing).

Definition code (c : ascii) : nat := nat_of_ascii c.

Definition in_range (lo hi : nat) (c : ascii) : bool :=
  (lo <=? code c) && (code c <=? hi).

(** [\d] *)
Definition is_digit (c : ascii) : bool := in_range 48 57 c.

(** [\w]: [A-Za-z0-9_] *)
Definition is_word (c : ascii) : bool :=
  in_range 65 90 c || in_range 97 122 c || is_digit c || (code c =? 95).

(** [\s], also the set removed by [String.prototype.trim]: TAB, LF, VT, FF,
    CR, SPACE and NBSP are the members below U+0100. *)
Definition is_space (c : ascii) : bool :=
  in_range 9 13 c || (code c =? 32) || (code c =? 160).

(** Upper-case mapping of one code unit.  [ß] maps to two units; the upper-case
    forms of [µ] (U+00B5) and [ÿ] (U+00FF) lie above U+00FF and are stood for by
    the unit itself: the programs compare upper-cased text with ASCII literals
    only, which no unit above U+007F equals. *)
Definition upper_unit (c : ascii) : ascii :=
  if in_range 97 122 c then ascii_of_nat (code c - 32)
  else if in_range 224 254 c && negb (code c =? 247) then ascii_of_nat (code c - 32)
  else c.

Definition toUpperCase (s : jsstring) : jsstring :=
  flat_map (fun c => if code c =? 223 then js "SS" else [upper_unit c]) s.

(** [Canonicalize] of a regular expression with the [i] flag and without the
    [u] flag: the upper-case form when it is a single unit. *)
Definition canonicalize (c : ascii) : ascii :=
  if code c =? 223 then c else upper_unit c.

(** The line feed. *)
Definition LF : ascii := "010"%char.

Definition ascii_eqb (a b : ascii) : bool := code a =? code b.

Fixpoint jsstring_eqb (a b : jsstring) : bool :=
  match a, b with
  | [], [] => true
  | x :: a', y :: b' => ascii_eqb x y && jsstring_eqb a' b'
  | _, _ => false
  end.

Fixpoint startsWith (s p : jsstring) : bool :=
  match p, s with
  | [], _ => true
  | y :: p', x :: s' => ascii_eqb x y && startsWith s' p'
  | _ :: _, [] => false
  end.

Fixpoint includes (s p : jsstring) : bool :=
  startsWith s p ||
  match s with
  | [] => false
  | _ :: s' => includes s' p
  end.

Fixpoint trimStart (s : jsstring) : jsstring :=
  match s with
  | c :: s' => if is_space c then trimStart s' else s
  | [] => []
  end.

Definition trimEnd (s : jsstring) : jsstring := rev (trimStart (rev s)).

Definition trim (s : jsstring) : jsstring := trimEnd (trimStart s).

(** [s.substring(n)] *)
Definition substring_from (n : nat) (s : jsstring) : jsstring := skipn n s.

(** [s.split(',')] *)
Fixpoint split_on (sep : ascii) (cur : jsstring) (s : jsstring) : list jsstring :=
  match s with
  | [] => [rev cur]
  | c :: s' => if ascii_eqb c sep then rev cur :: split_on sep [] s'
               else split_on sep (c :: cur) s'
  end.

Definition split (sep : ascii) (s : jsstring) : list jsstring := split_on sep [] s.

(** [parts.join(',')] *)
Fixpoint join (sep : ascii) (parts : list jsstring) : jsstring :=
  match parts with
  | [] => []
  | [p] => p
  | p :: ps => p ++ sep :: join sep ps
  end.

(* ================================================================== *)
(** * Regular expressions *)
(* ================================================================== *)

(** The fragment of ECMAScript regular expressions the programs use: character
    classes, sequence, alternation, greedy and lazy [*], capturing groups, the
    assertions [\b] and [$] (without the [m] flag), under an optional [i]
    flag.  Matching is the backtracking search of the language definition,
    written with continuations. *)

Module Regex.

Inductive cls :=
| CLit (a : ascii)   (* a pattern character *)
| CWord              (* \w *)
| CDigit             (* \d *)
| CSpace             (* \s *)
| CAny               (* [\s\S] *)
| CNot (a : ascii).  (* [^a] *)

Inductive regex :=
| Eps
| Chr (c : cls)
| Seq (r1 r2 : regex)
| Alt (r1 r2 : regex)
| Star (greedy : bool) (r : regex)
| Group (n : nat) (r : regex)
| WordB
| Eos.

Definition plus (r : regex) : regex := Seq r (Star true r).
Definition star (r : regex) : regex := Star true r.
Definition lazy_star (r : regex) : regex := Star false r.
Definition opt (r : regex) : regex := Alt r Eps.

(** The pattern characters of [s] in a row. *)
Fixpoint lit (s : jsstring) : regex :=
  match s with
  | [] => Eps
  | c :: s' => Seq (Chr (CLit c)) (lit s')
  end.

(** [r1 r2 ... rn] *)
Fixpoint seqs (rs : list regex) : regex :=
  match rs with
  | [] => Eps
  | r :: rs' => Seq r (seqs rs')
  end.

(** [r1|r2|...|rn] *)
Fixpoint alts (rs : list regex) : regex :=
  match rs with
  | [] => Eps
  | [r] => r
  | r :: rs' => Alt r (alts rs')
  end.

Record mstate := MState {
  before : jsstring;               (* the consumed input, last unit first *)
  rest : jsstring;                 (* the input still ahead *)
  caps : list (nat * jsstring)     (* captures, most recent first *)
}.

Definition cls_match (icase : bool) (c : cls) (x : ascii) : bool :=
  match c with
  | CLit a => if icase then ascii_eqb (canonicalize x) (canonicalize a) else ascii_eqb x a
  | CWord => is_word x
  | CDigit => is_digit x
  | CSpace => is_space x
  | CAny => true
  | CNot a => negb (if icase then ascii_eqb (canonicalize x) (canonicalize a) else ascii_eqb x a)
  end.

Definition word_at (s : jsstring) : bool :=
  match s with
  | c :: _ => is_word c
  | [] => false
  end.

(** [\b]: exactly one of the units on the two sides is a word unit. *)
Definition at_word_boundary (st : mstate) : bool :=
  xorb (word_at (before st)) (word_at (rest st)).

Definition consumed (st st' : mstate) : jsstring :=
  rev (firstn (length (before st') - length (before st)) (before st')).

Definition set_cap (n : nat) (st st' : mstate) : mstate :=
  MState (before st') (rest st') ((n, consumed st st') :: caps st').

Section Matcher.
Context {A : Type}.
Variable icase : bool.

(** One more round of [r*]: an iteration that consumes nothing is rejected. *)
Fixpoint star_loop (greedy : bool)
    (body : (mstate -> option A) -> mstate -> option A)
    (k : mstate -> option A) (fuel : nat) (st : mstate) : option A :=
  match fuel with
  | O => k st
  | S fuel' =>
      let again :=
        body (fun st' =>
                if length (rest st') <? length (rest st)
                then star_loop greedy body k fuel' st' else None) st in
      if greedy
      then match again with Some x => Some x | None => k st end
      else match k st with Some x => Some x | None => again end
  end.

Fixpoint run (r : regex) (k : mstate -> option A) (st : mstate) : option A :=
  match r with
  | Eps => k st
  | Chr c =>
      match rest st with
      | x :: xs =>
          if cls_match icase c x then k (MState (x :: before st) xs (caps st)) else None
      | [] => None
      end
  | Seq r1 r2 => run r1 (run r2 k) st
  | Alt r1 r2 =>
      match run r1 k st with
      | Some x => Some x
      | None => run r2 k st
      end
  | Star greedy r1 => star_loop greedy (run r1) k (S (length (rest st))) st
  | Group n r1 => run r1 (fun st' => k (set_cap n st st')) st
  | WordB => if at_word_boundary st then k st else None
  | Eos => match rest st with [] => k st | _ :: _ => None end
  end.
End Matcher.

(** A successful match: where it starts and where it ends. *)
Record mresult := MResult { m_start : mstate; m_end : mstate }.

Definition match_at (icase : bool) (r : regex) (bef rst : jsstring) : option mresult :=
  let st := MState bef rst [] in
  run icase r (fun st' => Some (MResult st st')) st.

(** The leftmost match at or after the current position. *)
Fixpoint search (icase : bool) (r : regex) (bef rst : jsstring) : option mresult :=
  match match_at icase r bef rst with
  | Some m => Some m
  | None =>
      match rst with
      | [] => None
      | c :: rst' => search icase r (c :: bef) rst'
      end
  end.

(** [m[n]] of a match array; [None] is [undefined]. *)
Definition group (n : nat) (m : mresult) : option jsstring :=
  match n with
  | O => Some (consumed (m_start m) (m_end m))
  | _ => snd <$> List.find (fun p => fst p =? n) (caps (m_end m))
  end.

(** [m.index] *)
Definition index (m : mresult) : nat := length (before (m_start m)).

(** [s.match(r)] for [r] without the [g] flag, and [r.exec(s)]. *)
Definition exec (icase : bool) (r : regex) (s : jsstring) : option mresult :=
  search icase r [] s.

(** [r.test(s)] *)
Definition test (icase : bool) (r : regex) (s : jsstring) : bool :=
  match exec icase r s with Some _ => true | None => false end.

(** [s.matchAll(r)] for [r] with the [g] flag: after an empty match the search
    resumes one unit further. *)
Fixpoint matchAll_from (icase : bool) (r : regex) (fuel : nat) (bef rst : jsstring)
  : list mresult :=
  match fuel with
  | O => []
  | S fuel' =>
      match search icase r bef rst with
      | None => []
      | Some m =>
          let e := m_end m in
          if length (before e) =? length (before (m_start m))
          then match rest e with
               | [] => [m]
               | c :: rst' => m :: matchAll_from icase r fuel' (c :: before e) rst'
               end
          else m :: matchAll_from icase r fuel' (before e) (rest e)
      end
  end.

Definition matchAll (icase : bool) (r : regex) (s : jsstring) : list mresult :=
  matchAll_from icase r (S (length s)) [] s.

(** [s.replace(r, by)] for [r] without the [g] flag and [by] without [$]. *)
Definition replace_first (icase : bool) (r : regex) (by_ : jsstring) (s : jsstring)
  : jsstring :=
  match exec icase r s with
  | None => s
  | Some m => rev (before (m_start m)) ++ by_ ++ rest (m_end m)
  end.

(** [s.replace(r, by)] for [r] with the [g] flag and [by] without [$]. *)
Fixpoint replace_all_from (icase : bool) (r : regex) (by_ : jsstring) (fuel : nat)
    (bef rst : jsstring) : jsstring :=
  match fuel with
  | O => rst
  | S fuel' =>
      match search icase r bef rst with
      | None => rst
      | Some m =>
          let skipped :=
            firstn (length (before (m_start m)) - length bef) rst in
          let e := m_end m in
          if length (before e) =? length (before (m_start m))
          then match rest e with
               | [] => skipped ++ by_
               | c :: rst' =>
                   skipped ++ by_ ++ c :: replace_all_from icase r by_ fuel' (c :: before e) rst'
               end
          else skipped ++ by_ ++ replace_all_from icase r by_ fuel' (before e) (rest e)
      end
  end.

Definition replace_all (icase : bool) (r : regex) (by_ : jsstring) (s : jsstring)
  : jsstring :=
  replace_all_from icase r by_ (S (length s)) [] s.

(** ** What a match is

    [Matches icase r st st']: the expression [r] can take the matcher from
    [st] to [st'].  The relation forgets the order in which the search tries
    the alternatives. *)
Inductive Matches (icase : bool) : regex -> mstate -> mstate -> Prop :=
| M_Eps st : Matches icase Eps st st
| M_Chr c x bef xs cs :
    cls_match icase c x = true ->
    Matches icase (Chr c) (MState bef (x :: xs) cs) (MState (x :: bef) xs cs)
| M_Seq r1 r2 st st1 st2 :
    Matches icase r1 st st1 -> Matches icase r2 st1 st2 ->
    Matches icase (Seq r1 r2) st st2
| M_AltL r1 r2 st st' : Matches icase r1 st st' -> Matches icase (Alt r1 r2) st st'
| M_AltR r1 r2 st st' : Matches icase r2 st st' -> Matches icase (Alt r1 r2) st st'
| M_StarDone g r st : Matches icase (Star g r) st st
| M_StarMore g r st st1 st2 :
    Matches icase r st st1 ->
    length (rest st1) < length (rest st) ->
    Matches icase (Star g r) st1 st2 ->
    Matches icase (Star g r) st st2
| M_Group n r st st1 :
    Matches icase r st st1 -> Matches icase (Group n r) st (set_cap n st st1)
| M_WordB st : at_word_boundary st = true -> Matches icase WordB st st
| M_Eos st : rest st = [] -> Matches icase Eos st st.

End Regex.

Import Regex.

(* ================================================================== *)
(** * JavaScript values, exceptions and the store client *)
(* ================================================================== *)

(** Values of JSON shape: what a request body, a statement produced by the
    language model, a query parameter or a column of a returned row can be.
    [JNaN] is the one non-rational number the programs can produce. *)
#[warnings="-register-all"]
Inductive jsval :=
| JUndefined
| JNull
| JBool (b : bool)
| JNum (q : Q)
| JNaN
| JStr (s : jsstring)
| JArr (items : list jsval)
| JObj (fields : list (jsstring * jsval)).

(** A row of a result: an object, its properties in order. *)
Definition row := list (jsstring * jsval).

(** [item.name] *)
Definition prop (name : jsstring) (item : row) : jsval :=
  match List.find (fun p => jsstring_eqb (fst p) name) item with
  | Some p => snd p
  | None => JUndefined
  end.

(** A thrown value: every one the programs throw or receive carries a
    [message]. *)
Inductive exn :=
| Error (message : jsstring)        (* new Error(message) *)
| TypeError (message : jsstring)    (* raised by the runtime *)
| StoreError (message : jsstring).  (* the [error] of a store response *)

Definition message (e : exn) : jsstring :=
  match e with
  | Error m | TypeError m | StoreError m => m
  end.

Inductive outcome (A : Type) :=
| Ok (a : A)
| Throw (e : exn).
Arguments Ok {A} a.
Arguments Throw {A} e.

(** The second argument of [select]: [{ count: 'exact', head }]. *)
Record select_opts := SelectOpts { count_mode : jsstring; head : bool }.

(** The methods of the store client and of its query builder.  [Rpc], [Filter]
    and [Or] are the entries that take SQL or filter syntax as text. *)
Inductive call :=
| From (table : jsstring)
| Select (columns : jsstring) (opts : option select_opts)
| Eq (column : jsstring) (value : jsval)
| Lt (column : jsstring) (value : jsval)
| Gt (column : jsstring) (value : jsval)
| Gte (column : jsstring) (value : jsval)
| Lte (column : jsstring) (value : jsval)
| Ilike (column : jsstring) (pattern : jsval)
| Not (column operator : jsstring) (value : jsval)
| Order (column : jsstring) (ascending : bool)
| Limit (n : jsval)
| Filter (column operator value : jsstring)
| Or (filters : jsstring)
| Rpc (fn : jsstring) (sql : jsstring).

(** A query builder is the chain of calls made on it. *)
Definition query := list call.

(** What awaiting a builder resolves to: [{ data, error, count }]. *)
Record response := Response {
  r_data : option (list row);
  r_error : option jsstring;     (* the [message] of [error], when there is one *)
  r_count : option nat
}.

(** The client as the translator sees it: every method called on it or on one
    of its builders, and every builder awaited, in order. *)
Record client := Client { calls : list call; sent : list query }.

Definition M (A : Type) : Type := client -> outcome A * client.

Definition ret {A} (a : A) : M A := fun c => (Ok a, c).
Definition throw {A} (e : exn) : M A := fun c => (Throw e, c).
Definition bind {A B} (m : M A) (f : A -> M B) : M B :=
  fun c => match m c with
           | (Ok a, c') => f a c'
           | (Throw e, c') => (Throw e, c')
           end.
Definition lift {A} (o : outcome A) : M A := fun c => (o, c).

(** [try { body } catch (error) { handler }] *)
Definition try_catch {A} (body : M A) (handler : exn -> M A) : M A :=
  fun c => match body c with
           | (Ok a, c') => (Ok a, c')
           | (Throw e, c') => handler e c'
           end.

Notation "'let*' x ':=' m 'in' f" := (bind m (fun x => f))
  (at level 10, x name, m at level 100, f at level 200, only parsing).

(** A builder method: the call is made and the builder extended. *)
Definition invoke (q : query) (c : call) : M query :=
  fun w => (Ok (q ++ [c]), Client (calls w ++ [c]) (sent w)).

(** Methods of values that only strings have. *)
Definition as_string (method : jsstring) (v : jsval) : outcome jsstring :=
  match v with
  | JStr s => Ok s
  | _ => Throw (TypeError (js "not a function: " ++ method))
  end.

Definition obind {A B} (o : outcome A) (f : A -> outcome B) : outcome B :=
  match o with
  | Ok a => f a
  | Throw e => Throw e
  end.

(** [s.indexOf(p)], [None] for -1. *)
Fixpoint indexOf (s p : jsstring) : option nat :=
  if startsWith s p then Some 0
  else match s with
       | [] => None
       | _ :: s' => S <$> indexOf s' p
       end.

(** [arr.findIndex((_, i) => f(i))], [None] for -1. *)
Fixpoint findIndex_from {A} (f : nat -> bool) (i : nat) (arr : list A) : option nat :=
  match arr with
  | [] => None
  | _ :: arr' => if f i then Some i else findIndex_from f (S i) arr'
  end.

(** Decimal numerals. *)
Definition digit_value (c : ascii) : N := N.of_nat (code c - 48).

Fixpoint digits_value (acc : N) (s : jsstring) : N :=
  match s with
  | [] => acc
  | c :: s' => digits_value (10 * acc + digit_value c) s'
  end.

Fixpoint take_digits (s : jsstring) : jsstring * jsstring :=
  match s with
  | c :: s' => if is_digit c then let (d, r) := take_digits s' in (c :: d, r) else ([], s)
  | [] => ([], [])
  end.

(** [parseInt(s)] on text without sign or leading blanks: the longest prefix of
    digits, [NaN] when there is none. *)
Definition parseInt (s : jsstring) : jsval :=
  match take_digits s with
  | ([], _) => JNaN
  | (d, _) => JNum (inject_Z (Z.of_N (digits_value 0 d)))
  end.

(** [parseFloat(s)] on text without sign, leading blanks or exponent: digits,
    then possibly a point and more digits; [NaN] when there is no digit. *)
Definition parseFloat (s : jsstring) : jsval :=
  let (d, r) := take_digits s in
  let whole := Z.of_N (digits_value 0 d) in
  match r with
  | "."%char :: r' =>
      let (f, _) := take_digits r' in
      let scale := Z.pow 10 (Z.of_nat (length f)) in
      match d, f with
      | [], [] => JNaN
      | _, _ => JNum (Qred (Qmake (whole * scale + Z.of_N (digits_value 0 f)) (Z.to_pos scale)))
      end
  | _ => match d with [] => JNaN | _ => JNum (inject_Z whole) end
  end.

(** The decimal numeral of a natural number, as a template literal prints it. *)
Fixpoint nat_numeral_aux (fuel n : nat) (acc : jsstring) : jsstring :=
  match fuel with
  | O => acc
  | S fuel' =>
      let acc' := ascii_of_nat (48 + n mod 10) :: acc in
      if n <? 10 then acc' else nat_numeral_aux fuel' (n / 10) acc'
  end.

Definition nat_numeral (n : nat) : jsstring := nat_numeral_aux (S n) n [].

(* ================================================================== *)
(** * geminiService.js: the safety validator *)
(* ================================================================== *)

(** [/\s+/g] *)
Definition re_blanks : regex := plus (Chr CSpace).

(** [sql.replace(/\s+/g, ' ').trim()] *)
Definition normalize (s : jsstring) : jsstring :=
  trim (replace_all false re_blanks (js " ") s).

Definition dangerousKeywords : list jsstring :=
  [js "DELETE"; js "INSERT"; js "UPDATE"; js "DROP"; js "ALTER"; js "CREATE";
   js "TRUNCATE"; js "EXEC"; js "EXECUTE"].

(** [new RegExp(`\\b(${dangerousKeywords.join('|')})\\b`, 'i')] *)
Definition dangerousPattern : regex :=
  seqs [WordB; Group 1 (alts (map lit dangerousKeywords)); WordB].

(** [/\bINTO\b/i] and [/\bVALUES\b/i] *)
Definition re_into : regex := seqs [WordB; lit (js "INTO"); WordB].
Definition re_values : regex := seqs [WordB; lit (js "VALUES"); WordB].

(** The body of the [try] block of [isSafeQuery]
    (backend/src/services/geminiService.js). *)
Definition isSafeQuery_body (sql : jsval) : outcome bool :=
  obind (as_string (js "replace") sql) (fun s =>
  let cleanSql := normalize s in
  let upperSql := toUpperCase cleanSql in
  if negb (startsWith upperSql (js "SELECT")) then Ok false
  else if test true dangerousPattern cleanSql then Ok false
  else if test true re_into cleanSql || test true re_values cleanSql then Ok false
  else Ok true).

(** [isSafeQuery]: whatever the body throws is caught and answered [false]. *)
Definition isSafeQuery (sql : jsval) : bool :=
  match isSafeQuery_body sql with
  | Ok b => b
  | Throw _ => false
  end.

(** The copy under [src/services/geminiService.js]. *)
Module Legacy.

Definition isSafeQuery_body (sql : jsval) : outcome bool :=
  obind (as_string (js "replace") sql) (fun s =>
  let cleanSql := normalize s in
  let upperSql := toUpperCase cleanSql in
  if negb (startsWith upperSql (js "SELECT")) then Ok false
  else if existsb (fun keyword => includes upperSql keyword) dangerousKeywords then Ok false
  else if negb (includes upperSql (js "FROM ITEMS")) && negb (includes upperSql (js "JOIN ITEMS"))
       then Ok false
  else if includes upperSql (js "INTO") || includes upperSql (js "VALUES") then Ok false
  else Ok true).

Definition isSafeQuery (sql : jsval) : bool :=
  match isSafeQuery_body sql with
  | Ok b => b
  | Throw _ => false
  end.

End Legacy.

(* ================================================================== *)
(** * databaseService.js: the translator *)
(* ================================================================== *)

(** [s.split(r)] for a regular expression [r]: the pieces between the matches;
    a match that is empty at the start of a piece is passed over. *)
Fixpoint split_re_from (icase : bool) (r : regex) (fuel : nat)
    (piece bef rst : jsstring) : list jsstring :=
  match fuel with
  | O => [rev piece ++ rst]
  | S fuel' =>
      match rst with
      | [] => [rev piece]
      | c :: rst' =>
          match match_at icase r bef rst with
          | Some m =>
              let e := m_end m in
              if (length (before e) =? length bef) && (length piece =? 0)
              then split_re_from icase r fuel' (c :: piece) (c :: bef) rst'
              else rev piece :: split_re_from icase r fuel' [] (before e) (rest e)
          | None => split_re_from icase r fuel' (c :: piece) (c :: bef) rst'
          end
      end
  end.

Definition split_re (icase : bool) (r : regex) (s : jsstring) : list jsstring :=
  match s with
  | [] => match match_at icase r [] [] with Some _ => [] | None => [[]] end
  | _ => split_re_from icase r (S (length s)) [] [] s
  end.

(** [m[n]] where group [n] takes part in every match of the expression. *)
Definition grp (n : nat) (m : mresult) : jsstring := default [] (group n m).

Definition digit : regex := Chr CDigit.
Definition word : regex := Chr CWord.
Definition blank : regex := Chr CSpace.
Definition ch (c : ascii) : regex := Chr (CLit c).

(** [\d+(?:\.\d+)?] *)
Definition number : regex := seqs [plus digit; opt (seqs [ch "."; plus digit])].

(** [/;+$/] *)
Definition re_semicolons : regex := seqs [plus (ch ";"); Eos].
(** [/FROM\s+(\w+)/i] *)
Definition re_from : regex := seqs [lit (js "FROM"); plus blank; Group 1 (plus word)].
(** [/SELECT\s+([\s\S]*?)\s+FROM/i] *)
Definition re_select : regex :=
  seqs [lit (js "SELECT"); plus blank; Group 1 (lazy_star (Chr CAny)); plus blank;
        lit (js "FROM")].
(** [/WHERE\s+([\s\S]*?)(?:ORDER BY|GROUP BY|LIMIT|$)/i] *)
Definition re_where : regex :=
  seqs [lit (js "WHERE"); plus blank; Group 1 (lazy_star (Chr CAny));
        alts [lit (js "ORDER BY"); lit (js "GROUP BY"); lit (js "LIMIT"); Eos]].
(** [/(\w+)\s*=\s*'([^']+)'/gi] *)
Definition re_eq_string : regex :=
  seqs [Group 1 (plus word); star blank; ch "="; star blank; ch "'";
        Group 2 (plus (Chr (CNot "'"))); ch "'"].
(** [/(\w+)\s*=\s*(\d+(?:\.\d+)?)/gi] and its siblings for [<], [>], [>=], [<=] *)
Definition re_compare (op : jsstring) : regex :=
  seqs [Group 1 (plus word); star blank; lit op; star blank; Group 2 number].
(** [/(\w+)\s+BETWEEN\s+(\d+(?:\.\d+)?)\s+AND\s+(\d+(?:\.\d+)?)/i] *)
Definition re_between : regex :=
  seqs [Group 1 (plus word); plus blank; lit (js "BETWEEN"); plus blank; Group 2 number;
        plus blank; lit (js "AND"); plus blank; Group 3 number].
(** [/(\w+)\s+ILIKE\s*'([^']+)'/gi] *)
Definition re_ilike : regex :=
  seqs [Group 1 (plus word); plus blank; lit (js "ILIKE"); star blank; ch "'";
        Group 2 (plus (Chr (CNot "'"))); ch "'"].
(** [/ORDER BY\s+([\s\S]*?)(?:LIMIT|$)/i] *)
Definition re_order : regex :=
  seqs [lit (js "ORDER BY"); plus blank; Group 1 (lazy_star (Chr CAny));
        alts [lit (js "LIMIT"); Eos]].
(** [/LIMIT\s+(\d+)/i] *)
Definition re_limit : regex := seqs [lit (js "LIMIT"); plus blank; Group 1 (plus digit)].

(** [sql.replace(/;+$/, '').trim()] *)
Definition cleanSQL (sql : jsstring) : jsstring :=
  trim (replace_first false re_semicolons [] sql).

(** [for (const x of xs) query = step(query, x)] *)
Fixpoint for_each {A} (xs : list A) (q : query) (step : query -> A -> M query) : M query :=
  match xs with
  | [] => ret q
  | x :: xs' => let* q' := step q x in for_each xs' q' step
  end.

(** [applyWhereClause(query, sql)] *)
Definition applyWhereClause (q : query) (sql : jsstring) : M query :=
  match exec true re_where sql with
  | None => ret q
  | Some whereMatch =>
      let whereClause := trim (grp 1 whereMatch) in
      let* q := for_each (matchAll true re_eq_string whereClause) q
             (fun q m => invoke q (Eq (grp 1 m) (JStr (grp 2 m)))) in
      let* q := for_each (matchAll true (re_compare (js "=")) whereClause) q
             (fun q m => invoke q (Eq (grp 1 m) (parseFloat (grp 2 m)))) in
      let* q := for_each (matchAll true (re_compare (js "<")) whereClause) q
             (fun q m => invoke q (Lt (grp 1 m) (parseFloat (grp 2 m)))) in
      let* q := for_each (matchAll true (re_compare (js ">")) whereClause) q
             (fun q m => invoke q (Gt (grp 1 m) (parseFloat (grp 2 m)))) in
      let* q := for_each (matchAll true (re_compare (js ">=")) whereClause) q
             (fun q m => invoke q (Gte (grp 1 m) (parseFloat (grp 2 m)))) in
      let* q := for_each (matchAll true (re_compare (js "<=")) whereClause) q
             (fun q m => invoke q (Lte (grp 1 m) (parseFloat (grp 2 m)))) in
      let* q := match exec true re_between whereClause with
           | Some betweenMatch =>
               let* q := invoke q (Gte (grp 1 betweenMatch) (parseFloat (grp 2 betweenMatch))) in
               invoke q (Lte (grp 1 betweenMatch) (parseFloat (grp 3 betweenMatch)))
           | None => ret q
           end in
      let* q := for_each (matchAll true re_ilike whereClause) q
             (fun q m => invoke q (Ilike (grp 1 m) (JStr (grp 2 m)))) in
      ret q
  end.

(** [applyOrderBy(query, sql)] *)
Definition applyOrderBy (q : query) (sql : jsstring) : M query :=
  match exec true re_order sql with
  | None => ret q
  | Some orderMatch =>
      let orderClause := trim (grp 1 orderMatch) in
      let parts := split_re false re_blanks (trim (hd [] (split "," orderClause))) in
      let column := hd [] parts in
      let direction :=
        match parts with
        | _ :: p1 :: _ => negb (jsstring_eqb (toUpperCase p1) (js "DESC"))
        | _ => true
        end in
      invoke q (Order column direction)
  end.

(** [applyGroupBy(query, sql)]: the builder comes back as it went in. *)
Definition applyGroupBy (q : query) (sql : jsstring) : M query := ret q.

(** [applyLimit(query, sql)] *)
Definition applyLimit (q : query) (sql : jsstring) : M query :=
  match exec true re_limit sql with
  | None => ret q
  | Some limitMatch => invoke q (Limit (parseInt (grp 1 limitMatch)))
  end.

(** The projection of a regular SELECT and its DISTINCT flag: [selectColumns]
    and [isDistinct] of [parseAndExecuteSQL]. *)
Definition select_list (cleanSQL : jsstring) : jsstring * bool :=
  match exec true re_select cleanSQL with
  | Some selectMatch =>
      let selectColumns := trim (grp 1 selectMatch) in
      let '(selectColumns, isDistinct) :=
        if startsWith (toUpperCase selectColumns) (js "DISTINCT ")
        then (trim (substring_from 9 selectColumns), true)
        else (selectColumns, false) in
      let selectColumns :=
        if negb (jsstring_eqb selectColumns (js "*")) &&
           negb (includes selectColumns (js "("))
        then join "," (map trim (split "," selectColumns))
        else selectColumns in
      (selectColumns, isDistinct)
  | None => (js "*", false)
  end.

(** What [parseAndExecuteSQL] returns: [{ data, count }]. *)
Record parsed_result := ParsedResult { p_data : option (list row); p_count : nat }.

(** What [executeQuery] and [executeDynamicQuery] return.  A property that the
    object literal does not have is [None]. *)
Record QueryResult := {
  success : bool;
  data : option (list row);
  count : option nat;
  error : option jsstring;
  query_text : jsval;
  params_used : option (list jsval)
}.

Definition count_value (n : option nat) : jsval :=
  match n with
  | Some n => JNum (inject_Z (Z.of_nat n))
  | None => JNull
  end.

Section DatabaseService.

(** The store behind the client: what awaiting a builder yields. *)
Variable store : query -> outcome response.
(** [JSON.stringify] on rows. *)
Variable JSON_stringify : row -> jsstring.

(** [supabase.from(table)] *)
Definition supabase_from (table : jsstring) : M query := invoke [] (From table).

(** [await query] *)
Definition await (q : query) : M response :=
  fun w => (store q, Client (calls w) (sent w ++ [q])).

(** [if (error) throw error] *)
Definition throw_if_error (r : response) : M unit :=
  match r_error r with
  | Some m => throw (StoreError m)
  | None => ret tt
  end.

(** The [filter] of the DISTINCT post-processing, with its [uniqueSet]. *)
Fixpoint distinct_filter (uniqueSet : gset jsstring) (items : list row) : list row :=
  match items with
  | [] => []
  | item :: items' =>
      let val := JSON_stringify item in
      if decide (val ∈ uniqueSet) then distinct_filter uniqueSet items'
      else item :: distinct_filter ({[val]} ∪ uniqueSet) items'
  end.

(** [parseAndExecuteSQL(sql)] *)
Definition parseAndExecuteSQL (sql : jsstring) : M parsed_result :=
  let cleanSQL := cleanSQL sql in
  let upperSQL := toUpperCase cleanSQL in
  match exec true re_from cleanSQL with
  | None =>
      if jsstring_eqb upperSQL (js "SELECT 1")
      then ret (ParsedResult (Some [[(js "result", JNum 1)]]) 1)
      else throw (Error (js "Could not parse table name from query"))
  | Some fromMatch =>
      let tableName := grp 1 fromMatch in
      let* q := supabase_from tableName in
      if includes upperSQL (js "COUNT(*)") then
        let* q := invoke q (Select (js "*") (Some (SelectOpts (js "exact") false))) in
        let* q := applyWhereClause q cleanSQL in
        let* q := (if includes upperSQL (js "GROUP BY") then
                match exec true re_select cleanSQL with
                | Some selectMatch =>
                    let columns := trim (grp 1 selectMatch) in
                    let* q := supabase_from tableName in
                    let* q := invoke q (Select columns None) in
                    let* q := applyWhereClause q cleanSQL in
                    applyGroupBy q cleanSQL
                | None => ret q
                end
              else ret q) in
        let* r := await q in
        let* _ := throw_if_error r in
        if includes upperSQL (js "GROUP BY")
        then ret (ParsedResult (r_data r) (from_option (@length row) 0 (r_data r)))
        else ret (ParsedResult (Some [[(js "total", count_value (r_count r))]]) 1)
      else
        let '(selectColumns, isDistinct) := select_list cleanSQL in
        let* q := supabase_from tableName in
        let* q := invoke q (Select selectColumns None) in
        let* q := applyWhereClause q cleanSQL in
        let* q := applyOrderBy q cleanSQL in
        let* q := applyLimit q cleanSQL in
        let* r := await q in
        let* _ := throw_if_error r in
        let finalData := default [] (r_data r) in
        let finalData :=
          if isDistinct && (0 <? length finalData)
          then distinct_filter ∅ finalData
          else finalData in
        ret (ParsedResult (Some finalData) (length finalData))
  end.

(** [executeDynamicQuery(sqlQuery)] *)
Definition executeDynamicQuery (sqlQuery : jsval) : M QueryResult :=
  try_catch
    (if negb (isSafeQuery sqlQuery)
     then throw (Error (js "Query contains unsafe operations"))
     else
       let* sql := lift (as_string (js "toUpperCase") sqlQuery) in
       let upperQuery := trim (toUpperCase sql) in
       if negb (startsWith upperQuery (js "SELECT"))
       then throw (Error (js "Only SELECT queries are allowed"))
       else
         let* result := parseAndExecuteSQL sql in
         ret {| success := true;
                data := Some (default [] (p_data result));
                count := Some (match p_data result with
                               | Some ((_ :: _) as d) => length d
                               | _ => p_count result
                               end);
                error := None;
                query_text := sqlQuery;
                params_used := None |})
    (fun error =>
       ret {| success := false;
              data := None;
              count := None;
              error := Some (message error);
              query_text := sqlQuery;
              params_used := None |}).

End DatabaseService.

(* ================================================================== *)
(** * databaseService.js: the fixed-shape queries of [executeQuery] *)
(* ================================================================== *)

(** [x < y] on strings: by code units. *)
Fixpoint jsstring_ltb (a b : jsstring) : bool :=
  match a, b with
  | _, [] => false
  | [], _ :: _ => true
  | x :: a', y :: b' =>
      if code x <? code y then true
      else if code y <? code x then false
      else jsstring_ltb a' b'
  end.

(** A stable sort by insertion, as [Array.prototype.sort] is stable: an element
    moves behind exactly those that the comparator puts strictly first. *)
Section Sort.
Context {A : Type}.
Variable comes_first : A -> A -> bool.   (* comes_first y x: comparator(x, y) > 0 *)

Fixpoint insert_sorted (x : A) (l : list A) : list A :=
  match l with
  | [] => [x]
  | y :: l' => if comes_first y x then y :: insert_sorted x l' else x :: l
  end.

Definition stable_sort (l : list A) : list A := fold_right insert_sorted [] l.
End Sort.

(** [SameValueZero], the equality of a [Set]; two objects parsed from a
    response are never the same object. *)
Definition same_value_zero (a b : jsval) : bool :=
  match a, b with
  | JUndefined, JUndefined | JNull, JNull | JNaN, JNaN => true
  | JBool x, JBool y => eqb x y
  | JNum x, JNum y => Qeq_bool x y
  | JStr x, JStr y => jsstring_eqb x y
  | _, _ => false
  end.

(** [[...new Set(values)]]: the values in the order of their first insertion. *)
Fixpoint set_values (seen : list jsval) (values : list jsval) : list jsval :=
  match values with
  | [] => []
  | v :: values' =>
      if existsb (same_value_zero v) seen then set_values seen values'
      else v :: set_values (v :: seen) values'
  end.

(** An array index among property keys: a canonical numeral below 2^32 - 1. *)
Definition is_array_index (key : jsstring) : bool :=
  match key with
  | [] => false
  | c :: key' =>
      forallb is_digit key && (negb (code c =? 48) || (length key' =? 0)) &&
      (length key <=? 10) && (digits_value 0 key <? 4294967295)%N
  end.

(** The names every object inherits from [Object.prototype]. *)
Definition object_prototype_names : list jsstring :=
  [js "constructor"; js "__proto__"; js "hasOwnProperty"; js "isPrototypeOf";
   js "propertyIsEnumerable"; js "toLocaleString"; js "toString"; js "valueOf";
   js "__defineGetter__"; js "__defineSetter__"; js "__lookupGetter__";
   js "__lookupSetter__"].

Definition inherited (key : jsstring) : bool :=
  existsb (jsstring_eqb key) object_prototype_names.

Section FixedQueries.

Variable store : query -> outcome response.
(** [ToString] of a value, as a property key or under the default sort. *)
Variable ToString : jsval -> jsstring.
(** The text an inherited property of [{}] turns into under [+]. *)
Variable inherited_text : jsstring -> jsstring.

(** [params.findIndex((_, i) => cleanQuery.includes(`$${i + 1}`))] *)
Definition param_index (cleanQuery : jsstring) (params : list jsval) : option nat :=
  findIndex_from (fun i => includes cleanQuery ("$"%char :: nat_numeral (i + 1))) 0 params.

(** [if (index !== -1) query = query.op(column, params[index])] *)
Definition with_param (cleanQuery : jsstring) (params : list jsval) (q : query)
    (op : jsval -> call) : M query :=
  match param_index cleanQuery params with
  | Some i => invoke q (op (nth i params JUndefined))
  | None => ret q
  end.

Definition when (b : bool) (q : query) (f : query -> M query) : M query :=
  if b then f q else ret q.

(** The branch for statements that count rows. *)
Definition count_branch (cleanQuery upperQuery : jsstring) (params : list jsval)
  : M parsed_result :=
  let* q := invoke [] (From (js "items")) in
  let* countQuery := invoke q (Select (js "*") (Some (SelectOpts (js "exact") true))) in
  let* countQuery :=
    when (includes upperQuery (js "WHERE")) countQuery (fun countQuery =>
      let whereClause :=
        substring_from (from_option (fun i => i + 5) 4
                          (indexOf (toUpperCase cleanQuery) (js "WHERE"))) cleanQuery in
      let* countQuery :=
        when (includes whereClause (js "CATEGORY =")) countQuery (fun q =>
          with_param cleanQuery params q (Eq (js "category"))) in
      when (includes whereClause (js "IS_ACTIVE =")) countQuery (fun q =>
        with_param cleanQuery params q (Eq (js "is_active")))) in
  let* r := await store countQuery in
  let* _ := throw_if_error r in
  ret (ParsedResult (Some [[(js "total", count_value (r_count r))]]) 1).

(** The branch for the other statements on [items]. *)
Definition select_branch (cleanQuery upperQuery : jsstring) (params : list jsval)
  : M parsed_result :=
  let* q := invoke [] (From (js "items")) in
  let* selectQuery := invoke q (Select (js "*") None) in
  let* selectQuery :=
    when (includes upperQuery (js "WHERE")) selectQuery (fun q =>
      let* q := when (includes upperQuery (js "CATEGORY =")) q (fun q =>
                  with_param cleanQuery params q (Eq (js "category"))) in
      let* q := when (includes upperQuery (js "PRICE >=")) q (fun q =>
                  with_param cleanQuery params q (Gte (js "price"))) in
      let* q := when (includes upperQuery (js "PRICE <=")) q (fun q =>
                  with_param cleanQuery params q (Lte (js "price"))) in
      let* q := when (includes upperQuery (js "RATING >=")) q (fun q =>
                  with_param cleanQuery params q (Gte (js "rating"))) in
      let* q := when (includes upperQuery (js "NAME ILIKE")) q (fun q =>
                  with_param cleanQuery params q (Ilike (js "name"))) in
      when (includes upperQuery (js "IS_ACTIVE = TRUE")) q (fun q =>
        invoke q (Eq (js "is_active") (JBool true)))) in
  let* selectQuery :=
    when (includes upperQuery (js "ORDER BY")) selectQuery (fun q =>
      if includes upperQuery (js "PRICE ASC") then invoke q (Order (js "price") true)
      else if includes upperQuery (js "PRICE DESC") then invoke q (Order (js "price") false)
      else if includes upperQuery (js "RATING DESC") then invoke q (Order (js "rating") false)
      else if includes upperQuery (js "CREATED_DATE DESC")
           then invoke q (Order (js "created_date") false)
      else if includes upperQuery (js "CREATED_DATE ASC")
           then invoke q (Order (js "created_date") true)
      else if includes upperQuery (js "NAME ASC") then invoke q (Order (js "name") true)
      else ret q) in
  let* selectQuery :=
    when (includes upperQuery (js "LIMIT")) selectQuery (fun q =>
      with_param cleanQuery params q Limit) in
  let* r := await store selectQuery in
  let* _ := throw_if_error r in
  ret (ParsedResult (Some (default [] (r_data r)))
                    (from_option (@length row) 0 (r_data r))).

(** [supabase.from('items').select('category').not('category', 'is', null)],
    awaited; [data] must be an array for what follows. *)
Definition fetch_categories : M (list row) :=
  let* q := invoke [] (From (js "items")) in
  let* q := invoke q (Select (js "category") None) in
  let* q := invoke q (Not (js "category") (js "is") JNull) in
  let* r := await store q in
  let* _ := throw_if_error r in
  match r_data r with
  | Some data => ret data
  | None => throw (TypeError (js "Cannot read properties of null"))
  end.

(** The default order of [sort()]: [undefined] last, the rest by [ToString]. *)
Definition default_before (x y : jsval) : bool :=
  match x, y with
  | JUndefined, _ => false
  | _, JUndefined => true
  | _, _ => jsstring_ltb (ToString x) (ToString y)
  end.

(** The branch for [SELECT DISTINCT CATEGORY]. *)
Definition distinct_category_branch : M parsed_result :=
  let* data := fetch_categories in
  let uniqueCategories :=
    stable_sort default_before (set_values [] (map (prop (js "category")) data)) in
  ret (ParsedResult (Some (map (fun category => [(js "category", category)]) uniqueCategories))
                    (length uniqueCategories)).

Definition with_result (query : jsval) (params : list jsval) (body : M parsed_result)
  : M QueryResult :=
  try_catch
    (let* result := body in
     ret {| success := true;
            data := p_data result;
            count := Some (p_count result);
            error := None;
            query_text := query;
            params_used := Some params |})
    (fun error =>
       ret {| success := false;
              data := None;
              count := None;
              error := Some (message error);
              query_text := query;
              params_used := Some params |}).

(** [executeQuery(query, params)] of backend/src/services/databaseService.js *)
Definition executeQuery (query : jsval) (params : list jsval) : M QueryResult :=
  with_result query params
    (if negb (isSafeQuery query)
     then throw (Error (js "Query contains unsafe operations"))
     else
       let* s := lift (as_string (js "replace") query) in
       let cleanQuery := normalize s in
       let upperQuery := toUpperCase cleanQuery in
       if includes upperQuery (js "SELECT") && includes upperQuery (js "FROM ITEMS") then
         if includes upperQuery (js "COUNT(*)")
         then count_branch cleanQuery upperQuery params
         else select_branch cleanQuery upperQuery params
       else if includes upperQuery (js "SELECT DISTINCT CATEGORY")
       then distinct_category_branch
       else throw (Error (js "Unsupported query type"))).

(** ** The copy under [src/services/databaseService.js] *)

(** [categoryCounts[category]]: an own property, or one inherited from
    [Object.prototype], or [undefined]. *)
Definition read_counter (categoryCounts : list (jsstring * jsval)) (key : jsstring) : jsval :=
  match List.find (fun p => jsstring_eqb (fst p) key) categoryCounts with
  | Some p => snd p
  | None => if inherited key then JStr (inherited_text key) else JUndefined
  end.

(** [(v || 0) + 1] *)
Definition or_zero_plus_one (v : jsval) : jsval :=
  match v with
  | JNum q => if Qeq_bool q 0 then JNum 1 else JNum (Qred (q + 1))
  | JStr [] => JNum 1
  | JStr s => JStr (s ++ js "1")
  | _ => JNum 1
  end.

(** [categoryCounts[key] = v]: the property is updated in place or added last;
    [__proto__] is a setter of the prototype, which drops a primitive. *)
Fixpoint write_counter (categoryCounts : list (jsstring * jsval)) (key : jsstring) (v : jsval)
  : list (jsstring * jsval) :=
  match categoryCounts with
  | [] => if jsstring_eqb key (js "__proto__") then [] else [(key, v)]
  | (k, old) :: rest =>
      if jsstring_eqb k key then (k, v) :: rest
      else (k, old) :: write_counter rest key v
  end.

(** The [forEach] that counts. *)
Definition count_categories (data : list row) : list (jsstring * jsval) :=
  fold_left (fun categoryCounts item =>
               let category := ToString (prop (js "category") item) in
               write_counter categoryCounts category
                 (or_zero_plus_one (read_counter categoryCounts category)))
            data [].

(** [Object.entries(o)]: array indices in ascending order, then the other
    keys in the order of their creation. *)
Definition object_entries {V : Type} (o : list (jsstring * V)) : list (jsstring * V) :=
  stable_sort (fun x y => (digits_value 0 (fst x) <? digits_value 0 (fst y))%N)
              (List.filter (fun p => is_array_index (fst p)) o)
  ++ List.filter (fun p => negb (is_array_index (fst p))) o.

(** [b.count - a.count > 0]; a count that is not a number makes the
    difference [NaN]. *)
Definition count_gt (b a : jsval) : bool :=
  match b, a with
  | JNum x, JNum y => negb (Qle_bool x y)
  | _, _ => false
  end.

(** The branch for [GROUP BY] with [CATEGORY]. *)
Definition group_by_category_branch : M parsed_result :=
  let* data := fetch_categories in
  let categoryCounts := count_categories data in
  let groupedData :=
    stable_sort (fun b a => count_gt (snd b) (snd a)) (object_entries categoryCounts) in
  ret (ParsedResult
         (Some (map (fun '(category, count) =>
                       [(js "category", JStr category); (js "count", count)]) groupedData))
         (length groupedData)).

Definition Legacy_executeQuery (query : jsval) (params : list jsval) : M QueryResult :=
  with_result query params
    (if negb (Legacy.isSafeQuery query)
     then throw (Error (js "Query contains unsafe operations"))
     else
       let* s := lift (as_string (js "replace") query) in
       let cleanQuery := normalize s in
       let upperQuery := toUpperCase cleanQuery in
       if includes upperQuery (js "SELECT") && includes upperQuery (js "FROM ITEMS") then
         if includes upperQuery (js "COUNT(*)") && negb (includes upperQuery (js "GROUP BY"))
         then count_branch cleanQuery upperQuery params
         else if includes upperQuery (js "GROUP BY") && includes upperQuery (js "CATEGORY")
         then group_by_category_branch
         else select_branch cleanQuery upperQuery params
       else if includes upperQuery (js "SELECT DISTINCT CATEGORY")
       then distinct_category_branch
       else throw (Error (js "Unsupported query type"))).

End FixedQueries.

(* ================================================================== *)
(** * databaseService.js: the fixed queries *)
(* ================================================================== *)

(** [ToBoolean] *)
Definition truthy (v : jsval) : bool :=
  match v with
  | JUndefined | JNull | JNaN => false
  | JBool b => b
  | JNum q => negb (Qeq_bool q 0)
  | JStr s => negb (length s =? 0)
  | JArr _ | JObj _ => true
  end.

(** A destructuring default: [const { name = d } = options]. *)
Definition or_default (d : jsval) (v : jsval) : jsval :=
  match v with
  | JUndefined => d
  | _ => v
  end.

(** The text of the queries, as the template literals spell them. *)
Definition category_statement : jsstring :=
  LF :: js "      SELECT id, name, description, price, category, rating, quantity, is_active, created_date"
  ++ LF :: js "      FROM items"
  ++ LF :: js "      WHERE category = $1"
  ++ LF :: js "    ".

Definition price_range_statement : jsstring :=
  LF :: js "      SELECT id, name, description, price, category, rating, quantity, is_active"
  ++ LF :: js "      FROM items"
  ++ LF :: js "      WHERE price >= $1 AND price <= $2"
  ++ LF :: js "    ".

Definition rating_statement : jsstring :=
  LF :: js "      SELECT id, name, description, price, category, rating, quantity, is_active"
  ++ LF :: js "      FROM items"
  ++ LF :: js "      WHERE rating >= $1"
  ++ LF :: js "    ".

Definition stats_statement : jsstring :=
  LF :: js "      SELECT"
  ++ LF :: js "        COUNT(*) as total_items,"
  ++ LF :: js "        COUNT(CASE WHEN is_active = true THEN 1 END) as active_items,"
  ++ LF :: js "        AVG(price) as average_price,"
  ++ LF :: js "        MIN(price) as min_price,"
  ++ LF :: js "        MAX(price) as max_price,"
  ++ LF :: js "        AVG(rating) as average_rating"
  ++ LF :: js "      FROM items"
  ++ LF :: js "      WHERE category = $1"
  ++ LF :: js "    ".

Definition all_category_stats_statement : jsstring :=
  LF :: js "      SELECT"
  ++ LF :: js "        category,"
  ++ LF :: js "        COUNT(*) as count"
  ++ LF :: js "      FROM items"
  ++ LF :: js "      GROUP BY category"
  ++ LF :: js "      ORDER BY count DESC"
  ++ LF :: js "    ".

Definition search_statement : jsstring :=
  LF :: js "      SELECT id, name, description, price, category, rating, quantity, is_active"
  ++ LF :: js "      FROM items"
  ++ LF :: js "      WHERE name ILIKE $1"
  ++ LF :: js "    ".

Definition all_categories_statement : jsstring :=
  LF :: js "      SELECT DISTINCT category"
  ++ LF :: js "      FROM items"
  ++ LF :: js "      WHERE category IS NOT NULL"
  ++ LF :: js "      ORDER BY category"
  ++ LF :: js "    ".

Section Helpers.

Variable store : query -> outcome response.
Variable ToString : jsval -> jsstring.
Variable inherited_text : jsstring -> jsstring.

(** [`${v}`] *)
Definition template (v : jsval) : jsstring :=
  match v with
  | JStr s => s
  | _ => ToString v
  end.

(** [if (!includeInactive) query += ` AND is_active = true`] *)
Definition active_only (options : row) (query : jsstring) : jsstring :=
  let includeInactive := or_default (JBool false) (prop (js "includeInactive") options) in
  if negb (truthy includeInactive) then query ++ js " AND is_active = true" else query.

(** [query += ` LIMIT $${params.length + 1}`; params.push(limit)], after the
    text [order] that the function puts before it. *)
Definition with_limit (options : row) (order : jsstring) (query : jsstring)
    (params : list jsval) : jsstring * list jsval :=
  let limit := or_default (JNum 20) (prop (js "limit") options) in
  (query ++ order ++ js " LIMIT $" ++ nat_numeral (length params + 1), params ++ [limit]).

(** The statement and the parameters of [getItemsByCategory]. *)
Definition category_query (category : jsval) (options : row) : jsstring * list jsval :=
  let sortBy := or_default (JStr (js "name")) (prop (js "sortBy") options) in
  let sortOrder := or_default (JStr (js "ASC")) (prop (js "sortOrder") options) in
  let query := active_only options category_statement in
  let query :=
    if truthy sortBy && truthy sortOrder
    then query ++ js " ORDER BY " ++ template sortBy ++ js " " ++ template sortOrder
    else query in
  with_limit options [] query [category].

(** The statement and the parameters of [getItemsByPriceRange]. *)
Definition price_range_query (minPrice maxPrice : jsval) (options : row)
  : jsstring * list jsval :=
  with_limit options (js " ORDER BY price ASC") (active_only options price_range_statement)
             [minPrice; maxPrice].

(** The statement and the parameters of [getItemsByRating]. *)
Definition rating_query (minRating : jsval) (options : row) : jsstring * list jsval :=
  with_limit options (js " ORDER BY rating DESC") (active_only options rating_statement) [minRating].

(** The statement and the parameters of [searchItemsByName]. *)
Definition search_query (searchTerm : jsval) (options : row) : jsstring * list jsval :=
  with_limit options (js " ORDER BY name ASC") (active_only options search_statement)
             [JStr (js "%" ++ template searchTerm ++ js "%")].

(** The statement and the parameters of [getItemsCount]. *)
Definition count_query (filters : row) : jsstring * list jsval :=
  let category := prop (js "category") filters in
  let isActive := prop (js "isActive") filters in
  let query := js "SELECT COUNT(*) as total FROM items WHERE 1=1" in
  let params := [] in
  let '(query, params) :=
    if truthy category
    then (query ++ js " AND category = $" ++ nat_numeral (length params + 1),
          params ++ [category])
    else (query, params) in
  match isActive with
  | JUndefined => (query, params)
  | _ => (query ++ js " AND is_active = $" ++ nat_numeral (length params + 1),
          params ++ [isActive])
  end.

(** [return this.executeQuery(query, params)] *)
Definition run_query (p : jsstring * list jsval) : M QueryResult :=
  executeQuery store ToString (JStr (fst p)) (snd p).

Definition getItemsByCategory (category : jsval) (options : row) : M QueryResult :=
  run_query (category_query category options).

Definition getItemsByPriceRange (minPrice maxPrice : jsval) (options : row) : M QueryResult :=
  run_query (price_range_query minPrice maxPrice options).

Definition getItemsByRating (minRating : jsval) (options : row) : M QueryResult :=
  run_query (rating_query minRating options).

Definition getCategoryStats (category : jsval) : M QueryResult :=
  executeQuery store ToString (JStr stats_statement) [category].

Definition searchItemsByName (searchTerm : jsval) (options : row) : M QueryResult :=
  run_query (search_query searchTerm options).

(** [executeQuery(query)]: [params] takes its default, the empty array. *)
Definition getAllCategories : M QueryResult :=
  executeQuery store ToString (JStr all_categories_statement) [].

Definition getItemsCount (filters : row) : M QueryResult :=
  run_query (count_query filters).

(** The same functions of [src/services/databaseService.js], which run
    their statements through the [executeQuery] of that file. *)
Definition Legacy_run_query (p : jsstring * list jsval) : M QueryResult :=
  Legacy_executeQuery store ToString inherited_text (JStr (fst p)) (snd p).

Definition Legacy_getItemsByCategory (category : jsval) (options : row) : M QueryResult :=
  Legacy_run_query (category_query category options).

Definition Legacy_getItemsByPriceRange (minPrice maxPrice : jsval) (options : row)
  : M QueryResult :=
  Legacy_run_query (price_range_query minPrice maxPrice options).

Definition Legacy_getItemsByRating (minRating : jsval) (options : row) : M QueryResult :=
  Legacy_run_query (rating_query minRating options).

Definition Legacy_getCategoryStats (category : jsval) : M QueryResult :=
  Legacy_executeQuery store ToString inherited_text (JStr stats_statement) [category].

Definition Legacy_getAllCategoryStats : M QueryResult :=
  Legacy_executeQuery store ToString inherited_text (JStr all_category_stats_statement) [].

Definition Legacy_searchItemsByName (searchTerm : jsval) (options : row) : M QueryResult :=
  Legacy_run_query (search_query searchTerm options).

Definition Legacy_getAllCategories : M QueryResult :=
  Legacy_executeQuery store ToString inherited_text (JStr all_categories_statement) [].

Definition Legacy_getItemsCount (filters : row) : M QueryResult :=
  Legacy_run_query (count_query filters).

End Helpers.

(* ================================================================== *)
(** * geminiService.js: the intent of a message *)
(* ================================================================== *)

(** Lower-case mapping of one code unit. *)
Definition lower_unit (c : ascii) : ascii :=
  if in_range 65 90 c then ascii_of_nat (code c + 32)
  else if in_range 192 222 c && negb (code c =? 215) then ascii_of_nat (code c + 32)
  else c.

Definition toLowerCase (s : jsstring) : jsstring := map lower_unit s.

(** [s.replace(a, by)] for a pattern [a] of one unit: the first occurrence. *)
Fixpoint replace_unit (a : ascii) (by_ : jsstring) (s : jsstring) : jsstring :=
  match s with
  | [] => []
  | c :: s' => if ascii_eqb c a then by_ ++ s' else c :: replace_unit a by_ s'
  end.

(** [arr.find(f)], [None] for [undefined]. *)
Definition find_first {A} (f : A -> bool) (arr : list A) : option A := List.find f arr.

(** The object [parseQueryIntent] returns; [None] and [JNull] are [null]. *)
Record intent := Intent {
  q_category : option jsstring;
  q_priceMin : jsval;
  q_priceMax : jsval;
  q_ratingMin : jsval;
  q_isActive : option bool;
  q_sortBy : option jsstring;
  q_limit : nat
}.

Definition categories : list jsstring :=
  [js "electronics"; js "books"; js "clothing"; js "toys"; js "sports";
   js "home & garden"; js "food & beverage"; js "office supplies"; js "health & beauty"].

(** [/\$?(\d+(?:\.\d{2})?)/g] *)
Definition re_price : regex :=
  seqs [opt (ch "$"); Group 1 (seqs [plus digit; opt (seqs [ch "."; digit; digit])])].

(** [/(\d+(?:\.\d)?)\s*stars?/] *)
Definition re_stars : regex :=
  seqs [Group 1 (seqs [plus digit; opt (seqs [ch "."; digit])]); star blank;
        lit (js "star"); opt (ch "s")].

(** [a - b > 0], the test by which [sort((a, b) => a - b)] puts [b] first. *)
Definition minus_positive (a b : jsval) : bool :=
  match a, b with
  | JNum x, JNum y => negb (Qle_bool x y)
  | _, _ => false
  end.

(** [parseFloat(p.replace('$', ''))] *)
Definition price_of (p : jsstring) : jsval := parseFloat (replace_unit "$" [] p).

(** [parseQueryIntent(message)] on a string. *)
Definition intent_of (message : jsstring) : intent :=
  let lowerMessage := toLowerCase message in
  let detectedCategory :=
    find_first (fun cat => includes lowerMessage (toLowerCase cat)) categories in
  let priceMatches := map (grp 0) (matchAll false re_price message) in
  let '(priceMin, priceMax) :=
    if 2 <=? length priceMatches then
      let prices := stable_sort (fun y x => minus_positive x y) (map price_of priceMatches) in
      (hd JUndefined prices, List.last prices JUndefined)
    else if length priceMatches =? 1 then
      let price := price_of (hd [] priceMatches) in
      if includes lowerMessage (js "under") || includes lowerMessage (js "less than")
         || includes lowerMessage (js "below")
      then (JNull, price)
      else if includes lowerMessage (js "over") || includes lowerMessage (js "more than")
              || includes lowerMessage (js "above")
      then (price, JNull)
      else (JNull, JNull)
    else (JNull, JNull) in
  let ratingMin :=
    match exec false re_stars message with
    | Some ratingMatch => parseFloat (grp 1 ratingMatch)
    | None => JNull
    end in
  let isActive :=
    if includes lowerMessage (js "active") || includes lowerMessage (js "available")
    then Some true
    else if includes lowerMessage (js "inactive") || includes lowerMessage (js "unavailable")
    then Some false
    else None in
  let sortBy :=
    if includes lowerMessage (js "cheapest") || includes lowerMessage (js "lowest price")
    then Some (js "price ASC")
    else if includes lowerMessage (js "expensive") || includes lowerMessage (js "highest price")
    then Some (js "price DESC")
    else if includes lowerMessage (js "highest rated") || includes lowerMessage (js "best rated")
    then Some (js "rating DESC")
    else if includes lowerMessage (js "newest") || includes lowerMessage (js "recent")
    then Some (js "created_date DESC")
    else if includes lowerMessage (js "oldest")
    then Some (js "created_date ASC")
    else None in
  {| q_category := detectedCategory;
     q_priceMin := priceMin;
     q_priceMax := priceMax;
     q_ratingMin := ratingMin;
     q_isActive := isActive;
     q_sortBy := sortBy;
     q_limit := 20 |}.

(** [parseQueryIntent(message)]: [message.toLowerCase] is not a function
    unless [message] is a string. *)
Definition parseQueryIntent (message : jsval) : outcome intent :=
  obind (as_string (js "toLowerCase") message) (fun s => Ok (intent_of s)).

(* ================================================================== *)
(** * geminiService.js: the statement taken from the model's answer *)
(* ================================================================== *)

(** [/```sql\n?/g] and [/```\n?/g] *)
Definition re_fence_sql : regex := seqs [lit (js "```sql"); opt (ch LF)].
Definition re_fence : regex := seqs [lit (js "```"); opt (ch LF)].

(** [sqlQuery.replace(/;+$/, '') + ';'] *)
Definition finish_statement (sqlQuery : jsstring) : jsstring :=
  replace_first false re_semicolons [] sqlQuery ++ js ";".

(** What [generateSQLQuery] makes of the text of the model's answer. *)
Definition statement_of_answer (text : jsstring) : jsstring :=
  let sqlQuery := trim text in
  let sqlQuery :=
    trim (replace_all false re_fence [] (replace_all false re_fence_sql [] sqlQuery)) in
  finish_statement sqlQuery.

(* ================================================================== *)
(** * Vocabulary of the statements *)
(* ================================================================== *)

(** The whole input, seen from a state of the matcher. *)
Definition input (st : mstate) : jsstring := rev (before st) ++ rest st.

(** [st'] lies [w] further than [st]. *)
Definition span (st st' : mstate) (w : jsstring) : Prop :=
  rest st = w ++ rest st' /\ before st' = rev w ++ before st.

(** [w] occurs in [s]. *)
Definition infix (w s : jsstring) : Prop := exists a b, s = a ++ w ++ b.

(** The captures of a state all satisfy [P]. *)
Definition caps_ok (P : nat -> jsstring -> Prop) (st : mstate) : Prop :=
  forall n w, In (n, w) (caps st) -> P n w.

(** Group [n] takes part in every match of [r]. *)
Fixpoint defines (n : nat) (r : regex) : bool :=
  match r with
  | Seq r1 r2 => defines n r1 || defines n r2
  | Alt r1 r2 => defines n r1 && defines n r2
  | Group m r1 => (m =? n) || defines n r1
  | _ => false
  end.

(** When every group of [r] captures text that satisfies [P], so do the
    captures of a match of [r]. *)
Fixpoint groups_ok (icase : bool) (s : jsstring) (P : nat -> jsstring -> Prop) (r : regex)
  : Prop :=
  match r with
  | Seq r1 r2 | Alt r1 r2 => groups_ok icase s P r1 /\ groups_ok icase s P r2
  | Star _ r1 => groups_ok icase s P r1
  | Group n r1 =>
      groups_ok icase s P r1 /\
      (forall st st' w, input st = s -> Matches icase r1 st st' -> span st st' w -> P n w)
  | _ => True
  end.

(** [m] is a match of [r] somewhere in [s]. *)
Definition match_in (icase : bool) (r : regex) (s : jsstring) (m : mresult) : Prop :=
  input (m_start m) = s /\ caps (m_start m) = [] /\
  Matches icase r (m_start m) (m_end m).

(** A column name taken from [text]: a non-empty run of word units. *)
Definition is_column (text w : jsstring) : Prop :=
  w <> [] /\ Forall (fun c => is_word c = true) w /\ infix w text.

(** The inside of a quoted literal taken from [text]. *)
Definition is_quoted_text (text w : jsstring) : Prop :=
  w <> [] /\ Forall (fun c => c <> "'"%char) w /\ infix w text.

(** A numeral: digits, possibly a point and more digits. *)
Definition is_numeral (w : jsstring) : Prop :=
  exists d f, d <> [] /\ Forall (fun c => is_digit c = true) d /\
              Forall (fun c => is_digit c = true) f /\
              (w = d \/ (f <> [] /\ w = d ++ "."%char :: f)).

(** A number parsed from a numeral of [text]. *)
Definition is_number_of (text : jsstring) (v : jsval) : Prop :=
  exists w, is_numeral w /\ infix w text /\ v = parseFloat w /\ exists q, v = JNum q.

(** A string taken from between quotes of [text]. *)
Definition is_string_of (text : jsstring) (v : jsval) : Prop :=
  exists w, is_quoted_text text w /\ v = JStr w.

(** A typed, column-level predicate whose operands are tokens of [text]. *)
Definition predicate_call (text : jsstring) (c : call) : Prop :=
  match c with
  | Eq col v => is_column text col /\ (is_string_of text v \/ is_number_of text v)
  | Lt col v | Gt col v | Gte col v | Lte col v => is_column text col /\ is_number_of text v
  | Ilike col v => is_column text col /\ is_string_of text v
  | _ => False
  end.

(** The WHERE text of a statement, as [applyWhereClause] cuts it out. *)
Definition where_text (sql : jsstring) : jsstring :=
  match exec true re_where sql with
  | Some whereMatch => trim (grp 1 whereMatch)
  | None => []
  end.

(** What the groups of the expressions of [applyWhereClause] hold. *)
Definition where_group (s : jsstring) (n : nat) (w : jsstring) : Prop :=
  match n with
  | 1 => is_column s w
  | _ => True
  end.

Definition quoted_group (s : jsstring) (n : nat) (w : jsstring) : Prop :=
  match n with
  | 1 => is_column s w
  | 2 => is_quoted_text s w
  | _ => True
  end.

Definition number_group (s : jsstring) (n : nat) (w : jsstring) : Prop :=
  match n with
  | 1 => is_column s w
  | _ => is_numeral w /\ infix w s
  end.

(** [logs P m R]: whatever the client has seen before, running [m] adds only
    calls that satisfy [P], awaits only builders made of such calls, and a
    value it returns satisfies [R]. *)
Definition logs (P : call -> Prop) {A} (m : M A) (R : A -> Prop) : Prop :=
  forall w, exists new qs,
    snd (m w) = Client (calls w ++ new) (sent w ++ qs) /\
    Forall P new /\ Forall (Forall P) qs /\
    match fst (m w) with Ok a => R a | Throw _ => True end.

(** [q] is the chain [q0] with more calls appended. *)
Definition extends (q0 q : query) : Prop := exists fs, q = q0 ++ fs.

(** [m] only builds: it returns a builder that satisfies [R] and awaits
    nothing. *)
Definition builds (m : M query) (R : query -> Prop) : Prop :=
  forall w, exists q new, m w = (Ok q, Client (calls w ++ new) (sent w)) /\ R q.

(** [m] awaits exactly one builder, which satisfies [Q]; it throws what the
    store throws or the error of the response, and otherwise returns a value
    related to the response by [post]. *)
Definition awaits_once (store : query -> outcome response) {A} (m : M A)
    (Q : query -> Prop) (post : response -> A -> Prop) : Prop :=
  forall w, exists q new,
    snd (m w) = Client (calls w ++ new) (sent w ++ [q]) /\ Q q /\
    match store q with
    | Throw e => fst (m w) = Throw e
    | Ok r =>
        match r_error r with
        | Some msg => fst (m w) = Throw (StoreError msg)
        | None => exists a, fst (m w) = Ok a /\ post r a
        end
    end.

(** The rows [parseAndExecuteSQL] hands back for a regular SELECT. *)
Definition final_rows (JSON_stringify : row -> jsstring) (isDistinct : bool)
    (r : response) : list row :=
  let finalData := default [] (r_data r) in
  if isDistinct && (0 <? length finalData)
  then distinct_filter JSON_stringify ∅ finalData
  else finalData.

(** The builder [parseAndExecuteSQL] awaits for the statement [sql] whose
    table is [t]. *)
Definition awaited (sql t : jsstring) (q : query) : Prop :=
  let stmt := cleanSQL sql in
  let upperSQL := toUpperCase stmt in
  let counting := [From t; Select (js "*") (Some (SelectOpts (js "exact") false))] in
  if includes upperSQL (js "COUNT(*)") then
    if includes upperSQL (js "GROUP BY") then
      extends (match exec true re_select stmt with
               | Some selectMatch => [From t; Select (trim (grp 1 selectMatch)) None]
               | None => counting
               end) q
    else extends counting q
  else extends [From t; Select (fst (select_list stmt)) None] q.

(** What [parseAndExecuteSQL] makes of the response [r]. *)
Definition result_of (JSON_stringify : row -> jsstring) (sql : jsstring) (r : response)
  : parsed_result :=
  let stmt := cleanSQL sql in
  let upperSQL := toUpperCase stmt in
  if includes upperSQL (js "COUNT(*)") then
    if includes upperSQL (js "GROUP BY")
    then ParsedResult (r_data r) (from_option (@length row) 0 (r_data r))
    else ParsedResult (Some [[(js "total", count_value (r_count r))]]) 1
  else
    ParsedResult (Some (final_rows JSON_stringify (snd (select_list stmt)) r))
                 (length (final_rows JSON_stringify (snd (select_list stmt)) r)).

(** [returns m R]: a value [m] returns satisfies [R]. *)
Definition returns {A} (m : M A) (R : A -> Prop) : Prop :=
  forall w a w', m w = (Ok a, w') -> R a.

(** The object the [catch] blocks return. *)
Definition failure (text : jsval) (params : option (list jsval)) (msg : jsstring)
  : QueryResult :=
  {| success := false; data := None; count := None; error := Some msg;
     query_text := text; params_used := params |}.

(** A result is either a success with rows and no error, or a failure with
    an error message and neither rows nor count. *)
Definition well_formed_result (res : QueryResult) : Prop :=
  (success res = true /\ error res = None /\ is_Some (data res) /\ is_Some (count res)) \/
  (success res = false /\ data res = None /\ count res = None /\ is_Some (error res)).

(** A client on which nothing has been called yet. *)
Definition fresh : client := Client [] [].

Definition scenario3 : jsstring := js "SELECT * FROM items WHERE price < 50 LIMIT 100".

(** The same statement over four lines, with a semicolon at the end. *)
Definition scenario4 : jsstring :=
  js "SELECT *" ++ LF :: js "FROM items" ++ LF :: js "WHERE price < 50" ++ LF ::
  js "LIMIT 100;".

Definition plan3 : query :=
  [From (js "items"); Select (js "*") None; Lt (js "price") (JNum 50); Limit (JNum 100)].

(** The table of a statement, as [parseAndExecuteSQL] finds it. *)
Definition table_of (sql : jsstring) : option jsstring :=
  grp 1 <$> exec true re_from (cleanSQL sql).

(** The limit of a statement, as [applyLimit] finds it. *)
Definition limit_of (sql : jsstring) : option jsval :=
  (fun m => parseInt (grp 1 m)) <$> exec true re_limit (cleanSQL sql).

(** The statement is handled as a COUNT statement. *)
Definition counts_rows (sql : jsstring) : bool :=
  includes (toUpperCase (cleanSQL sql)) (js "COUNT(*)").




Definition three_rows : list row :=
  [[(js "category", JStr (js "toys"))]; [(js "category", JStr (js "toys"))];
   [(js "category", JStr (js "books"))]].

Definition three_rows_store : query -> outcome response :=
  fun _ => Ok (Response (Some three_rows) None None).

Definition category_text (r : row) : jsstring :=
  match prop (js "category") r with
  | JStr s => s
  | _ => []
  end.

(** [w] is [p] up to the case of its letters. *)
Definition ci_eq (w p : jsstring) : Prop :=
  Forall2 (fun x a => cls_match true (CLit a) x = true) w p.

(** A table name can be located in [s]: the keyword FROM, blank space, and
    an identifier. *)
Definition names_table (s : jsstring) : Prop :=
  exists pre f ws c post,
    s = pre ++ f ++ ws ++ c :: post /\ ci_eq f (js "FROM") /\
    ws <> [] /\ Forall (fun x => is_space x = true) ws /\ is_word c = true.


Definition created_date_statement : jsstring :=
  js "SELECT name, created_date FROM items".

(** [x] may stand before [y]. *)
Definition in_order {A} (comes_first : A -> A -> bool) (x y : A) : Prop :=
  comes_first y x = false.

(** One more occurrence of [k]: its counter, when there is one, goes up in
    place; a new counter is added last. *)
Fixpoint bump (k : jsstring) (t : list (jsstring * nat)) : list (jsstring * nat) :=
  match t with
  | [] => [(k, 1)]
  | (k', n) :: t' => if jsstring_eqb k' k then (k', S n) :: t' else (k', n) :: bump k t'
  end.

Definition tally (keys : list jsstring) : list (jsstring * nat) :=
  fold_left (fun t k => bump k t) keys [].

(** How often [k] occurs among [keys]. *)
Definition occurrences (k : jsstring) (keys : list jsstring) : nat :=
  length (List.filter (jsstring_eqb k) keys).

(** The counter of [k] in [t], 0 when it has none. *)
Definition counter (k : jsstring) (t : list (jsstring * nat)) : nat :=
  match List.find (fun p => jsstring_eqb (fst p) k) t with
  | Some p => snd p
  | None => 0
  end.

(** A counter as the object holds it. *)
Definition counter_entry (p : jsstring * nat) : jsstring * jsval :=
  (fst p, JNum (inject_Z (Z.of_nat (snd p)))).

(** The category keys of the rows, in the order of the rows. *)
Definition category_keys (ToString : jsval -> jsstring) (data : list row) : list jsstring :=
  map (fun item => ToString (prop (js "category") item)) data.

(** The groups of [keys]: one for each key, in the order of [Object.entries],
    sorted by count. *)
Definition groups_of (keys : list jsstring) : list (jsstring * nat) :=
  stable_sort (fun b a => snd a <? snd b) (object_entries (tally keys)).

(** A statement with GROUP BY and no COUNT. *)
Definition grouped_rows : jsstring :=
  js "SELECT category FROM items GROUP BY category".

(** The row of a group, as the legacy copy returns it. *)
Definition group_row (g : jsstring * nat) : row :=
  [(js "category", JStr (fst g)); (js "count", JNum (inject_Z (Z.of_nat (snd g))))].

(** The builder the legacy copy awaits for a statement with GROUP BY. *)
Definition categories_query : query :=
  [From (js "items"); Select (js "category") None; Not (js "category") (js "is") JNull].

Definition legacy_grouped : jsstring :=
  js "SELECT category, COUNT(*) FROM items GROUP BY category".

(** [m] only extends its builder, by the calls [f]. *)
Definition appends (m : query -> M query) (f : list call) : Prop :=
  forall q w, m q w = (Ok (q ++ f), Client (calls w ++ f) (sent w)).

(** The call a placeholder gives rise to. *)
Definition param_calls (cleanQuery : jsstring) (params : list jsval) (op : jsval -> call)
  : list call :=
  match param_index cleanQuery params with
  | Some i => [op (nth i params JUndefined)]
  | None => []
  end.

(** The calls of the counting branch after [from] and [select]. *)
Definition count_calls (cleanQuery upperQuery : jsstring) (params : list jsval) : list call :=
  if includes upperQuery (js "WHERE") then
    let whereClause :=
      substring_from (from_option (fun i => i + 5) 4
                        (indexOf (toUpperCase cleanQuery) (js "WHERE"))) cleanQuery in
    (if includes whereClause (js "CATEGORY =")
     then param_calls cleanQuery params (Eq (js "category")) else []) ++
    (if includes whereClause (js "IS_ACTIVE =")
     then param_calls cleanQuery params (Eq (js "is_active")) else [])
  else [].

(** The [order] call of the selecting branch. *)
Definition order_calls (upperQuery : jsstring) : list call :=
  if includes upperQuery (js "PRICE ASC") then [Order (js "price") true]
  else if includes upperQuery (js "PRICE DESC") then [Order (js "price") false]
  else if includes upperQuery (js "RATING DESC") then [Order (js "rating") false]
  else if includes upperQuery (js "CREATED_DATE DESC") then [Order (js "created_date") false]
  else if includes upperQuery (js "CREATED_DATE ASC") then [Order (js "created_date") true]
  else if includes upperQuery (js "NAME ASC") then [Order (js "name") true]
  else [].

(** The calls of the selecting branch after [from] and [select]. *)
Definition select_calls (cleanQuery upperQuery : jsstring) (params : list jsval) : list call :=
  (if includes upperQuery (js "WHERE") then
     (if includes upperQuery (js "CATEGORY =")
      then param_calls cleanQuery params (Eq (js "category")) else []) ++
     (if includes upperQuery (js "PRICE >=")
      then param_calls cleanQuery params (Gte (js "price")) else []) ++
     (if includes upperQuery (js "PRICE <=")
      then param_calls cleanQuery params (Lte (js "price")) else []) ++
     (if includes upperQuery (js "RATING >=")
      then param_calls cleanQuery params (Gte (js "rating")) else []) ++
     (if includes upperQuery (js "NAME ILIKE")
      then param_calls cleanQuery params (Ilike (js "name")) else []) ++
     (if includes upperQuery (js "IS_ACTIVE = TRUE")
      then [Eq (js "is_active") (JBool true)] else [])
   else []) ++
  (if includes upperQuery (js "ORDER BY") then order_calls upperQuery else []) ++
  (if includes upperQuery (js "LIMIT") then param_calls cleanQuery params Limit else []).

(** What awaiting the builder [q] comes to: the store's exception, the
    error of its response, or the result [f] makes of the response. *)
Definition answer {A} (store : query -> outcome response) (q : query) (f : response -> A)
  : outcome A :=
  match store q with
  | Throw e => Throw e
  | Ok r =>
      match r_error r with
      | Some m => Throw (StoreError m)
      | None => Ok (f r)
      end
  end.

(** The result object [executeQuery] makes of the outcome of its [try] block. *)
Definition settled (text : jsval) (params : list jsval) (o : outcome parsed_result)
  : QueryResult :=
  match o with
  | Ok result =>
      {| success := true; data := p_data result; count := Some (p_count result);
         error := None; query_text := text; params_used := Some params |}
  | Throw e => failure text (Some params) (message e)
  end.

(** The result of the counting branch. *)
Definition total_of (r : response) : parsed_result :=
  ParsedResult (Some [[(js "total", count_value (r_count r))]]) 1.

(** The result of the selecting branch. *)
Definition rows_of (r : response) : parsed_result :=
  ParsedResult (Some (default [] (r_data r))) (from_option (@length row) 0 (r_data r)).

(** The builder the statement [s] makes [executeQuery] await, when it is a
    statement on [items]. *)
Definition items_builder (s : jsstring) (params : list jsval) : query :=
  let cleanQuery := normalize s in
  let upperQuery := toUpperCase cleanQuery in
  if includes upperQuery (js "COUNT(*)")
  then [From (js "items"); Select (js "*") (Some (SelectOpts (js "exact") true))]
       ++ count_calls cleanQuery upperQuery params
  else [From (js "items"); Select (js "*") None] ++ select_calls cleanQuery upperQuery params.

(** What [executeQuery] makes of the response to that builder. *)
Definition items_result (s : jsstring) (r : response) : parsed_result :=
  if includes (toUpperCase (normalize s)) (js "COUNT(*)") then total_of r else rows_of r.

(** [s] is a statement on [items] for [executeQuery]. *)
Definition on_items (s : jsstring) : bool :=
  includes (toUpperCase (normalize s)) (js "SELECT") &&
  includes (toUpperCase (normalize s)) (js "FROM ITEMS").

(** The option [includeInactive], with its default. *)
Definition includes_inactive (options : row) : bool :=
  truthy (or_default (JBool false) (prop (js "includeInactive") options)).

(** [eq('is_active', true)], unless inactive items are asked for. *)
Definition active_calls (options : row) : list call :=
  if includes_inactive options then [] else [Eq (js "is_active") (JBool true)].

(** The builder of a count over all items. *)
Definition count_all : query :=
  [From (js "items"); Select (js "*") (Some (SelectOpts (js "exact") true))].

(** The categories of the rows, each once, in the default order of [sort]. *)
Definition unique_categories (ToString : jsval -> jsstring) (data : list row) : list jsval :=
  stable_sort (default_before ToString) (set_values [] (map (prop (js "category")) data)).

(** What the branch for SELECT DISTINCT CATEGORY makes of the store's answer. *)
Definition distinct_answer (store : query -> outcome response)
    (ToString : jsval -> jsstring) : outcome parsed_result :=
  match answer store categories_query r_data with
  | Throw e => Throw e
  | Ok None => Throw (TypeError (js "Cannot read properties of null"))
  | Ok (Some data) =>
      Ok (ParsedResult
            (Some (map (fun category => [(js "category", category)])
                       (unique_categories ToString data)))
            (length (unique_categories ToString data)))
  end.

(** The parameter every placeholder of the statement [s] is given: the first
    one whose placeholder occurs in the text. *)
Definition the_parameter (s : jsstring) (params : list jsval) : jsval :=
  match param_index (normalize s) params with
  | Some i => nth i params JUndefined
  | None => JUndefined
  end.

(** The calls [executeQuery] can make: fixed ones, and comparisons of a fixed
    column with [arg]. *)
Definition fixed_call (arg : jsval) (c : call) : Prop :=
  c ∈ [From (js "items"); Select (js "*") None;
       Select (js "*") (Some (SelectOpts (js "exact") true));
       Select (js "category") None; Not (js "category") (js "is") JNull;
       Eq (js "is_active") (JBool true);
       Order (js "price") true; Order (js "price") false; Order (js "rating") false;
       Order (js "created_date") false; Order (js "created_date") true;
       Order (js "name") true;
       Eq (js "category") arg; Eq (js "is_active") arg; Gte (js "price") arg;
       Lte (js "price") arg; Gte (js "rating") arg; Ilike (js "name") arg; Limit arg].

(** [kw] occurs in [text] as a whole word, in whatever case: no word unit
    stands next to the occurrence. *)
Definition whole_word (kw text : jsstring) : Prop :=
  exists pre w post,
    text = pre ++ w ++ post /\ ci_eq w kw /\
    word_at (rev pre) = false /\ word_at post = false.

(** The keywords [isSafeQuery] looks for. *)
Definition blocked_keywords : list jsstring :=
  dangerousKeywords ++ [js "INTO"; js "VALUES"].

(** A capital letter of ASCII. *)
Definition is_capital (c : ascii) : bool := in_range 65 90 c.

(** A keyword: capital letters, at least one. *)
Definition is_keyword (kw : jsstring) : Prop :=
  kw <> [] /\ Forall (fun a => is_capital a = true) kw.

(** All code units. *)
Definition all_units : list ascii := map ascii_of_nat (seq 0 256).

(** Every run of blanks becomes one space; [in_blank] says whether the unit
    before was a blank. *)
Fixpoint squeeze (in_blank : bool) (s : jsstring) : jsstring :=
  match s with
  | [] => []
  | c :: s' =>
      if is_space c
      then if in_blank then squeeze true s' else " "%char :: squeeze true s'
      else c :: squeeze false s'
  end.

(** The matcher past the blanks at the head of [rst]. *)
Fixpoint skip_blanks (bef rst : jsstring) : jsstring * jsstring :=
  match rst with
  | c :: rst' => if is_space c then skip_blanks (c :: bef) rst' else (bef, rst)
  | [] => (bef, [])
  end.

(** The text up to its first blank, and the rest. *)
Fixpoint upto_blank (s : jsstring) : jsstring * jsstring :=
  match s with
  | c :: s' => if is_space c then ([], s) else let (a, b) := upto_blank s' in (c :: a, b)
  | [] => ([], [])
  end.

(** A tidy text: it does not start with a blank, and each of its blanks is a
    space followed by a unit that is not a blank. *)
Fixpoint well_spaced (t : jsstring) : bool :=
  match t with
  | [] => true
  | c :: t' =>
      (if is_space c
       then (code c =? 32) && match t' with d :: _ => negb (is_space d) | [] => false end
       else true) && well_spaced t'
  end.

Definition tidy (t : jsstring) : bool :=
  match t with c :: _ => negb (is_space c) | [] => true end && well_spaced t.

(** The text does not start with a blank. *)
Definition head_ok (t : jsstring) : bool :=
  match t with d :: _ => negb (is_space d) | [] => true end.

(** Each blank is a space, and what follows it, if anything, is no blank. *)
Fixpoint loose (t : jsstring) : bool :=
  match t with
  | [] => true
  | c :: t' => (if is_space c then (code c =? 32) && head_ok t' else true) && loose t'
  end.

(** The text does not end with a blank. *)
Definition last_ok (t : jsstring) : bool := head_ok (rev t).

(** Whether the matcher is in a run of blanks after [t]. *)
Definition blank_after (b : bool) (t : jsstring) : bool :=
  match rev t with
  | [] => b
  | c :: _ => is_space c
  end.

(** No two of the values are the same for a [Set]. *)
Fixpoint all_distinct (l : list jsval) : Prop :=
  match l with
  | [] => True
  | x :: l' => Forall (fun y => same_value_zero x y = false) l' /\ all_distinct l'
  end.

(** The text of a string, and nothing for other values. *)
Definition text_of (v : jsval) : jsstring :=
  match v with
  | JStr s => s
  | _ => []
  end.

(** The text ends with the unit [a]. *)
Definition ends_with (a : ascii) (s : jsstring) : Prop := exists t, s = t ++ [a].

(** A run of blanks. *)
Definition blanks (ws : jsstring) : Prop := Forall (fun x => is_space x = true) ws.

(** [tail] starts with blanks and FROM: there a projection ends. *)
Definition ends_projection (tail : jsstring) : Prop :=
  exists ws kw b, tail = ws ++ kw ++ b /\ ws <> [] /\ blanks ws /\ ci_eq kw (js "FROM").

(** [tail] is empty or starts with ORDER BY, GROUP BY or LIMIT: there a WHERE
    text ends. *)
Definition ends_where (tail : jsstring) : Prop :=
  tail = [] \/
  exists l b, tail = l ++ b /\
    (ci_eq l (js "ORDER BY") \/ ci_eq l (js "GROUP BY") \/ ci_eq l (js "LIMIT")).

(** [tail] is empty or starts with LIMIT: there the text of ORDER BY ends. *)
Definition ends_order (tail : jsstring) : Prop :=
  tail = [] \/ exists l b, tail = l ++ b /\ ci_eq l (js "LIMIT").

(** [p], followed by [tail], goes up to the first place where [ends] holds:
    it holds of [tail] and nowhere inside [p]. *)
Definition shortest_before (ends : jsstring -> Prop) (p tail : jsstring) : Prop :=
  ends tail /\ forall p1 p2, p = p1 ++ p2 -> p2 <> [] -> ~ ends (p2 ++ tail).

(** [p] stands in [stmt] after the keyword [K] and blanks, and is the
    shortest text there that [ends] holds after. *)
Definition cut_after (K : jsstring) (ends : jsstring -> Prop) (stmt p : jsstring) : Prop :=
  exists a kw ws tail,
    stmt = a ++ kw ++ ws ++ p ++ tail /\
    ci_eq kw K /\ ws <> [] /\ blanks ws /\ shortest_before ends p tail.

(** The text between SELECT and FROM, the text after WHERE and the text after
    ORDER BY, as the translator cuts them out. *)
Definition is_projection (stmt p : jsstring) : Prop :=
  cut_after (js "SELECT") ends_projection stmt p.

Definition is_where_text (stmt wt : jsstring) : Prop :=
  cut_after (js "WHERE") ends_where stmt wt.

Definition is_order_text (stmt o : jsstring) : Prop :=
  cut_after (js "ORDER BY") ends_order stmt o.


(** The text before the first comma. *)
Fixpoint until_comma (s : jsstring) : jsstring :=
  match s with
  | c :: s' => if ascii_eqb c "," then [] else c :: until_comma s'
  | [] => []
  end.

(** The first sort key of the text after ORDER BY. *)
Definition first_sort_key (o : jsstring) : jsstring := trim (until_comma (trim o)).

(** The first word of a text, and the word after the blanks that follow it. *)
Definition first_word (key : jsstring) : jsstring := fst (upto_blank key).

Definition second_word (key : jsstring) : jsstring :=
  fst (upto_blank (trimStart (snd (upto_blank key)))).

(** What [parseAndExecuteSQL] makes of the text between SELECT and FROM: a
    leading DISTINCT is dropped, and the blanks around the commas unless the
    text is [*] or holds a parenthesis. *)
Definition listed_columns (p : jsstring) : jsstring :=
  let selectColumns := trim p in
  let selectColumns :=
    if startsWith (toUpperCase selectColumns) (js "DISTINCT ")
    then trim (substring_from 9 selectColumns) else selectColumns in
  if negb (jsstring_eqb selectColumns (js "*")) && negb (includes selectColumns (js "("))
  then join "," (map trim (split "," selectColumns))
  else selectColumns.

(** The direction [applyOrderBy] reads off the pieces: descending exactly
    when the second piece is DESC in whatever case. *)
Definition direction_of (parts : list jsstring) : bool :=
  match parts with
  | _ :: p1 :: _ => negb (jsstring_eqb (toUpperCase p1) (js "DESC"))
  | _ => true
  end.



(** The statement on one line: every blank becomes a space. *)
Definition flat_unit (c : ascii) : ascii := if is_space c then " "%char else c.

Definition one_line (s : jsstring) : jsstring := map flat_unit s.

(** The keywords after which the translator looks for a space and for no
    other blank: ORDER BY and GROUP BY in its expressions and tests,
    DISTINCT in front of the projection. *)
Definition spaced_keywords : list jsstring := [js "ORDER"; js "GROUP"; js "DISTINCT"].

(** Every blank that follows one of these keywords is a space. *)
Definition spaces_kept (s : jsstring) : Prop :=
  forall a c b kw u,
    s = a ++ c :: b -> is_space c = true ->
    In kw spaced_keywords -> toUpperCase a = u ++ kw -> c = " "%char.

(** The same, as a test; [seen] is the upper-case text read so far, last unit
    first. *)
Fixpoint keeps_spaces_from (seen s : jsstring) : bool :=
  match s with
  | [] => true
  | c :: s' =>
      (negb (is_space c) || ascii_eqb c " " ||
       negb (existsb (fun kw => startsWith seen (rev kw)) spaced_keywords)) &&
      keeps_spaces_from (rev (toUpperCase [c]) ++ seen) s'
  end.

Definition keeps_spaces (s : jsstring) : bool := keeps_spaces_from [] s.

(** The matcher's state and a match on the one-line statement. *)
Definition flat_st (st : mstate) : mstate :=
  MState (one_line (before st)) (one_line (rest st))
         (map (fun p => (fst p, one_line (snd p))) (caps st)).

Definition flat_m (m : mresult) : mresult :=
  MResult (flat_st (m_start m)) (flat_st (m_end m)).

Definition flat_val (v : jsval) : jsval :=
  match v with
  | JStr s => JStr (one_line s)
  | _ => v
  end.

(** A call with the texts that can hold blanks on one line: the argument of
    [select] and the strings compared with. *)
Definition flat_call (c : call) : call :=
  match c with
  | Select cols opts => Select (one_line cols) opts
  | Eq col v => Eq col (flat_val v)
  | Lt col v => Lt col (flat_val v)
  | Gt col v => Gt col (flat_val v)
  | Gte col v => Gte col (flat_val v)
  | Lte col v => Lte col (flat_val v)
  | Ilike col v => Ilike col (flat_val v)
  | _ => c
  end.

(** The same with the names of tables and columns as well. *)
Definition flat_all (c : call) : call :=
  match c with
  | From t => From (one_line t)
  | Select cols opts => Select (one_line cols) opts
  | Eq col v => Eq (one_line col) (flat_val v)
  | Lt col v => Lt (one_line col) (flat_val v)
  | Gt col v => Gt (one_line col) (flat_val v)
  | Gte col v => Gte (one_line col) (flat_val v)
  | Lte col v => Lte (one_line col) (flat_val v)
  | Ilike col v => Ilike (one_line col) (flat_val v)
  | Order col asc => Order (one_line col) asc
  | _ => c
  end.

(** The table or column a call names holds no blank. *)
Definition names_free (c : call) : Prop :=
  match c with
  | From t | Order t _ => Forall (fun x => is_space x = false) t
  | Eq col _ | Lt col _ | Gt col _ | Gte col _ | Lte col _ | Ilike col _ =>
      Forall (fun x => is_space x = false) col
  | _ => True
  end.

(** A class of units that every blank belongs to or none does. *)
Definition cls_free (c : cls) : bool :=
  match c with
  | CLit a | CNot a => negb (is_space a)
  | _ => true
  end.

(** An expression that tells no blank from another, but for the space after
    one of the keywords above. *)
Inductive layout_free : regex -> Prop :=
| lf_Eps : layout_free Eps
| lf_Chr c : cls_free c = true -> layout_free (Chr c)
| lf_Seq r1 r2 : layout_free r1 -> layout_free r2 -> layout_free (Seq r1 r2)
| lf_Alt r1 r2 : layout_free r1 -> layout_free r2 -> layout_free (Alt r1 r2)
| lf_Star g r : layout_free r -> layout_free (Star g r)
| lf_Group n r : layout_free r -> layout_free (Group n r)
| lf_WordB : layout_free WordB
| lf_Eos : layout_free Eos
| lf_keyword kw p :
    In kw spaced_keywords -> layout_free (lit kw) -> layout_free (lit p) ->
    layout_free (lit (kw ++ " "%char :: p)).

(** The calls [applyWhereClause], [applyOrderBy] and [applyLimit] add to a
    builder. *)
Definition where_calls (sql : jsstring) : list call :=
  match exec true re_where sql with
  | None => []
  | Some whereMatch =>
      let whereClause := trim (grp 1 whereMatch) in
      map (fun m => Eq (grp 1 m) (JStr (grp 2 m)))
          (matchAll true re_eq_string whereClause) ++
      map (fun m => Eq (grp 1 m) (parseFloat (grp 2 m)))
          (matchAll true (re_compare (js "=")) whereClause) ++
      map (fun m => Lt (grp 1 m) (parseFloat (grp 2 m)))
          (matchAll true (re_compare (js "<")) whereClause) ++
      map (fun m => Gt (grp 1 m) (parseFloat (grp 2 m)))
          (matchAll true (re_compare (js ">")) whereClause) ++
      map (fun m => Gte (grp 1 m) (parseFloat (grp 2 m)))
          (matchAll true (re_compare (js ">=")) whereClause) ++
      map (fun m => Lte (grp 1 m) (parseFloat (grp 2 m)))
          (matchAll true (re_compare (js "<=")) whereClause) ++
      match exec true re_between whereClause with
      | Some b => [Gte (grp 1 b) (parseFloat (grp 2 b));
                   Lte (grp 1 b) (parseFloat (grp 3 b))]
      | None => []
      end ++
      map (fun m => Ilike (grp 1 m) (JStr (grp 2 m))) (matchAll true re_ilike whereClause)
  end.

Definition order_by_calls (sql : jsstring) : list call :=
  match exec true re_order sql with
  | None => []
  | Some m =>
      let key := first_sort_key (grp 1 m) in
      [Order (first_word key)
             (negb (jsstring_eqb (toUpperCase (second_word key)) (js "DESC")))]
  end.

Definition limit_calls (sql : jsstring) : list call :=
  match exec true re_limit sql with
  | None => []
  | Some m => [Limit (parseInt (grp 1 m))]
  end.

(** [select('*', { count: 'exact', head: false })] *)
Definition counting_select : call := Select (js "*") (Some (SelectOpts (js "exact") false)).

(** The builder [parseAndExecuteSQL] awaits for a statement that names a
    table. *)
Definition builder_of (sql : jsstring) : query :=
  let stmt := cleanSQL sql in
  let upperSQL := toUpperCase stmt in
  let t := default [] (table_of sql) in
  if includes upperSQL (js "COUNT(*)") then
    (if includes upperSQL (js "GROUP BY") then
       match exec true re_select stmt with
       | Some selectMatch => [From t; Select (trim (grp 1 selectMatch)) None]
       | None => [From t; counting_select]
       end
     else [From t; counting_select]) ++ where_calls stmt
  else
    [From t; Select (fst (select_list stmt)) None] ++
    where_calls stmt ++ order_by_calls stmt ++ limit_calls stmt.

(** The calls it makes on the way: those of the builder, after those of the
    builder it gives up, which a regular SELECT leaves after [from] and a
    COUNT statement with GROUP BY after its predicates. *)
Definition calls_of (sql : jsstring) : list call :=
  let stmt := cleanSQL sql in
  let upperSQL := toUpperCase stmt in
  let t := default [] (table_of sql) in
  (if includes upperSQL (js "COUNT(*)") then
     if includes upperSQL (js "GROUP BY") then
       match exec true re_select stmt with
       | Some _ => [From t; counting_select] ++ where_calls stmt
       | None => []
       end
     else []
   else [From t]) ++ builder_of sql.

(** Every blank of the upper-case text that follows a keyword is a space. *)
Definition kept_upper (u : jsstring) : Prop :=
  forall u1 c u2 kw v,
    u = u1 ++ c :: u2 -> is_space c = true ->
    In kw spaced_keywords -> u1 = v ++ kw -> c = " "%char.

(** The statement of scenario 4 without its semicolon. *)
Definition scenario4_lines : jsstring :=
  js "SELECT *" ++ LF :: js "FROM items" ++ LF :: js "WHERE price < 50" ++ LF ::
  js "LIMIT 100".

(** Statements with a line break after DISTINCT and inside ORDER BY. *)
Definition distinct_on_two_lines : jsstring :=
  js "SELECT DISTINCT" ++ LF :: js "category FROM items".

Definition order_by_on_two_lines : jsstring :=
  js "SELECT * FROM items ORDER" ++ LF :: js "BY price".

(** [SELECT 1] with a line break for its blank. *)
Definition select_1_on_two_lines : jsstring := js "SELECT" ++ LF :: js "1".

(* ================================================================== *)
(** * Properties of the matcher *)
(* ================================================================== *)

Section MatcherFacts.
Context {A : Type}.
Variable icase : bool.
Implicit Types (k : mstate -> option A) (st : mstate) (r : regex).

Lemma star_loop_S g (body : (mstate -> option A) -> mstate -> option A) k fuel st :
  star_loop g body k (S fuel) st =
  let again :=
    body (fun st' => if length (rest st') <? length (rest st)
                     then star_loop g body k fuel st' else None) st in
  if g then match again with Some x => Some x | None => k st end
  else match k st with Some x => Some x | None => again end.
Proof. reflexivity. Qed.

Local Arguments star_loop : simpl never.

Lemma star_loop_ext g (body : (mstate -> option A) -> mstate -> option A) :
  (forall k1 k2 st, (forall s, k1 s = k2 s) -> body k1 st = body k2 st) ->
  forall fuel k1 k2 st,
    (forall s, k1 s = k2 s) ->
    star_loop g body k1 fuel st = star_loop g body k2 fuel st.
Proof.
  intros Hbody fuel. induction fuel as [|fuel IH]; intros k1 k2 st Hk.
  - apply Hk.
  - rewrite !star_loop_S. simpl.
    rewrite (Hbody _ (fun st' => if length (rest st') <? length (rest st)
                                 then star_loop g body k2 fuel st' else None)).
    + now rewrite Hk.
    + intros s. destruct (_ <? _); [now apply IH | reflexivity].
Qed.

Lemma run_ext r : forall k1 k2 st,
  (forall s, k1 s = k2 s) -> run icase r k1 st = run icase r k2 st.
Proof.
  induction r as [|c|r1 IH1 r2 IH2|r1 IH1 r2 IH2|g r IH|n r IH| |];
    intros k1 k2 st Hk; simpl.
  - apply Hk.
  - destruct (rest st) as [|x xs]; [reflexivity|].
    destruct (cls_match icase c x); [apply Hk | reflexivity].
  - apply IH1. intros s. now apply IH2.
  - now rewrite (IH1 k1 k2 st Hk), (IH2 k1 k2 st Hk).
  - now apply star_loop_ext.
  - apply IH. intros s. apply Hk.
  - now rewrite Hk.
  - now rewrite Hk.
Qed.

(** Past the length of the input the fuel of a loop does not matter. *)
Lemma star_loop_fuel g r k : forall f1 f2 st,
  length (rest st) < f1 -> length (rest st) < f2 ->
  star_loop g (run icase r) k f1 st = star_loop g (run icase r) k f2 st.
Proof.
  induction f1 as [|f1 IH]; intros f2 st H1 H2; [lia|].
  destruct f2 as [|f2]; [lia|]. rewrite !star_loop_S. simpl.
  rewrite (run_ext r _ (fun st' => if length (rest st') <? length (rest st)
                                   then star_loop g (run icase r) k f2 st' else None)).
  - reflexivity.
  - intros s. destruct (length (rest s) <? length (rest st)) eqn:E; [|reflexivity].
    apply Nat.ltb_lt in E. apply IH; lia.
Qed.

Lemma star_loop_sound g r :
  (forall k st x, run icase r k st = Some x ->
                  exists st', Matches icase r st st' /\ k st' = Some x) ->
  forall fuel k st x,
    star_loop g (run icase r) k fuel st = Some x ->
    exists st', Matches icase (Star g r) st st' /\ k st' = Some x.
Proof.
  intros Hr fuel. induction fuel as [|fuel IH]; intros k st x H.
  - exists st. split; [constructor | exact H].
  - rewrite star_loop_S in H. simpl in H.
    assert (Hagain : forall y,
              run icase r (fun st' => if length (rest st') <? length (rest st)
                                      then star_loop g (run icase r) k fuel st'
                                      else None) st = Some y ->
              exists st', Matches icase (Star g r) st st' /\ k st' = Some y).
    { intros y Hy. apply Hr in Hy as (st1 & Hm & Hy).
      destruct (length (rest st1) <? length (rest st)) eqn:E; [|discriminate].
      apply Nat.ltb_lt in E. apply IH in Hy as (st2 & Hs & Hy).
      exists st2. split; [|exact Hy]. eapply M_StarMore; eassumption. }
    destruct g.
    + destruct (run icase r _ st) as [y|] eqn:E.
      * inversion H; subst. now apply Hagain.
      * exists st. split; [constructor | exact H].
    + destruct (k st) as [y|] eqn:E.
      * inversion H; subst. exists st. split; [constructor | exact E].
      * now apply Hagain.
Qed.

(** Soundness: an answer of the search comes from a match. *)
Lemma run_sound r : forall k st x,
  run icase r k st = Some x ->
  exists st', Matches icase r st st' /\ k st' = Some x.
Proof.
  induction r as [|c|r1 IH1 r2 IH2|r1 IH1 r2 IH2|g r IH|n r IH| |];
    intros k st x H; simpl in H.
  - exists st. split; [constructor | exact H].
  - destruct st as [bef [|y ys] cs]; simpl in H; [discriminate|].
    destruct (cls_match icase c y) eqn:E; [|discriminate].
    eexists. split; [now constructor | exact H].
  - apply IH1 in H as (st1 & H1 & H). apply IH2 in H as (st2 & H2 & H).
    exists st2. split; [econstructor; eassumption | exact H].
  - destruct (run icase r1 k st) as [y|] eqn:E.
    + inversion H; subst. apply IH1 in E as (st' & Hm & Hk).
      exists st'. split; [now apply M_AltL | exact Hk].
    + apply IH2 in H as (st' & Hm & Hk).
      exists st'. split; [now apply M_AltR | exact Hk].
  - eapply star_loop_sound; eassumption.
  - apply IH in H as (st1 & Hm & Hk).
    eexists. split; [apply M_Group; eassumption | exact Hk].
  - destruct (at_word_boundary st) eqn:E; [|discriminate].
    exists st. split; [now constructor | exact H].
  - destruct (rest st) eqn:E; [|discriminate].
    exists st. split; [now constructor | exact H].
Qed.

(** Completeness: where there is a match the search finds an answer. *)
Lemma run_complete r st st' :
  Matches icase r st st' ->
  forall k, is_Some (k st') -> is_Some (run icase r k st).
Proof.
  induction 1 as [st|c x bef xs cs Hc|r1 r2 st st1 st2 _ IH1 _ IH2
                 |r1 r2 st st' _ IH|r1 r2 st st' _ IH|g r st
                 |g r st st1 st2 _ IH1 Hlt _ IH2|n r st st1 _ IH|st Hb|st He];
    intros k Hk; simpl.
  - exact Hk.
  - now rewrite Hc.
  - apply IH1, IH2, Hk.
  - specialize (IH k Hk). destruct IH as [y ->]. eauto.
  - destruct (run icase r1 k st); [eauto | now apply IH].
  - rewrite star_loop_S. simpl. destruct g.
    + destruct (run icase r _ st); [eauto | exact Hk].
    + destruct Hk as [y ->]. eauto.
  - rewrite star_loop_S. simpl.
    assert (Hagain : is_Some
              (run icase r (fun st' => if length (rest st') <? length (rest st)
                                       then star_loop g (run icase r) k (length (rest st)) st'
                                       else None) st)).
    { apply IH1. rewrite (proj2 (Nat.ltb_lt _ _) Hlt).
      specialize (IH2 k Hk). simpl in IH2.
      rewrite (star_loop_fuel g r k _ (S (length (rest st1)))); [exact IH2|exact Hlt|lia]. }
    destruct g.
    + destruct Hagain as [y ->]. eauto.
    + destruct (k st); [eauto | exact Hagain].
  - now apply IH.
  - now rewrite Hb.
  - now rewrite He.
Qed.
End MatcherFacts.

(** ** The shape of matches *)

Section MatchShape.
Variable icase : bool.
Implicit Types (st : mstate) (r : regex).

Lemma span_refl st : span st st [].
Proof. now split. Qed.

Lemma span_trans st st1 st2 w1 w2 :
  span st st1 w1 -> span st1 st2 w2 -> span st st2 (w1 ++ w2).
Proof.
  intros [R1 B1] [R2 B2]. split.
  - now rewrite R1, R2, app_assoc.
  - now rewrite B2, B1, rev_app_distr, app_assoc.
Qed.

Lemma Matches_span r st st' : Matches icase r st st' -> exists w, span st st' w.
Proof.
  induction 1 as [st|c x bef xs cs Hc|r1 r2 st st1 st2 _ [w1 IH1] _ [w2 IH2]
                 |r1 r2 st st' _ IH|r1 r2 st st' _ IH|g r st
                 |g r st st1 st2 _ [w1 IH1] _ _ [w2 IH2]|n r st st1 _ IH|st Hb|st He];
    eauto using span_refl, span_trans.
  exists [x]. now split.
Qed.

Lemma span_input st st' w : span st st' w -> input st' = input st.
Proof.
  intros [R B]. unfold input. now rewrite R, B, rev_app_distr, rev_involutive, <- app_assoc.
Qed.

Lemma Matches_input r st st' : Matches icase r st st' -> input st' = input st.
Proof. intros H. apply Matches_span in H as [w H]. eapply span_input, H. Qed.

Lemma consumed_span st st' w : span st st' w -> consumed st st' = w.
Proof.
  intros [_ B]. unfold consumed. rewrite B, length_app, length_rev.
  replace (length w + length (before st) - length (before st)) with (length (rev w))
    by (rewrite length_rev; lia).
  now rewrite firstn_app, Nat.sub_diag, firstn_all, firstn_O, app_nil_r, rev_involutive.
Qed.

Lemma span_infix st st' w : span st st' w -> infix w (input st).
Proof. intros [R _]. exists (rev (before st)), (rest st'). unfold input. now rewrite R. Qed.

Lemma span_length st st' w : span st st' w -> length (rest st) = length w + length (rest st').
Proof. intros [R _]. now rewrite R, length_app. Qed.

Lemma Matches_caps r st st' :
  Matches icase r st st' -> exists new, caps st' = new ++ caps st.
Proof.
  induction 1 as [st|c x bef xs cs Hc|r1 r2 st st1 st2 _ [n1 IH1] _ [n2 IH2]
                 |r1 r2 st st' _ IH|r1 r2 st st' _ IH|g r st
                 |g r st st1 st2 _ [n1 IH1] _ _ [n2 IH2]|n r st st1 _ [n1 IH]|st Hb|st He];
    try (now exists []); try assumption.
  - exists (n2 ++ n1). now rewrite IH2, IH1, app_assoc.
  - exists (n2 ++ n1). now rewrite IH2, IH1, app_assoc.
  - exists ((n, consumed st st1) :: n1). simpl. now rewrite IH.
Qed.

Lemma captures_typed s P r st st' :
  Matches icase r st st' -> groups_ok icase s P r -> input st = s ->
  caps_ok P st -> caps_ok P st'.
Proof.
  induction 1 as [st|c x bef xs cs Hc|r1 r2 st st1 st2 H1 IH1 _ IH2
                 |r1 r2 st st' _ IH|r1 r2 st st' _ IH|g r st
                 |g r st st1 st2 H1 IH1 _ _ IH2|n r st st1 H1 IH|st Hb|st He];
    simpl; intros Hg Hin Hc0; try assumption.
  - apply IH2; [tauto| |apply IH1; tauto].
    now rewrite (Matches_input _ _ _ H1).
  - apply IH; tauto.
  - apply IH; tauto.
  - apply IH2; [assumption| |apply IH1; assumption].
    now rewrite (Matches_input _ _ _ H1).
  - destruct Hg as [Hg HP]. intros m w [E|Hw].
    + injection E as E1 E2. rewrite <- E1, <- E2.
      destruct (Matches_span _ _ _ H1) as [w' Hs].
      rewrite (consumed_span _ _ _ Hs). exact (HP _ _ _ Hin H1 Hs).
    + revert Hw. apply (IH Hg Hin Hc0).
Qed.

Lemma find_app_is_Some {X} (f : X -> bool) (l1 l2 : list X) :
  is_Some (List.find f l2) -> is_Some (List.find f (l1 ++ l2)).
Proof.
  intros H. induction l1 as [|x l1 IH]; simpl; [exact H|].
  destruct (f x); eauto.
Qed.

Lemma Matches_defines n r st st' :
  Matches icase r st st' -> defines n r = true ->
  is_Some (List.find (fun p => fst p =? n) (caps st')).
Proof.
  induction 1 as [st|c x bef xs cs Hc|r1 r2 st st1 st2 H1 IH1 H2 IH2
                 |r1 r2 st st' _ IH|r1 r2 st st' _ IH|g r st
                 |g r st st1 st2 H1 IH1 _ _ IH2|m r st st1 H1 IH|st Hb|st He];
    simpl; intros Hd; try discriminate.
  - apply orb_true_iff in Hd as [Hd|Hd]; [|now apply IH2].
    destruct (Matches_caps _ _ _ H2) as [new ->].
    apply find_app_is_Some, IH1, Hd.
  - apply andb_true_iff in Hd as [Hd _]. now apply IH.
  - apply andb_true_iff in Hd as [_ Hd]. now apply IH.
  - destruct (m =? n) eqn:E; [eauto|]. simpl in Hd. now apply IH.
Qed.

(** A run of units of one class. *)
Lemma Matches_star_chr g c st st' :
  Matches icase (Star g (Chr c)) st st' ->
  exists w, span st st' w /\ Forall (fun x => cls_match icase c x = true) w /\
            caps st' = caps st.
Proof.
  intros H. remember (Star g (Chr c)) as r eqn:Er.
  induction H as [| | | | |g' r' st|g' r' st st1 st2 H1 _ Hlt _ IH2| | |];
    try discriminate.
  - exists []. split; [apply span_refl|]. split; [constructor|reflexivity].
  - inversion Er; subst. destruct (IH2 eq_refl) as (w & Hs & Hf & Hc).
    inversion H1; subst. exists (x :: w). split; [|split].
    + refine (span_trans _ _ _ [x] w _ Hs). now split.
    + now constructor.
    + exact Hc.
Qed.

Lemma Matches_plus_chr c st st' :
  Matches icase (plus (Chr c)) st st' ->
  exists w, w <> [] /\ span st st' w /\
            Forall (fun x => cls_match icase c x = true) w /\ caps st' = caps st.
Proof.
  intros H. inversion H as [| |r1 r2 s0 st1 s2 H1 H2| | | | | | |]; subst.
  apply Matches_star_chr in H2 as (w & Hs & Hf & Hc).
  inversion H1; subst. exists (x :: w). split; [discriminate|]. split; [|split].
  - refine (span_trans _ _ _ [x] w _ Hs). now split.
  - now constructor.
  - exact Hc.
Qed.

(** Conversely, a run of units of one class is matched. *)
Lemma Matches_star_chr_intro g c w bef rst cs :
  Forall (fun x => cls_match icase c x = true) w ->
  Matches icase (Star g (Chr c)) (MState bef (w ++ rst) cs) (MState (rev w ++ bef) rst cs).
Proof.
  intros Hw. revert bef. induction Hw as [|x w Hx _ IH]; intros bef; simpl.
  - constructor.
  - eapply M_StarMore.
    + now constructor.
    + simpl. lia.
    + rewrite <- app_assoc. apply IH.
Qed.

Lemma Matches_plus_chr_intro c x w bef rst cs :
  Forall (fun x => cls_match icase c x = true) (x :: w) ->
  Matches icase (plus (Chr c)) (MState bef (x :: w ++ rst) cs)
          (MState (rev (x :: w) ++ bef) rst cs).
Proof.
  intros Hw. inversion Hw; subst. eapply M_Seq.
  - now constructor.
  - simpl. rewrite <- app_assoc. now apply Matches_star_chr_intro.
Qed.

(** The pattern characters of [p] match text equal to [p] up to case. *)
Lemma Matches_lit_intro p : forall w bef rst cs,
  Forall2 (fun x a => cls_match icase (CLit a) x = true) w p ->
  Matches icase (lit p) (MState bef (w ++ rst) cs) (MState (rev w ++ bef) rst cs).
Proof.
  induction p as [|a p IH]; intros w bef rst cs Hw; inversion Hw; subst; simpl.
  - constructor.
  - eapply M_Seq; [now constructor|]. rewrite <- app_assoc. now apply IH.
Qed.

Lemma Matches_lit p : forall st st',
  Matches icase (lit p) st st' ->
  exists w, span st st' w /\
            Forall2 (fun x a => cls_match icase (CLit a) x = true) w p /\
            caps st' = caps st.
Proof.
  induction p as [|a p IH]; intros st st' H; simpl in H.
  - inversion H; subst. exists []. split; [apply span_refl|]. now split.
  - inversion H as [| |r1 r2 s0 st1 s2 H1 H2| | | | | | |]; subst.
    apply IH in H2 as (w & Hs & Hf & Hc). inversion H1; subst.
    exists (x :: w). split; [|split].
    + refine (span_trans _ _ _ [x] w _ Hs). now split.
    + now constructor.
    + exact Hc.
Qed.
End MatchShape.

(** ** Searching *)

Section SearchFacts.
Variable icase : bool.
Variable r : regex.

Lemma match_at_sound bef rst m :
  match_at icase r bef rst = Some m ->
  m_start m = MState bef rst [] /\ Matches icase r (m_start m) (m_end m).
Proof.
  unfold match_at. intros H. apply run_sound in H as (st' & Hm & E).
  inversion E; subst. now split.
Qed.

Lemma match_at_complete bef rst st' :
  Matches icase r (MState bef rst []) st' -> is_Some (match_at icase r bef rst).
Proof. intros H. unfold match_at. eapply run_complete; eauto. Qed.

Lemma search_sound : forall rst bef m,
  search icase r bef rst = Some m ->
  exists pre post, rst = pre ++ post /\ m_start m = MState (rev pre ++ bef) post [] /\
                   Matches icase r (m_start m) (m_end m).
Proof.
  induction rst as [|c rst IH]; intros bef m H; simpl in H.
  - destruct (match_at icase r bef []) eqn:E; [|discriminate].
    inversion H; subst. apply match_at_sound in E as [E1 E2].
    exists [], []. now split.
  - destruct (match_at icase r bef (c :: rst)) eqn:E.
    + inversion H; subst. apply match_at_sound in E as [E1 E2].
      exists [], (c :: rst). now split.
    + apply IH in H as (pre & post & -> & Hs & Hm).
      exists (c :: pre), post. split; [reflexivity|]. split; [|exact Hm].
      rewrite Hs. simpl. now rewrite <- app_assoc.
Qed.

Lemma search_complete : forall pre bef post st',
  Matches icase r (MState (rev pre ++ bef) post []) st' ->
  is_Some (search icase r bef (pre ++ post)).
Proof.
  induction pre as [|c pre IH]; intros bef post st' H; simpl in *.
  - apply match_at_complete in H as [m Hm].
    destruct post; simpl; rewrite Hm; eauto.
  - destruct (match_at icase r bef (c :: pre ++ post)); [eauto|].
    apply (IH (c :: bef) post st'). now rewrite <- app_assoc in H.
Qed.

Lemma search_match_in rst bef m :
  search icase r bef rst = Some m -> match_in icase r (rev bef ++ rst) m.
Proof.
  intros H. apply search_sound in H as (pre & post & -> & Hs & Hm).
  split; [|split; [now rewrite Hs | exact Hm]].
  rewrite Hs. unfold input. simpl.
  now rewrite rev_app_distr, rev_involutive, <- app_assoc.
Qed.

Lemma exec_sound s m : exec icase r s = Some m -> match_in icase r s m.
Proof. apply (search_match_in s []). Qed.

(** A match anywhere in the text makes [exec] answer. *)
Lemma exec_complete pre post st' :
  Matches icase r (MState (rev pre) post []) st' ->
  is_Some (exec icase r (pre ++ post)).
Proof.
  intros H. unfold exec. apply (search_complete pre [] post st').
  now rewrite app_nil_r.
Qed.

Lemma matchAll_from_sound : forall fuel bef rst m,
  In m (matchAll_from icase r fuel bef rst) -> match_in icase r (rev bef ++ rst) m.
Proof.
  induction fuel as [|fuel IH]; intros bef rst m H; simpl in H; [contradiction|].
  destruct (search icase r bef rst) as [m0|] eqn:E; [|contradiction].
  pose proof (search_match_in _ _ _ E) as Hm0.
  assert (Hin : input (m_end m0) = rev bef ++ rst).
  { destruct Hm0 as (Hi & _ & Hm). now rewrite (Matches_input _ _ _ _ Hm). }
  destruct (length (before (m_end m0)) =? length (before (m_start m0))).
  - destruct (rest (m_end m0)) as [|c rst'] eqn:Er.
    + destruct H as [<-|[]]. exact Hm0.
    + destruct H as [<-|H]; [exact Hm0|]. apply IH in H.
      rewrite <- Hin. unfold input. rewrite Er. simpl in H.
      now rewrite <- app_assoc in H.
  - destruct H as [<-|H]; [exact Hm0|]. apply IH in H. now rewrite <- Hin.
Qed.

Lemma matchAll_sound s m : In m (matchAll icase r s) -> match_in icase r s m.
Proof. apply (matchAll_from_sound _ [] s). Qed.

(** What the groups of a match hold. *)
Lemma match_in_group s P m n :
  match_in icase r s m -> groups_ok icase s P r -> defines n r = true -> n <> 0 ->
  exists w, group n m = Some w /\ P n w.
Proof.
  intros (Hi & Hc & Hm) Hg Hd Hn.
  destruct (Matches_defines _ n _ _ _ Hm Hd) as [[n' w] Hf].
  exists w. split.
  - destruct n; [congruence|]. simpl. now rewrite Hf.
  - pose proof (find_some _ _ Hf) as [Hin Heq]. simpl in Heq.
    apply Nat.eqb_eq in Heq. subst n'.
    eapply (captures_typed icase s P r); try eassumption.
    intros k v. rewrite Hc. intros [].
Qed.
End SearchFacts.

(** ** Taking matches apart *)

Section Inversion.
Variable icase : bool.

Lemma Matches_Seq_inv r1 r2 st st' :
  Matches icase (Seq r1 r2) st st' ->
  exists st1, Matches icase r1 st st1 /\ Matches icase r2 st1 st'.
Proof. inversion 1; subst; eauto. Qed.

Lemma Matches_Alt_inv r1 r2 st st' :
  Matches icase (Alt r1 r2) st st' -> Matches icase r1 st st' \/ Matches icase r2 st st'.
Proof. inversion 1; subst; eauto. Qed.

Lemma Matches_Eps_inv st st' : Matches icase Eps st st' -> st' = st.
Proof. now inversion 1. Qed.

Lemma Matches_Chr_inv c st st' :
  Matches icase (Chr c) st st' ->
  exists x, cls_match icase c x = true /\ span st st' [x] /\ caps st' = caps st.
Proof. inversion 1; subst. exists x. split; [assumption|]. now split. Qed.

Lemma Matches_Group_inv n r st st' :
  Matches icase (Group n r) st st' ->
  exists st1, Matches icase r st st1 /\ st' = set_cap n st st1.
Proof. inversion 1; subst; eauto. Qed.

Lemma Matches_WordB_inv st st' :
  Matches icase WordB st st' -> st' = st /\ at_word_boundary st = true.
Proof. now inversion 1. Qed.

Lemma Matches_Eos_inv st st' : Matches icase Eos st st' -> st' = st /\ rest st = [].
Proof. now inversion 1. Qed.

Lemma span_set_cap n st0 st st1 w : span st st1 w -> span st (set_cap n st0 st1) w.
Proof. exact id. Qed.

Lemma span_inj st st' w1 w2 : span st st' w1 -> span st st' w2 -> w1 = w2.
Proof.
  intros [_ B1] [_ B2]. rewrite B1 in B2. apply app_inv_tail in B2.
  now apply rev_inj in B2.
Qed.

Lemma Matches_alts_intro r rs st st' :
  In r rs -> Matches icase r st st' -> Matches icase (alts rs) st st'.
Proof.
  induction rs as [|r0 rs IH]; intros Hin Hm; [contradiction|].
  destruct rs as [|r1 rs].
  - destruct Hin as [->|[]]. exact Hm.
  - destruct Hin as [->|Hin].
    + now apply M_AltL.
    + apply M_AltR. now apply IH.
Qed.

Lemma Matches_alts_inv rs st st' :
  rs <> [] -> Matches icase (alts rs) st st' ->
  exists r, In r rs /\ Matches icase r st st'.
Proof.
  induction rs as [|r0 rs IH]; intros Hne Hm; [congruence|].
  destruct rs as [|r1 rs].
  - exists r0. split; [now left | exact Hm].
  - apply Matches_Alt_inv in Hm as [Hm|Hm].
    + exists r0. split; [now left | exact Hm].
    + destruct (IH ltac:(discriminate) Hm) as (r & Hin & Hr).
      exists r. split; [now right | exact Hr].
Qed.
End Inversion.

(* ================================================================== *)
(** * What reaches the store *)
(* ================================================================== *)

Section Tokens.
Variable s : jsstring.

Lemma word_token st st' w :
  input st = s -> Matches true (plus word) st st' -> span st st' w -> is_column s w.
Proof.
  intros Hi Hm Hs. apply Matches_plus_chr in Hm as (w' & Hne & Hs' & Hf & _).
  rewrite (span_inj _ _ _ _ Hs Hs'). split; [exact Hne|]. split; [exact Hf|].
  rewrite <- Hi. eapply span_infix, Hs'.
Qed.

Lemma quoted_token st st' w :
  input st = s -> Matches true (plus (Chr (CNot "'"))) st st' -> span st st' w ->
  is_quoted_text s w.
Proof.
  intros Hi Hm Hs. apply Matches_plus_chr in Hm as (w' & Hne & Hs' & Hf & _).
  rewrite (span_inj _ _ _ _ Hs Hs'). split; [exact Hne|]. split.
  - eapply Forall_impl; [exact Hf|]. intros c Hc ->. discriminate.
  - rewrite <- Hi. eapply span_infix, Hs'.
Qed.

Lemma point_unit x : cls_match true (CLit ".") x = true -> x = "."%char.
Proof.
  destruct x as [[] [] [] [] [] [] [] []]; vm_compute; congruence.
Qed.

Lemma numeral_token st st' w :
  input st = s -> Matches true number st st' -> span st st' w ->
  is_numeral w /\ infix w s.
Proof.
  intros Hi Hm Hs. split; [|rewrite <- Hi; eapply span_infix, Hs].
  unfold number in Hm. simpl in Hm.
  apply Matches_Seq_inv in Hm as (st1 & Hd & Hm).
  apply Matches_plus_chr in Hd as (d & Hne & Hsd & Hfd & _).
  apply Matches_Seq_inv in Hm as (st2 & Hm & He).
  apply Matches_Eps_inv in He as ->.
  apply Matches_Alt_inv in Hm as [Hm|Hm].
  - apply Matches_Seq_inv in Hm as (st3 & Hp & Hm).
    apply Matches_Chr_inv in Hp as (x & Hx & Hsx & _).
    apply point_unit in Hx as ->.
    apply Matches_Seq_inv in Hm as (st4 & Hf & He).
    apply Matches_Eps_inv in He as ->.
    apply Matches_plus_chr in Hf as (f & Hnf & Hsf & Hff & _).
    exists d, f. repeat (split; [assumption|]). right. split; [assumption|].
    eapply span_inj; [exact Hs|].
    apply (span_trans _ _ _ d ("."%char :: f) Hsd).
    apply (span_trans _ _ _ ["."%char] f Hsx Hsf).
  - apply Matches_Eps_inv in Hm as ->.
    exists d, []. repeat (split; [assumption || constructor|]). left.
    eapply span_inj; eassumption.
Qed.

Lemma groups_ok_lit P p : groups_ok true s P (lit p).
Proof. induction p; simpl; auto. Qed.

Ltac split_groups :=
  simpl; repeat match goal with |- _ /\ _ => split end; try exact I; intros.

Lemma re_eq_string_groups : groups_ok true s (quoted_group s) re_eq_string.
Proof. split_groups; eauto using word_token, quoted_token. Qed.

Lemma re_ilike_groups : groups_ok true s (quoted_group s) re_ilike.
Proof. split_groups; eauto using word_token, quoted_token. Qed.

Lemma re_compare_groups op : groups_ok true s (number_group s) (re_compare op).
Proof.
  split_groups; eauto using word_token, groups_ok_lit, numeral_token.
Qed.

Lemma re_between_groups : groups_ok true s (number_group s) re_between.
Proof. split_groups; eauto using word_token, numeral_token. Qed.
End Tokens.

Lemma take_digits_app d r :
  Forall (fun c => is_digit c = true) d ->
  (match r with [] => True | c :: _ => is_digit c = false end) ->
  take_digits (d ++ r) = (d, r).
Proof.
  intros Hd Hr. induction Hd as [|c d Hc _ IH].
  - destruct r as [|c r]; [reflexivity|]. cbn [app take_digits]. now rewrite Hr.
  - cbn [app take_digits]. now rewrite Hc, IH.
Qed.

Lemma take_digits_all d :
  Forall (fun c => is_digit c = true) d -> take_digits d = (d, []).
Proof.
  intros Hd. pose proof (take_digits_app d [] Hd I) as H. now rewrite app_nil_r in H.
Qed.

Lemma parseFloat_numeral w : is_numeral w -> exists q, parseFloat w = JNum q.
Proof.
  intros (d & f & Hne & Hd & Hf & [->|[Hnf ->]]); unfold parseFloat.
  - rewrite take_digits_all by assumption. destruct d; [congruence|]. eauto.
  - rewrite take_digits_app by (assumption || reflexivity).
    rewrite take_digits_all by assumption. destruct d; [congruence|]. eauto.
Qed.


(** ** The calls of [applyWhereClause] *)

Lemma for_each_invoke {A} (mk : A -> call) (xs : list A) : forall q w,
  for_each xs q (fun q m => invoke q (mk m)) w =
  (Ok (q ++ map mk xs), Client (calls w ++ map mk xs) (sent w)).
Proof.
  induction xs as [|x xs IH]; intros q w; simpl.
  - unfold ret. rewrite !app_nil_r. now destruct w.
  - unfold bind, invoke. rewrite IH. simpl. now rewrite <- !app_assoc.
Qed.

Lemma grp_of_group n m w : group n m = Some w -> grp n m = w.
Proof. unfold grp. now intros ->. Qed.

Lemma quoted_calls s re (mk : jsstring -> jsval -> call) :
  groups_ok true s (quoted_group s) re -> defines 1 re = true -> defines 2 re = true ->
  (forall col v, is_column s col -> is_string_of s v -> predicate_call s (mk col v)) ->
  Forall (predicate_call s)
         (map (fun m => mk (grp 1 m) (JStr (grp 2 m))) (matchAll true re s)).
Proof.
  intros Hg H1 H2 Hmk. apply Forall_forall. intros c Hc.
  apply list_elem_of_In, in_map_iff in Hc as (m & <- & Hm).
  apply matchAll_sound in Hm.
  destruct (match_in_group _ _ _ _ _ 1 Hm Hg H1 ltac:(discriminate)) as (w1 & E1 & P1).
  destruct (match_in_group _ _ _ _ _ 2 Hm Hg H2 ltac:(discriminate)) as (w2 & E2 & P2).
  rewrite (grp_of_group _ _ _ E1), (grp_of_group _ _ _ E2).
  apply Hmk; [exact P1|]. exists w2. now split.
Qed.

Lemma number_value s m k re :
  match_in true re s m -> groups_ok true s (number_group s) re ->
  defines (S (S k)) re = true ->
  is_number_of s (parseFloat (grp (S (S k)) m)).
Proof.
  intros Hm Hg Hd.
  destruct (match_in_group _ _ _ _ _ (S (S k)) Hm Hg Hd ltac:(discriminate))
    as (w & E & Hn & Hi).
  rewrite (grp_of_group _ _ _ E). exists w. repeat (split; [assumption || reflexivity|]).
  apply parseFloat_numeral, Hn.
Qed.

Lemma number_calls s op (mk : jsstring -> jsval -> call) :
  (forall col v, is_column s col -> is_number_of s v -> predicate_call s (mk col v)) ->
  Forall (predicate_call s)
         (map (fun m => mk (grp 1 m) (parseFloat (grp 2 m)))
              (matchAll true (re_compare op) s)).
Proof.
  intros Hmk. apply Forall_forall. intros c Hc.
  apply list_elem_of_In, in_map_iff in Hc as (m & <- & Hm).
  apply matchAll_sound in Hm.
  pose proof (re_compare_groups s op) as Hg.
  destruct (match_in_group _ _ _ _ _ 1 Hm Hg eq_refl ltac:(discriminate)) as (w1 & E1 & P1).
  rewrite (grp_of_group _ _ _ E1). apply Hmk; [exact P1|].
  apply (number_value s m 0 (re_compare op) Hm Hg).
  simpl. now rewrite !orb_true_r.
Qed.

Lemma applyWhereClause_calls q sql w :
  exists fs,
    applyWhereClause q sql w = (Ok (q ++ fs), Client (calls w ++ fs) (sent w)) /\
    Forall (predicate_call (where_text sql)) fs.
Proof.
  unfold applyWhereClause, where_text.
  destruct (exec true re_where sql) as [whereMatch|].
  2:{ exists []. split; [|constructor]. unfold ret. rewrite !app_nil_r. now destruct w. }
  set (s := trim (grp 1 whereMatch)).
  unfold bind. rewrite !for_each_invoke. simpl calls. simpl sent.
  destruct (exec true re_between s) as [betweenMatch|] eqn:Eb.
  - unfold invoke at 1 2. simpl. rewrite for_each_invoke. unfold ret. simpl.
    eexists. split.
    + rewrite <- !app_assoc. reflexivity.
    + apply exec_sound in Eb. pose proof (re_between_groups s) as Hg.
      destruct (match_in_group _ _ _ _ _ 1 Eb Hg eq_refl ltac:(discriminate))
        as (w1 & E1 & P1).
      rewrite (grp_of_group _ _ _ E1).
      repeat (apply Forall_app; split);
        try (apply number_calls; intros; simpl; tauto);
        try (apply quoted_calls; try reflexivity;
             [apply re_eq_string_groups || apply re_ilike_groups | intros; simpl; tauto]).
      * constructor; [|constructor]. split; [exact P1|].
        now apply (number_value s betweenMatch 0 re_between).
      * constructor; [|constructor]. split; [exact P1|].
        now apply (number_value s betweenMatch 1 re_between).
  - unfold ret at 1. rewrite for_each_invoke. unfold ret. simpl.
    eexists. split.
    + rewrite <- !app_assoc. reflexivity.
    + repeat (apply Forall_app; split);
        try (apply number_calls; intros; simpl; tauto);
        try (apply quoted_calls; try reflexivity;
             [apply re_eq_string_groups || apply re_ilike_groups | intros; simpl; tauto]).
Qed.

(** ** A logic for the calls of a computation *)

Section CallLogic.
Variable P : call -> Prop.





Lemma logs_weaken {A} (m : M A) (R R' : A -> Prop) :
  logs P m R -> (forall a, R a -> R' a) -> logs P m R'.
Proof.
  intros Hm HR w. destruct (Hm w) as (n & q & E & F & G & H).
  exists n, q. repeat split; auto. destruct (fst (m w)); auto.
Qed.




End CallLogic.

(** ** The one round-trip to the store *)

Lemma extends_refl q : extends q q.
Proof. exists []. now rewrite app_nil_r. Qed.

Lemma extends_app q0 q fs : extends q0 q -> extends q0 (q ++ fs).
Proof. intros [fs0 ->]. exists (fs0 ++ fs). now rewrite app_assoc. Qed.

Lemma builds_ret q (R : query -> Prop) : R q -> builds (ret q) R.
Proof. intros H w. exists q, []. rewrite app_nil_r. now destruct w. Qed.

Lemma builds_invoke q c (R : query -> Prop) : R (q ++ [c]) -> builds (invoke q c) R.
Proof. intros H w. exists (q ++ [c]), [c]. now split. Qed.

Lemma builds_bind m f (R R' : query -> Prop) :
  builds m R -> (forall q, R q -> builds (f q) R') -> builds (bind m f) R'.
Proof.
  intros Hm Hf w. destruct (Hm w) as (q & n1 & E1 & H1).
  destruct (Hf q H1 (Client (calls w ++ n1) (sent w))) as (q' & n2 & E2 & H2).
  exists q', (n1 ++ n2). unfold bind. rewrite E1, E2. simpl.
  now rewrite app_assoc.
Qed.

Lemma applyWhereClause_builds q sql (R : query -> Prop) :
  (forall fs, R (q ++ fs)) -> builds (applyWhereClause q sql) R.
Proof.
  intros H w. destruct (applyWhereClause_calls q sql w) as (fs & E & _).
  exists (q ++ fs), fs. now split.
Qed.

Lemma applyOrderBy_builds q sql (R : query -> Prop) :
  (forall fs, R (q ++ fs)) -> builds (applyOrderBy q sql) R.
Proof.
  intros H. unfold applyOrderBy. destruct (exec true re_order sql).
  - apply builds_invoke, H.
  - apply builds_ret. specialize (H []). now rewrite app_nil_r in H.
Qed.

Lemma applyLimit_builds q sql (R : query -> Prop) :
  (forall fs, R (q ++ fs)) -> builds (applyLimit q sql) R.
Proof.
  intros H. unfold applyLimit. destruct (exec true re_limit sql).
  - apply builds_invoke, H.
  - apply builds_ret. specialize (H []). now rewrite app_nil_r in H.
Qed.

Section RoundTrip.
Variable store : query -> outcome response.

Lemma awaits_bind {A} m (f : query -> M A) (R : query -> Prop) Q post :
  builds m R -> (forall q, R q -> awaits_once store (f q) Q post) ->
  awaits_once store (bind m f) Q post.
Proof.
  intros Hm Hf w. destruct (Hm w) as (q & n1 & E1 & H1).
  destruct (Hf q H1 (Client (calls w ++ n1) (sent w))) as (q' & n2 & E2 & H2).
  exists q', (n1 ++ n2). unfold bind. rewrite E1. simpl in E2.
  rewrite E2, app_assoc. split; [reflexivity | exact H2].
Qed.

Lemma awaits_finish {A} q (k : response -> A) :
  awaits_once store
    (bind (await store q) (fun r => bind (throw_if_error r) (fun _ => ret (k r))))
    (eq q) (fun r a => a = k r).
Proof.
  intros w. exists q, []. unfold bind, await, throw_if_error. simpl.
  destruct (store q) as [r|e]; simpl.
  - destruct (r_error r); simpl; rewrite app_nil_r; eauto.
  - now rewrite app_nil_r.
Qed.

Lemma awaits_weaken {A} (m : M A) (Q Q' : query -> Prop)
    (post post' : response -> A -> Prop) :
  awaits_once store m Q post -> (forall q, Q q -> Q' q) ->
  (forall r a, post r a -> post' r a) ->
  awaits_once store m Q' post'.
Proof.
  intros Hm HQ Hp w. destruct (Hm w) as (q & new & E & Hq & H). exists q, new.
  split; [exact E|]. split; [now apply HQ|].
  destruct (store q) as [r|e]; [|exact H].
  destruct (r_error r); [exact H|]. destruct H as (a & Ea & Ha). eauto.
Qed.
End RoundTrip.

Section Shape.
Variable store : query -> outcome response.
Variable JSON_stringify : row -> jsstring.

Lemma parseAndExecuteSQL_shape sql fromMatch :
  exec true re_from (cleanSQL sql) = Some fromMatch ->
  awaits_once store (parseAndExecuteSQL store JSON_stringify sql)
              (awaited sql (grp 1 fromMatch))
              (fun r a => a = result_of JSON_stringify sql r).
Proof.
  intros Ef. unfold parseAndExecuteSQL, awaited, result_of. rewrite Ef.
  set (stmt := cleanSQL sql). set (t := grp 1 fromMatch).
  assert (Hfrom : builds (supabase_from t) (eq [From t])).
  { now apply builds_invoke. }
  assert (Hwhere : forall q0 q, extends q0 q ->
            builds (applyWhereClause q stmt) (extends q0)).
  { intros q0 q Hq. apply applyWhereClause_builds. intros fs. now apply extends_app. }
  assert (Hend : forall (Q : query -> Prop) q (k : response -> parsed_result), Q q ->
            awaits_once store
              (bind (await store q)
                    (fun r => bind (throw_if_error r) (fun _ => ret (k r))))
              Q (fun r a => a = k r)).
  { intros Q q k Hq. eapply awaits_weaken; [apply awaits_finish| |auto].
    now intros q' <-. }
  eapply awaits_bind; [exact Hfrom|]. intros q0 <-.
  destruct (includes (toUpperCase stmt) (js "COUNT(*)")).
  - set (counting := [From t; Select (js "*") (Some (SelectOpts (js "exact") false))]).
    eapply awaits_bind; [apply (builds_invoke _ _ (eq counting)); reflexivity|].
    intros q1 <-.
    eapply awaits_bind; [apply (Hwhere counting), extends_refl|]. intros q2 H2.
    destruct (includes (toUpperCase stmt) (js "GROUP BY")).
    + destruct (exec true re_select stmt) as [selectMatch|].
      * set (q3 := [From t; Select (trim (grp 1 selectMatch)) None]).
        eapply awaits_bind.
        { eapply builds_bind; [exact Hfrom|]. intros q <-.
          eapply builds_bind; [apply (builds_invoke _ _ (eq q3)); reflexivity|].
          intros q <-.
          eapply builds_bind; [apply (Hwhere q3), extends_refl|].
          intros q Hq. apply builds_ret, Hq. }
        intros q Hq. now apply Hend.
      * eapply awaits_bind; [apply builds_ret, H2|]. intros q Hq. now apply Hend.
    + eapply awaits_bind; [apply builds_ret, H2|]. intros q Hq. now apply Hend.
  - destruct (select_list stmt) as [selectColumns isDistinct]. simpl fst. simpl snd.
    set (q1 := [From t; Select selectColumns None]).
    eapply awaits_bind; [exact Hfrom|]. intros q <-.
    eapply awaits_bind; [apply (builds_invoke _ _ (eq q1)); reflexivity|].
    intros q <-.
    eapply awaits_bind; [apply (Hwhere q1), extends_refl|]. intros q2 H2.
    eapply awaits_bind.
    { apply (applyOrderBy_builds _ _ (extends q1)). intros fs. now apply extends_app. }
    intros q3 H3.
    eapply awaits_bind.
    { apply (applyLimit_builds _ _ (extends q1)). intros fs. now apply extends_app. }
    intros q4 H4. now apply (Hend (extends q1)).
Qed.
End Shape.

(** ** Equality tests *)

Lemma ascii_eqb_eq a b : ascii_eqb a b = true <-> a = b.
Proof.
  unfold ascii_eqb, code. rewrite Nat.eqb_eq. split; [|now intros ->].
  intros H. rewrite <- (ascii_nat_embedding a), <- (ascii_nat_embedding b). now rewrite H.
Qed.

Lemma jsstring_eqb_eq a : forall b, jsstring_eqb a b = true <-> a = b.
Proof.
  induction a as [|x a IH]; intros [|y b]; simpl; try (split; [discriminate|congruence]).
  - tauto.
  - rewrite andb_true_iff, ascii_eqb_eq, IH. split; [intros [-> ->]|intros [= -> ->]]; auto.
Qed.

Lemma jsstring_eqb_neq a b : a <> b -> jsstring_eqb a b = false.
Proof.
  intros H. destruct (jsstring_eqb a b) eqn:E; [|reflexivity].
  now apply jsstring_eqb_eq in E.
Qed.

(** ** What a computation returns *)

Lemma returns_ret {A} (a : A) (R : A -> Prop) : R a -> returns (ret a) R.
Proof. intros H w a' w' [= <- _]. exact H. Qed.

Lemma returns_throw {A} e (R : A -> Prop) : returns (throw e) R.
Proof. intros w a w' [=]. Qed.

Lemma returns_bind {A B} (m : M A) (f : A -> M B) (R : B -> Prop) :
  (forall a, returns (f a) R) -> returns (bind m f) R.
Proof.
  intros Hf w b w'. unfold bind. destruct (m w) as [[a|e] w1]; [apply Hf | intros [=]].
Qed.

(* ================================================================== *)
(** * Failures are structured results *)
(* ================================================================== *)

Section Failures.
Variable store : query -> outcome response.
Variable JSON_stringify : row -> jsstring.
Variable ToString : jsval -> jsstring.

Lemma executeDynamicQuery_unfold sqlQuery w :
  executeDynamicQuery store JSON_stringify sqlQuery w =
  if negb (isSafeQuery sqlQuery)
  then (Ok (failure sqlQuery None (js "Query contains unsafe operations")), w)
  else match sqlQuery with
       | JStr sql =>
           if negb (startsWith (trim (toUpperCase sql)) (js "SELECT"))
           then (Ok (failure sqlQuery None (js "Only SELECT queries are allowed")), w)
           else match parseAndExecuteSQL store JSON_stringify sql w with
                | (Ok result, w') =>
                    (Ok {| success := true;
                           data := Some (default [] (p_data result));
                           count := Some (match p_data result with
                                          | Some ((_ :: _) as d) => length d
                                          | _ => p_count result
                                          end);
                           error := None;
                           query_text := sqlQuery;
                           params_used := None |}, w')
                | (Throw e, w') => (Ok (failure sqlQuery None (message e)), w')
                end
       | _ => (Ok (failure sqlQuery None (js "not a function: toUpperCase")), w)
       end.
Proof.
  unfold executeDynamicQuery, try_catch, failure.
  destruct (negb (isSafeQuery sqlQuery)); [reflexivity|].
  destruct sqlQuery; try reflexivity. unfold bind, lift. simpl.
  destruct (negb (startsWith _ _)); [reflexivity|].
  destruct (parseAndExecuteSQL store JSON_stringify s w) as [[result|e] w']; reflexivity.
Qed.

Lemma isSafeQuery_string v : isSafeQuery v = true -> exists s, v = JStr s.
Proof. destruct v; try discriminate. eauto. Qed.

Lemma failure_well_formed text params msg : well_formed_result (failure text params msg).
Proof. right. simpl. eauto. Qed.

Lemma dynamic_result sqlQuery w :
  exists res,
    fst (executeDynamicQuery store JSON_stringify sqlQuery w) = Ok res /\
    well_formed_result res.
Proof.
  rewrite executeDynamicQuery_unfold.
  destruct (negb (isSafeQuery sqlQuery)); [eauto using failure_well_formed|].
  destruct sqlQuery; eauto using failure_well_formed.
  destruct (negb (startsWith _ _)); [eauto using failure_well_formed|].
  destruct (parseAndExecuteSQL store JSON_stringify s w) as [[result|e] w'];
    [|eauto using failure_well_formed].
  eexists. split; [reflexivity|]. left. simpl. eauto.
Qed.

Lemma branch_returns_rows cleanQuery upperQuery params :
  returns (count_branch store cleanQuery upperQuery params) (fun a => is_Some (p_data a)) /\
  returns (select_branch store cleanQuery upperQuery params) (fun a => is_Some (p_data a)) /\
  returns (distinct_category_branch store ToString) (fun a => is_Some (p_data a)).
Proof.
  split; [|split].
  - unfold count_branch. repeat (apply returns_bind; intros). apply returns_ret. simpl. eauto.
  - unfold select_branch. repeat (apply returns_bind; intros). apply returns_ret. simpl. eauto.
  - unfold distinct_category_branch. repeat (apply returns_bind; intros).
    apply returns_ret. simpl. eauto.
Qed.

Lemma with_result_well_formed text params body w :
  returns body (fun a => is_Some (p_data a)) ->
  exists res, fst (with_result text params body w) = Ok res /\ well_formed_result res /\
              (forall e, fst (body w) = Throw e ->
                         res = failure text (Some params) (message e)).
Proof.
  intros Hb. unfold with_result, try_catch, bind.
  destruct (body w) as [[a|e] w'] eqn:E; simpl.
  - eexists. split; [reflexivity|]. split; [|discriminate].
    left. simpl. pose proof (Hb _ _ _ E). repeat split; eauto.
  - eexists. split; [reflexivity|]. split; [apply failure_well_formed|].
    now intros e' [= <-].
Qed.
End Failures.

(* ================================================================== *)
(** * The scenarios of the specification *)
(* ================================================================== *)

(** C5: the statement of scenario 3 is read as table [items], projection [*],
    the one predicate [price < 50] as a typed [lt] call, and limit 100; that
    chain is the only builder awaited. *)
Theorem scenario3_clauses store JSON_stringify :
  table_of scenario3 = Some (js "items") /\
  select_list (cleanSQL scenario3) = (js "*", false) /\
  where_text (cleanSQL scenario3) = js "price < 50" /\
  limit_of scenario3 = Some (JNum 100) /\
  snd (parseAndExecuteSQL store JSON_stringify scenario3 fresh) =
    Client (From (js "items") :: plan3) [plan3].
Proof.
  repeat split; try (vm_compute; reflexivity).
  vm_compute. destruct (store _) as [[d [e|] c]|]; reflexivity.
Qed.

(* ================================================================== *)
(** * Counting *)
(* ================================================================== *)




Section Counting.
Variable store : query -> outcome response.
Variable JSON_stringify : row -> jsstring.
Variable ToString : jsval -> jsstring.



End Counting.


(* ================================================================== *)
(** * DISTINCT *)
(* ================================================================== *)

Section Distinct.
Variable JSON_stringify : row -> jsstring.

Local Abbreviation J := JSON_stringify.
Local Abbreviation dedup := (distinct_filter JSON_stringify).

Lemma distinct_filter_sublist rows : forall seen, sublist (dedup seen rows) rows.
Proof.
  induction rows as [|r rows IH]; intros seen; simpl; [constructor|].
  destruct (decide (J r ∈ seen)); [apply sublist_cons | apply sublist_skip]; apply IH.
Qed.

Lemma distinct_filter_fresh rows : forall seen r,
  r ∈ dedup seen rows -> J r ∉ seen.
Proof.
  induction rows as [|x rows IH]; intros seen r; simpl; [now intros ?%elem_of_nil|].
  destruct (decide (J x ∈ seen)) as [|Hx]; [apply IH|].
  intros [->|Hr]%elem_of_cons; [exact Hx|].
  apply IH in Hr. set_solver.
Qed.

Lemma distinct_filter_NoDup rows : forall seen, NoDup (map J (dedup seen rows)).
Proof.
  induction rows as [|x rows IH]; intros seen; simpl; [constructor|].
  destruct (decide (J x ∈ seen)) as [|Hx]; [apply IH|].
  simpl. constructor; [|apply IH].
  intros Hin. apply list_elem_of_In, in_map_iff in Hin as (r & E & Hr).
  apply list_elem_of_In, distinct_filter_fresh in Hr. set_solver.
Qed.

Lemma distinct_filter_covers rows : forall seen r,
  r ∈ rows -> J r ∈ seen \/ exists r', r' ∈ dedup seen rows /\ J r' = J r.
Proof.
  induction rows as [|x rows IH]; intros seen r; simpl; [now intros ?%elem_of_nil|].
  intros [->|Hr]%elem_of_cons.
  - destruct (decide (J x ∈ seen)); [now left|].
    right. exists x. split; [apply elem_of_cons; now left | reflexivity].
  - destruct (decide (J x ∈ seen)) as [|Hx]; [now apply IH|].
    destruct (IH ({[J x]} ∪ seen) r Hr) as [Hs|(r' & Hr' & E)].
    + apply elem_of_union in Hs as [Hs|Hs]; [|now left].
      apply elem_of_singleton in Hs. right. exists x.
      split; [apply elem_of_cons; now left | now symmetry].
    + right. exists r'. split; [apply elem_of_cons; now right | exact E].
Qed.

Lemma distinct_filter_snoc pre r : forall seen,
  dedup seen (pre ++ [r]) =
  dedup seen pre ++ (if decide (J r ∈ seen \/ J r ∈ map J pre) then [] else [r]).
Proof.
  induction pre as [|x pre IH]; intros seen; simpl.
  - apply decide_ext. rewrite elem_of_nil. tauto.
  - destruct (decide (J x ∈ seen)) as [Hx|Hx]; rewrite IH; simpl.
    + f_equal. apply decide_ext. rewrite elem_of_cons. split; [tauto|].
      intros [?|[E|?]]; [tauto | left; now rewrite E | tauto].
    + f_equal. f_equal. apply decide_ext.
      rewrite elem_of_cons, elem_of_union, elem_of_singleton. tauto.
Qed.

Lemma distinct_filter_app a b : forall seen,
  dedup seen (a ++ b) = dedup seen a ++ dedup (seen ∪ list_to_set (map J a)) b.
Proof.
  induction a as [|x a IH]; intros seen; simpl.
  - now rewrite (right_id_L ∅ (∪)).
  - destruct (decide (J x ∈ seen)) as [Hx|Hx]; rewrite IH; simpl; clear IH.
    + replace (seen ∪ ({[J x]} ∪ list_to_set (map J a)))
        with (seen ∪ list_to_set (map J a) : gset jsstring)
        by (apply leibniz_equiv; set_solver).
      reflexivity.
    + replace ({[J x]} ∪ seen ∪ list_to_set (map J a))
        with (seen ∪ ({[J x]} ∪ list_to_set (map J a)) : gset jsstring)
        by (apply leibniz_equiv; set_solver).
      reflexivity.
Qed.

(** Row by row: a row is kept exactly when no earlier row has the same
    serialization, and the rows kept stay in their order. *)
Lemma distinct_filter_position pre x post :
  exists kept_post,
    dedup ∅ (pre ++ x :: post) =
      dedup ∅ pre ++ (if decide (J x ∈ map J pre) then [] else [x]) ++ kept_post /\
    sublist kept_post post.
Proof.
  exists (dedup (∅ ∪ list_to_set (map J (pre ++ [x]))) post).
  split; [|apply distinct_filter_sublist].
  replace (pre ++ x :: post) with ((pre ++ [x]) ++ post) by now rewrite <- app_assoc.
  rewrite distinct_filter_app, distinct_filter_snoc, <- app_assoc. do 2 f_equal.
  apply decide_ext. rewrite elem_of_empty. tauto.
Qed.

Lemma NoDup_of_map {A B} (f : A -> B) (l : list A) : NoDup (map f l) -> NoDup l.
Proof.
  induction l as [|x l IH]; simpl; [constructor|].
  rewrite !NoDup_cons. intros [Hx Hl]. split; [|now apply IH].
  intros Hin. apply Hx. apply list_elem_of_In, in_map, list_elem_of_In, Hin.
Qed.

Lemma distinct_filter_exact rows :
  (forall x y, x ∈ rows -> y ∈ rows -> J x = J y -> x = y) ->
  NoDup (dedup ∅ rows) /\ forall x, x ∈ rows <-> x ∈ dedup ∅ rows.
Proof.
  intros Hinj. split; [apply (NoDup_of_map J), distinct_filter_NoDup|].
  intros x. split.
  - intros Hx. destruct (distinct_filter_covers rows ∅ x Hx) as [H|(x' & Hx' & E)];
      [set_solver|].
    assert (x' ∈ rows) by (eapply elem_of_sublist; [exact Hx'|apply distinct_filter_sublist]).
    now rewrite <- (Hinj x' x).
  - intros Hx. eapply elem_of_sublist; [exact Hx|apply distinct_filter_sublist].
Qed.
End Distinct.

Section DistinctStatements.
Variable store : query -> outcome response.
Variable JSON_stringify : row -> jsstring.

(** C7: for a statement with DISTINCT the rows of the response are filtered by
    their serialization: a row stays exactly when no earlier row serializes
    to the same text, the rows that stay keep their order, and where the
    serialization tells rows apart the result has every row once. *)
Theorem distinct_keeps_first_occurrences sql t w :
  table_of sql = Some t ->
  counts_rows sql = false ->
  snd (select_list (cleanSQL sql)) = true ->
  let out := parseAndExecuteSQL store JSON_stringify sql w in
  exists q,
    sent (snd out) = sent w ++ [q] /\
    forall r, store q = Ok r -> r_error r = None ->
      let rows := default [] (r_data r) in
      let kept := distinct_filter JSON_stringify ∅ rows in
      fst out = Ok (ParsedResult (Some kept) (length kept)) /\
      sublist kept rows /\
      NoDup (map JSON_stringify kept) /\
      (forall x, x ∈ rows -> exists x', x' ∈ kept /\ JSON_stringify x' = JSON_stringify x) /\
      (forall pre x post, rows = pre ++ x :: post ->
         exists kept_post,
           kept = distinct_filter JSON_stringify ∅ pre ++
                  (if decide (JSON_stringify x ∈ map JSON_stringify pre) then [] else [x]) ++
                  kept_post /\
           sublist kept_post post) /\
      ((forall x y, x ∈ rows -> y ∈ rows -> JSON_stringify x = JSON_stringify y -> x = y) ->
       NoDup kept /\ forall x, x ∈ rows <-> x ∈ kept).
Proof.
  intros Ht Hc Hd out. unfold table_of in Ht.
  destruct (exec true re_from (cleanSQL sql)) as [fromMatch|] eqn:Ef; [|discriminate].
  destruct (parseAndExecuteSQL_shape store JSON_stringify sql fromMatch Ef w)
    as (q & new & E & _ & H).
  exists q. fold out in E, H. rewrite E. split; [reflexivity|].
  intros r Hr He rows kept. rewrite Hr, He in H. destruct H as (a & Ea & ->).
  unfold result_of in Ea. unfold counts_rows in Hc. rewrite Hc, Hd in Ea.
  assert (Hk : final_rows JSON_stringify true r = kept).
  { unfold final_rows. fold rows. destruct rows; reflexivity. }
  rewrite Hk in Ea. split; [exact Ea|].
  split; [apply distinct_filter_sublist|].
  split; [apply distinct_filter_NoDup|].
  split.
  { intros x Hx. destruct (distinct_filter_covers JSON_stringify rows ∅ x Hx) as [H|H];
      [set_solver | exact H]. }
  split.
  { intros pre x post ->. apply distinct_filter_position. }
  apply distinct_filter_exact.
Qed.
End DistinctStatements.

Lemma distinct_keeps_first_occurrences_witness :
  table_of (js "SELECT DISTINCT category FROM items") = Some (js "items") /\
  exists q,
    sent (snd (parseAndExecuteSQL three_rows_store category_text
                 (js "SELECT DISTINCT category FROM items") fresh)) = [] ++ [q].
Proof.
  split; [vm_compute; reflexivity|].
  destruct (distinct_keeps_first_occurrences three_rows_store category_text
              (js "SELECT DISTINCT category FROM items") (js "items") fresh)
    as (q & Hq & _); [vm_compute; reflexivity ..|].
  exists q. exact Hq.
Defined.

(* ================================================================== *)
(** * The table of a statement *)
(* ================================================================== *)

Lemma names_table_found s : names_table s -> is_Some (exec true re_from s).
Proof.
  intros (pre & f & ws & c & post & -> & Hf & Hne & Hws & Hc).
  destruct ws as [|x ws]; [congruence|].
  eapply exec_complete. unfold re_from. cbn [seqs].
  eapply M_Seq; [apply Matches_lit_intro, Hf|].
  eapply M_Seq; [apply (Matches_plus_chr_intro true CSpace x ws), Hws|].
  eapply M_Seq; [|constructor].
  apply M_Group. apply (Matches_plus_chr_intro true CWord c [] _ post).
  constructor; [exact Hc | constructor].
Qed.

Lemma found_names_table s : is_Some (exec true re_from s) -> names_table s.
Proof.
  intros [m Hm]. apply exec_sound in Hm as (Hi & _ & Hm).
  unfold re_from in Hm. cbn [seqs] in Hm.
  apply Matches_Seq_inv in Hm as (st1 & H1 & Hm).
  apply Matches_lit in H1 as (f & [Rf _] & Hf & _).
  apply Matches_Seq_inv in Hm as (st2 & H2 & Hm).
  apply Matches_plus_chr in H2 as (ws & Hne & [Rws _] & Hws & _).
  apply Matches_Seq_inv in Hm as (st3 & H3 & _).
  apply Matches_Group_inv in H3 as (st4 & H3 & _).
  apply Matches_plus_chr in H3 as (wd & Hnw & [Rw _] & Hw & _).
  destruct wd as [|c wd]; [congruence|].
  exists (rev (before (m_start m))), f, ws, c, (wd ++ rest st4).
  split; [|split; [exact Hf|split; [exact Hne|split; [exact Hws|]]]].
  - rewrite <- Hi. unfold input. now rewrite Rf, Rws, Rw.
  - now inversion Hw.
Qed.

Lemma infix_trans a b c : infix a b -> infix b c -> infix a c.
Proof.
  intros (x & y & ->) (u & v & ->). exists (u ++ x), (y ++ v).
  now rewrite <- !app_assoc.
Qed.

Lemma names_table_infix a s : infix a s -> names_table a -> names_table s.
Proof.
  intros (x & y & ->) (pre & f & ws & c & post & -> & H).
  exists (x ++ pre), f, ws, c, (post ++ y). split; [|exact H].
  now rewrite <- !app_assoc.
Qed.

Lemma trimStart_suffix s : exists a, s = a ++ trimStart s.
Proof.
  induction s as [|c s [a IH]]; simpl; [now exists []|].
  destruct (is_space c); [|now exists []].
  exists (c :: a). simpl. now rewrite <- IH.
Qed.

Lemma trim_infix s : infix (trim s) s.
Proof.
  unfold trim, trimEnd. destruct (trimStart_suffix s) as [a Ha].
  destruct (trimStart_suffix (rev (trimStart s))) as [b Hb].
  exists a, (rev b). rewrite Ha at 1. f_equal.
  rewrite <- rev_app_distr, <- Hb. now rewrite rev_involutive.
Qed.

Lemma replace_first_semicolons_infix s : infix (replace_first false re_semicolons [] s) s.
Proof.
  unfold replace_first. destruct (exec false re_semicolons s) as [m|] eqn:E.
  - apply exec_sound in E as (Hi & _ & Hm).
    unfold re_semicolons in Hm. cbn [seqs] in Hm.
    apply Matches_Seq_inv in Hm as (st1 & _ & Hm).
    apply Matches_Seq_inv in Hm as (st2 & He & Hm).
    apply Matches_Eos_inv in He as [-> He]. apply Matches_Eps_inv in Hm as <-.
    exists [], (rest (m_start m)). rewrite He, <- Hi. simpl. now rewrite app_nil_r.
  - exists [], []. now rewrite app_nil_r.
Qed.

Lemma cleanSQL_infix sql : infix (cleanSQL sql) sql.
Proof.
  unfold cleanSQL. eapply infix_trans; [apply trim_infix|].
  apply replace_first_semicolons_infix.
Qed.

(** C9, as stated, fails: the statement [SELECT 1] names no table and is
    answered with a row, not with a parse error. *)
Lemma select_1_is_answered :
  ~ names_table (js "SELECT 1") /\
  parseAndExecuteSQL three_rows_store (fun _ => []) (js "SELECT 1") fresh =
    (Ok (ParsedResult (Some [[(js "result", JNum 1)]]) 1), fresh).
Proof.
  split; [|vm_compute; reflexivity].
  intros H. apply names_table_found in H. vm_compute in H. destruct H as [m H]. discriminate.
Qed.

Section MissingTable.
Variable store : query -> outcome response.
Variable JSON_stringify : row -> jsstring.

(** C9, amended: a statement in which no table name can be located makes
    [parseAndExecuteSQL] throw its parse error, without a call to the store,
    unless the statement is [SELECT 1] once semicolons at the end are
    dropped and case is ignored, which is answered with the row [{result: 1}];
    [executeDynamicQuery] turns the parse error into a failure result. *)
Theorem missing_table_is_a_parse_error sql w :
  ~ names_table sql ->
  (toUpperCase (cleanSQL sql) <> js "SELECT 1" ->
   parseAndExecuteSQL store JSON_stringify sql w =
     (Throw (Error (js "Could not parse table name from query")), w) /\
   (isSafeQuery (JStr sql) = true ->
    startsWith (trim (toUpperCase sql)) (js "SELECT") = true ->
    executeDynamicQuery store JSON_stringify (JStr sql) w =
      (Ok (failure (JStr sql) None (js "Could not parse table name from query")), w))) /\
  (toUpperCase (cleanSQL sql) = js "SELECT 1" ->
   parseAndExecuteSQL store JSON_stringify sql w =
     (Ok (ParsedResult (Some [[(js "result", JNum 1)]]) 1), w)).
Proof.
  intros Hn.
  assert (Hf : exec true re_from (cleanSQL sql) = None).
  { destruct (exec true re_from (cleanSQL sql)) as [m|] eqn:E; [|reflexivity].
    exfalso. apply Hn. apply (names_table_infix (cleanSQL sql)); [apply cleanSQL_infix|].
    apply found_names_table. eauto. }
  split.
  - intros Hne.
    assert (Hp : parseAndExecuteSQL store JSON_stringify sql w =
                 (Throw (Error (js "Could not parse table name from query")), w)).
    { unfold parseAndExecuteSQL. rewrite Hf. now rewrite (jsstring_eqb_neq _ _ Hne). }
    split; [exact Hp|]. intros Hs Hsel.
    rewrite executeDynamicQuery_unfold, Hs, Hsel, Hp. reflexivity.
  - intros He. unfold parseAndExecuteSQL. rewrite Hf.
    now rewrite (proj2 (jsstring_eqb_eq _ _) He).
Qed.
End MissingTable.

Lemma missing_table_is_a_parse_error_witness :
  ~ names_table (js "SELECT 2") /\
  parseAndExecuteSQL three_rows_store (fun _ => []) (js "SELECT 2") fresh =
    (Throw (Error (js "Could not parse table name from query")), fresh).
Proof.
  assert (Hn : ~ names_table (js "SELECT 2")).
  { intros H. apply names_table_found in H. vm_compute in H. destruct H as [m H].
    discriminate. }
  split; [exact Hn|].
  apply (missing_table_is_a_parse_error three_rows_store (fun _ => []) (js "SELECT 2")
           fresh Hn).
  vm_compute. discriminate.
Defined.

(* ================================================================== *)
(** * The validator fails closed *)
(* ================================================================== *)

(** C10: [isSafeQuery] answers a boolean for every argument; when its body
    throws the answer is [false], and its body throws on every argument that
    is not a string.  The same holds of the copy under [src/services]. *)
Theorem isSafeQuery_fails_closed (v : jsval) :
  (forall e, isSafeQuery_body v = Throw e -> isSafeQuery v = false) /\
  (forall e, Legacy.isSafeQuery_body v = Throw e -> Legacy.isSafeQuery v = false) /\
  ((forall s, v <> JStr s) ->
   (exists e, isSafeQuery_body v = Throw e) /\ isSafeQuery v = false /\
   (exists e, Legacy.isSafeQuery_body v = Throw e) /\ Legacy.isSafeQuery v = false).
Proof.
  split; [|split].
  - intros e H. unfold isSafeQuery. now rewrite H.
  - intros e H. unfold Legacy.isSafeQuery. now rewrite H.
  - intros Hv. destruct v; try (cbn; eauto 10; fail). now destruct (Hv s).
Qed.

(* ================================================================== *)
(** * Keywords inside identifiers *)
(* ================================================================== *)

(** C2, where the code departs from it: the validator under [src/services]
    looks for the keywords as substrings and rejects a statement for its
    column [created_date]; the one under [backend] matches whole words and
    accepts it. *)
Theorem created_date_is_rejected_by_substring_search :
  Legacy.isSafeQuery (JStr created_date_statement) = false /\
  isSafeQuery (JStr created_date_statement) = true /\
  includes (toUpperCase (normalize created_date_statement)) (js "CREATE") = true /\
  test true dangerousPattern (normalize created_date_statement) = false.
Proof. repeat split; vm_compute; reflexivity. Qed.

(* ================================================================== *)
(** * GROUP BY *)
(* ================================================================== *)

(** ** Sorting by insertion *)

Section SortFacts.
Context {A : Type}.
Variable comes_first : A -> A -> bool.

Lemma insert_sorted_perm x l : insert_sorted comes_first x l ≡ₚ x :: l.
Proof.
  induction l as [|y l IH]; simpl; [reflexivity|].
  destruct (comes_first y x); [|reflexivity].
  rewrite IH. apply perm_swap.
Qed.

Lemma stable_sort_perm l : stable_sort comes_first l ≡ₚ l.
Proof.
  induction l as [|x l IH]; simpl; [reflexivity|].
  rewrite insert_sorted_perm. now rewrite IH.
Qed.

Local Abbreviation in_order := (in_order comes_first).

Hypothesis asym : forall x y, comes_first x y = true -> comes_first y x = false.
Hypothesis trans : forall x y z, in_order x y -> in_order y z -> in_order x z.

Lemma insert_sorted_sorted x l :
  StronglySorted in_order l -> StronglySorted in_order (insert_sorted comes_first x l).
Proof using asym trans.
  induction 1 as [|y l Hl IH Hy]; simpl; [repeat constructor|].
  destruct (comes_first y x) eqn:E.
  - constructor; [exact IH|].
    apply Forall_forall. intros z Hz%list_elem_of_In.
    apply list_elem_of_In in Hz. rewrite insert_sorted_perm in Hz.
    apply elem_of_cons in Hz as [->|Hz]; [now apply asym|].
    rewrite Forall_forall in Hy. now apply Hy.
  - constructor; [now constructor|]. constructor; [exact E|].
    eapply Forall_impl; [exact Hy|]. intros z Hz. now apply (trans x y z).
Qed.

Lemma stable_sort_sorted l : StronglySorted in_order (stable_sort comes_first l).
Proof using asym trans.
  induction l as [|x l IH]; simpl; [constructor | now apply insert_sorted_sorted].
Qed.
End SortFacts.

Lemma insert_sorted_map {A B} (g : A -> B) f f' x l :
  (forall a b, f (g a) (g b) = f' a b) ->
  insert_sorted f (g x) (map g l) = map g (insert_sorted f' x l).
Proof.
  intros H. induction l as [|y l IH]; simpl; [reflexivity|].
  rewrite H. destruct (f' y x); simpl; [now rewrite IH | reflexivity].
Qed.

Lemma stable_sort_map {A B} (g : A -> B) f f' l :
  (forall a b, f (g a) (g b) = f' a b) ->
  stable_sort f (map g l) = map g (stable_sort f' l).
Proof.
  intros H. induction l as [|x l IH]; simpl; [reflexivity|].
  rewrite IH. now apply insert_sorted_map.
Qed.

Lemma filter_map_commute {A B} (g : A -> B) (p : B -> bool) l :
  List.filter p (map g l) = map g (List.filter (fun a => p (g a)) l).
Proof.
  induction l as [|x l IH]; simpl; [reflexivity|].
  destruct (p (g x)); simpl; now rewrite IH.
Qed.

Lemma filter_partition_perm {A} (p : A -> bool) l :
  List.filter p l ++ List.filter (fun a => negb (p a)) l ≡ₚ l.
Proof.
  induction l as [|x l IH]; simpl; [reflexivity|].
  destruct (p x); simpl.
  - now rewrite IH.
  - rewrite <- Permutation_middle. now rewrite IH.
Qed.

Lemma object_entries_perm {V} (o : list (jsstring * V)) : object_entries o ≡ₚ o.
Proof.
  unfold object_entries. rewrite stable_sort_perm. apply filter_partition_perm.
Qed.

Lemma object_entries_map {V W} (g : V -> W) (o : list (jsstring * V)) :
  object_entries (map (fun p => (fst p, g (snd p))) o) =
  map (fun p => (fst p, g (snd p))) (object_entries o).
Proof.
  unfold object_entries. rewrite !filter_map_commute, map_app. simpl. f_equal.
  now apply stable_sort_map.
Qed.

(** ** Counting keys *)

Lemma jsstring_eqb_refl a : jsstring_eqb a a = true.
Proof. now apply jsstring_eqb_eq. Qed.

Lemma jsstring_eqb_sym a b : jsstring_eqb a b = jsstring_eqb b a.
Proof.
  destruct (jsstring_eqb a b) eqn:E1, (jsstring_eqb b a) eqn:E2; try reflexivity.
  - apply jsstring_eqb_eq in E1. subst. now rewrite jsstring_eqb_refl in E2.
  - apply jsstring_eqb_eq in E2. subst. now rewrite jsstring_eqb_refl in E1.
Qed.

Lemma counter_bump k k' t :
  counter k (bump k' t) = if jsstring_eqb k' k then S (counter k t) else counter k t.
Proof.
  unfold counter. induction t as [|[k0 n] t IH]; simpl.
  - now destruct (jsstring_eqb k' k).
  - destruct (jsstring_eqb k0 k') eqn:E0; simpl.
    + apply jsstring_eqb_eq in E0. subst k0. now destruct (jsstring_eqb k' k).
    + destruct (jsstring_eqb k0 k) eqn:E1; [|exact IH].
      destruct (jsstring_eqb k' k) eqn:E2; [|reflexivity].
      apply jsstring_eqb_eq in E1, E2. subst. now rewrite jsstring_eqb_refl in E0.
Qed.

Lemma keys_bump k t :
  map fst (bump k t) = map fst t ++ (if existsb (jsstring_eqb k) (map fst t) then [] else [k]).
Proof.
  induction t as [|[k0 n] t IH]; simpl; [reflexivity|].
  rewrite (jsstring_eqb_sym k k0).
  destruct (jsstring_eqb k0 k); simpl; [now rewrite app_nil_r | now rewrite IH].
Qed.

Lemma existsb_eqb_elem k l : existsb (jsstring_eqb k) l = true <-> k ∈ l.
Proof.
  rewrite existsb_exists. split.
  - intros (x & Hx & E). apply jsstring_eqb_eq in E. subst. now apply list_elem_of_In.
  - intros H. exists k. split; [now apply list_elem_of_In | apply jsstring_eqb_refl].
Qed.

Lemma bump_NoDup k t : NoDup (map fst t) -> NoDup (map fst (bump k t)).
Proof.
  intros H. rewrite keys_bump. destruct (existsb _ _) eqn:E; [now rewrite app_nil_r|].
  apply NoDup_app. split; [exact H|]. split; [|apply NoDup_singleton].
  intros x Hx ->%list_elem_of_singleton.
  apply existsb_eqb_elem in Hx. congruence.
Qed.

Lemma tally_from_spec keys : forall t,
  NoDup (map fst t) ->
  let t' := fold_left (fun t k => bump k t) keys t in
  NoDup (map fst t') /\
  (forall k, counter k t' = counter k t + occurrences k keys) /\
  (forall k, k ∈ map fst t' <-> k ∈ map fst t \/ k ∈ keys).
Proof.
  induction keys as [|k0 keys IH]; intros t Ht; simpl.
  - split; [exact Ht|]. split; [intros; unfold occurrences; simpl; lia|].
    intros k. rewrite elem_of_nil. tauto.
  - destruct (IH (bump k0 t) (bump_NoDup k0 t Ht)) as (H1 & H2 & H3).
    split; [exact H1|]. split.
    + intros k. rewrite H2, counter_bump. unfold occurrences. simpl.
      rewrite (jsstring_eqb_sym k k0). destruct (jsstring_eqb k0 k); simpl; lia.
    + intros k. rewrite H3, keys_bump, elem_of_app, elem_of_cons.
      destruct (existsb _ _) eqn:E.
      * apply existsb_eqb_elem in E. rewrite elem_of_nil.
        split; [tauto|]. intros [?|[->|?]]; tauto.
      * rewrite list_elem_of_singleton. tauto.
Qed.

Lemma counter_In k n t :
  NoDup (map fst t) -> In (k, n) t -> counter k t = n.
Proof.
  unfold counter. induction t as [|[k0 n0] t IH]; simpl; [tauto|].
  rewrite NoDup_cons. intros [Hk Ht] [E|Hin].
  - injection E as -> ->. now rewrite jsstring_eqb_refl.
  - destruct (jsstring_eqb k0 k) eqn:E; [|now apply IH].
    apply jsstring_eqb_eq in E. subst k0. exfalso. apply Hk.
    apply list_elem_of_In, in_map_iff. now exists (k, n).
Qed.

Lemma occurrences_pos keys k : k ∈ keys -> 0 < occurrences k keys.
Proof.
  intros Hk. unfold occurrences. apply list_elem_of_In in Hk.
  induction keys as [|x keys IH]; simpl in *; [tauto|].
  destruct (jsstring_eqb k x) eqn:E; simpl; [lia|].
  destruct Hk as [->|Hk]; [now rewrite jsstring_eqb_refl in E | now apply IH].
Qed.

(** What [tally] holds: every key once, with the number of its occurrences. *)
Lemma tally_spec keys :
  NoDup (map fst (tally keys)) /\
  (forall k n, In (k, n) (tally keys) -> n = occurrences k keys /\ 0 < n) /\
  (forall k, k ∈ keys -> In (k, occurrences k keys) (tally keys)).
Proof.
  destruct (tally_from_spec keys [] (NoDup_nil_2 (A:=jsstring))) as (H1 & H2 & H3).
  fold (tally keys) in H1, H2, H3. split; [exact H1|].
  pose proof (occurrences_pos keys) as Hpos.
  split.
  - intros k n Hin. pose proof (counter_In k n _ H1 Hin) as Hc.
    rewrite H2 in Hc. simpl in Hc. split; [now symmetry|]. subst n.
    apply Hpos. assert (Hk : k ∈ map fst (tally keys)).
    { apply list_elem_of_In, in_map_iff. now exists (k, occurrences k keys). }
    apply H3 in Hk as [Hk|Hk]; [now apply elem_of_nil in Hk | exact Hk].
  - intros k Hk. assert (Hm : k ∈ map fst (tally keys)) by (apply H3; now right).
    apply list_elem_of_In, in_map_iff in Hm as ([k' n] & E & Hin). simpl in E. subst k'.
    pose proof (counter_In k n _ H1 Hin) as Hc. rewrite H2 in Hc. simpl in Hc.
    now subst n.
Qed.

(** ** The counters of the legacy copy *)

Lemma or_zero_plus_one_counter n :
  or_zero_plus_one (JNum (inject_Z (Z.of_nat n))) = JNum (inject_Z (Z.of_nat (S n))).
Proof.
  unfold or_zero_plus_one. destruct (Qeq_bool _ 0) eqn:E.
  - apply Qeq_bool_iff in E. unfold Qeq, inject_Z in E. simpl in E.
    destruct n; [reflexivity | lia].
  - f_equal. rewrite Nat2Z.inj_succ.
    replace (inject_Z (Z.of_nat n) + 1)%Q with (inject_Z (Z.succ (Z.of_nat n))).
    + apply Qred_identity. simpl. apply Z.gcd_1_r.
    + unfold Qplus, inject_Z. simpl. f_equal. lia.
Qed.

Lemma inherited_proto k : inherited k = false -> jsstring_eqb k (js "__proto__") = false.
Proof.
  unfold inherited, object_prototype_names. cbn [existsb].
  intros H. apply orb_false_iff in H as [_ H]. now apply orb_false_iff in H as [H _].
Qed.

Section Counters.
Variable ToString : jsval -> jsstring.
Variable inherited_text : jsstring -> jsstring.

Lemma count_step k t :
  inherited k = false ->
  write_counter (map counter_entry t) k
    (or_zero_plus_one (read_counter inherited_text (map counter_entry t) k)) =
  map counter_entry (bump k t).
Proof.
  intros Hk. unfold read_counter.
  induction t as [|[k0 n] t IH]; cbn [map List.find counter_entry fst snd bump].
  - rewrite Hk. cbn [or_zero_plus_one write_counter]. now rewrite (inherited_proto k Hk).
  - destruct (jsstring_eqb k0 k) eqn:E; cbn [map counter_entry fst snd write_counter]; rewrite E.
    + now rewrite or_zero_plus_one_counter.
    + now rewrite IH.
Qed.

Lemma count_categories_tally data :
  Forall (fun k => inherited k = false) (category_keys ToString data) ->
  count_categories ToString inherited_text data =
  map counter_entry (tally (category_keys ToString data)).
Proof.
  unfold count_categories, tally. change [] with (map counter_entry []) at 1.
  generalize (@nil (jsstring * nat)).
  induction data as [|item data IH]; intros t H; simpl; [reflexivity|].
  apply Forall_cons in H as [H1 H2]. rewrite count_step by exact H1. now apply IH.
Qed.
End Counters.

Lemma count_gt_counter a b :
  count_gt (snd (counter_entry b)) (snd (counter_entry a)) = (snd a <? snd b).
Proof.
  unfold count_gt, counter_entry. simpl.
  destruct (Qle_bool _ _) eqn:E; simpl; symmetry.
  - apply Qle_bool_iff in E. rewrite <- Zle_Qle in E. apply Nat.ltb_ge. lia.
  - apply Nat.ltb_lt. destruct (Nat.ltb_spec (snd a) (snd b)) as [H|H]; [exact H|].
    assert (Hq : Qle_bool (inject_Z (Z.of_nat (snd b))) (inject_Z (Z.of_nat (snd a))) = true).
    { apply Qle_bool_iff. rewrite <- Zle_Qle. lia. }
    congruence.
Qed.

Lemma groups_of_perm keys : groups_of keys ≡ₚ tally keys.
Proof. unfold groups_of. rewrite stable_sort_perm. apply object_entries_perm. Qed.

Lemma groups_of_sorted keys :
  StronglySorted (fun x y => snd y <= snd x) (groups_of keys).
Proof.
  unfold groups_of.
  pose proof (stable_sort_sorted (fun b a : jsstring * nat => snd a <? snd b)) as H.
  assert (Hs : StronglySorted (in_order (fun b a : jsstring * nat => snd a <? snd b))
                 (stable_sort (fun b a => snd a <? snd b) (object_entries (tally keys)))).
  { apply H.
    - intros x y Hxy. apply Nat.ltb_lt in Hxy. apply Nat.ltb_ge. lia.
    - unfold in_order. intros x y z Hxy Hyz. apply Nat.ltb_ge in Hxy, Hyz.
      apply Nat.ltb_ge. lia. }
  clear H. induction Hs as [|x l Hl IH Hx]; constructor; [exact IH|].
  eapply Forall_impl; [exact Hx|]. unfold in_order. intros y Hy.
  now apply Nat.ltb_ge in Hy.
Qed.

Lemma groups_of_spec keys :
  NoDup (map fst (groups_of keys)) /\
  forall k n, (k, n) ∈ groups_of keys <-> k ∈ keys /\ n = occurrences k keys.
Proof.
  destruct (tally_spec keys) as (H1 & H2 & H3). split.
  - assert (P : map fst (groups_of keys) ≡ₚ map fst (tally keys)).
    { apply Permutation_map, groups_of_perm. }
    now rewrite P.
  - intros k n. rewrite (groups_of_perm keys). split.
    + intros Hin%list_elem_of_In. destruct (H2 k n Hin) as [-> Hpos]. split; [|reflexivity].
      destruct (decide (k ∈ keys)) as [Hk|Hk]; [exact Hk|]. exfalso.
      unfold occurrences in Hpos.
      assert (E : List.filter (jsstring_eqb k) keys = []).
      { clear -Hk. induction keys as [|x keys IH]; simpl; [reflexivity|].
        rewrite not_elem_of_cons in Hk. destruct Hk as [Hx Hk].
        rewrite (jsstring_eqb_neq k x Hx). now apply IH. }
      rewrite E in Hpos. simpl in Hpos. lia.
    + intros [Hk ->]. apply list_elem_of_In. now apply H3.
Qed.

Lemma groups_of_counters keys :
  stable_sort (fun b a => count_gt (snd b) (snd a))
    (object_entries (map counter_entry (tally keys))) =
  map counter_entry (groups_of keys).
Proof.
  unfold groups_of.
  change (map counter_entry (tally keys))
    with (map (fun p : jsstring * nat => (fst p, JNum (inject_Z (Z.of_nat (snd p))))) (tally keys)).
  rewrite (object_entries_map (fun n => JNum (inject_Z (Z.of_nat n)))).
  apply (stable_sort_map counter_entry). intros a b. apply count_gt_counter.
Qed.

(** C8, as stated, fails for the translator of the backend: the rows of the
    response come back one for one, the same category twice and no count. *)
Lemma group_by_rows_are_not_grouped :
  isSafeQuery (JStr grouped_rows) = true /\
  includes (toUpperCase (cleanSQL grouped_rows)) (js "GROUP BY") = true /\
  fst (executeDynamicQuery three_rows_store (fun _ => []) (JStr grouped_rows) fresh) =
    Ok {| success := true; data := Some three_rows; count := Some 3; error := None;
          query_text := JStr grouped_rows; params_used := None |} /\
  three_rows <> map group_row (groups_of (map category_text three_rows)).
Proof.
  repeat split; try (vm_compute; reflexivity). vm_compute. discriminate.
Qed.

Section GroupBy.
Variable store : query -> outcome response.
Variable JSON_stringify : row -> jsstring.
Variable ToString : jsval -> jsstring.
Variable inherited_text : jsstring -> jsstring.

(** C8, amended: the translator of the backend does not group. [applyGroupBy]
    hands its builder back untouched, and for a statement with GROUP BY the
    rows returned are rows of the response, in its order. The copy under
    [src/services] groups by category alone: for a statement with GROUP BY and
    CATEGORY it fetches the categories that are not null and, when none of
    them is a name of [Object.prototype], returns one row
    [{category, count}] for each distinct category with the number of rows
    that carry it, sorted by count descending. *)
Theorem group_by_statements :
  (forall q sql w, applyGroupBy q sql w = (Ok q, w)) /\
  (forall sql t w,
     table_of sql = Some t ->
     includes (toUpperCase (cleanSQL sql)) (js "GROUP BY") = true ->
     let out := parseAndExecuteSQL store JSON_stringify sql w in
     exists q,
       sent (snd out) = sent w ++ [q] /\
       forall r, store q = Ok r -> r_error r = None ->
         exists a, fst out = Ok a /\
           sublist (default [] (p_data a)) (default [] (r_data r))) /\
  (forall s params w r rows,
     Legacy.isSafeQuery (JStr s) = true ->
     let upperQuery := toUpperCase (normalize s) in
     includes upperQuery (js "SELECT") = true ->
     includes upperQuery (js "FROM ITEMS") = true ->
     includes upperQuery (js "GROUP BY") = true ->
     includes upperQuery (js "CATEGORY") = true ->
     store categories_query = Ok r -> r_error r = None -> r_data r = Some rows ->
     let keys := category_keys ToString rows in
     Forall (fun k => inherited k = false) keys ->
     let out := Legacy_executeQuery store ToString inherited_text (JStr s) params w in
     exists groups,
       fst out = Ok {| success := true;
                       data := Some (map group_row groups);
                       count := Some (length groups);
                       error := None;
                       query_text := JStr s;
                       params_used := Some params |} /\
       sent (snd out) = sent w ++ [categories_query] /\
       NoDup (map fst groups) /\
       (forall k n, (k, n) ∈ groups <-> k ∈ keys /\ n = occurrences k keys) /\
       StronglySorted (fun x y => snd y <= snd x) groups).
Proof.
  split; [reflexivity|]. split.
  - intros sql t w Ht Hg out. unfold table_of in Ht.
    destruct (exec true re_from (cleanSQL sql)) as [fromMatch|] eqn:Ef; [|discriminate].
    destruct (parseAndExecuteSQL_shape store JSON_stringify sql fromMatch Ef w)
      as (q & new & E & _ & H).
    exists q. fold out in E, H. rewrite E. split; [reflexivity|].
    intros r Hr He. rewrite Hr, He in H. destruct H as (a & Ea & ->).
    eexists. split; [exact Ea|]. unfold result_of. rewrite Hg.
    destruct (includes _ (js "COUNT(*)")); cbn [p_data].
    + destruct (r_data r); reflexivity.
    + cbn [default]. unfold final_rows.
      destruct (_ && _); [apply distinct_filter_sublist | reflexivity].
  - intros s params w r rows Hsafe upperQuery H1 H2 H3 H4 Hs He Hd keys Hk out.
    exists (groups_of keys).
    destruct (groups_of_spec keys) as [Hn Hm].
    split; [|split; [|split; [exact Hn | split; [exact Hm | apply groups_of_sorted]]]].
    + subst out. unfold Legacy_executeQuery, with_result, try_catch, bind.
      rewrite Hsafe. cbn [negb lift as_string]. fold upperQuery.
      rewrite H1, H2, H3, H4. rewrite andb_false_r. cbn [andb].
      unfold group_by_category_branch, fetch_categories, bind, invoke, await.
      cbn [app]. fold categories_query. rewrite Hs. unfold throw_if_error. rewrite He.
      unfold ret. rewrite Hd. cbn [fst p_data p_count].
      rewrite (count_categories_tally ToString inherited_text rows Hk).
      fold keys. rewrite groups_of_counters, !map_map, length_map.
      repeat f_equal.
    + subst out. unfold Legacy_executeQuery, with_result, try_catch, bind.
      rewrite Hsafe. cbn [negb lift as_string]. fold upperQuery.
      rewrite H1, H2, H3, H4. rewrite andb_false_r. cbn [andb].
      unfold group_by_category_branch, fetch_categories, bind, invoke, await.
      cbn [app]. fold categories_query. rewrite Hs. unfold throw_if_error. rewrite He.
      unfold ret. rewrite Hd. reflexivity.
Qed.
End GroupBy.

Lemma group_by_statements_witness :
  table_of grouped_rows = Some (js "items") /\
  Legacy.isSafeQuery (JStr legacy_grouped) = true /\
  exists groups,
    fst (Legacy_executeQuery three_rows_store (fun v => match v with JStr s => s | _ => [] end)
           (fun k => k) (JStr legacy_grouped) [] fresh) =
      Ok {| success := true;
            data := Some (map group_row groups);
            count := Some (length groups);
            error := None;
            query_text := JStr legacy_grouped;
            params_used := Some [] |} /\
    (exists q, sent (snd (parseAndExecuteSQL three_rows_store (fun _ => []) grouped_rows fresh))
               = [] ++ [q]).
Proof.
  split; [vm_compute; reflexivity|]. split; [vm_compute; reflexivity|].
  pose proof (group_by_statements three_rows_store (fun _ => [])
                (fun v => match v with JStr s => s | _ => [] end) (fun k => k))
    as (_ & Hb & Hl).
  destruct (Hl legacy_grouped [] fresh (Response (Some three_rows) None None) three_rows)
    as (groups & Hg & _); [vm_compute; reflexivity ..| |].
  { vm_compute. repeat constructor. }
  exists groups. split; [exact Hg|].
  destruct (Hb grouped_rows (js "items") fresh) as (q & Hq & _); [vm_compute; reflexivity ..|].
  exists q. exact Hq.
Defined.

(* ================================================================== *)
(** * The fixed queries: what reaches the store *)
(* ================================================================== *)

Lemma client_eta w : Client (calls w) (sent w) = w.
Proof. now destruct w. Qed.

Lemma bind_ok {A B} (m : M A) (f : A -> M B) w a w' :
  m w = (Ok a, w') -> bind m f w = f a w'.
Proof. intros H. unfold bind. now rewrite H. Qed.

Lemma bind_throw {A B} (m : M A) (f : A -> M B) w e w' :
  m w = (Throw e, w') -> bind m f w = (Throw e, w').
Proof. intros H. unfold bind. now rewrite H. Qed.

Lemma appends_ret : appends (fun q => ret q) [].
Proof. intros q w. unfold ret. now rewrite !app_nil_r, client_eta. Qed.

Lemma appends_invoke c : appends (fun q => invoke q c) [c].
Proof. intros q w. reflexivity. Qed.

Lemma appends_bind m1 m2 f1 f2 :
  appends m1 f1 -> appends m2 f2 -> appends (fun q => bind (m1 q) m2) (f1 ++ f2).
Proof.
  intros H1 H2 q w. unfold bind. rewrite H1, H2. cbn [calls sent].
  now rewrite !app_assoc.
Qed.

Lemma appends_when b m f :
  appends m f -> appends (fun q => when b q m) (if b then f else []).
Proof. intros H. destruct b; [exact H | apply appends_ret]. Qed.

Lemma appends_with_param cleanQuery params op :
  appends (fun q => with_param cleanQuery params q op) (param_calls cleanQuery params op).
Proof.
  unfold with_param, param_calls. destruct (param_index cleanQuery params).
  - apply appends_invoke.
  - apply appends_ret.
Qed.

Lemma appends_if (b : bool) m1 m2 f1 f2 :
  appends m1 f1 -> appends m2 f2 ->
  appends (fun q => if b then m1 q else m2 q) (if b then f1 else f2).
Proof. now destruct b. Qed.

Section Exact.
Variable store : query -> outcome response.
Variable ToString : jsval -> jsstring.

Lemma await_answer {A} (q : query) (f : response -> A) w :
  bind (await store q) (fun r => bind (throw_if_error r) (fun _ => ret (f r))) w =
  (answer store q f, Client (calls w) (sent w ++ [q])).
Proof.
  unfold bind, await, answer, throw_if_error. destruct (store q) as [r|e]; [|reflexivity].
  destruct (r_error r); reflexivity.
Qed.

Lemma count_branch_exact cleanQuery upperQuery params w :
  let q := [From (js "items"); Select (js "*") (Some (SelectOpts (js "exact") true))]
           ++ count_calls cleanQuery upperQuery params in
  count_branch store cleanQuery upperQuery params w =
    (answer store q total_of, Client (calls w ++ q) (sent w ++ [q])).
Proof.
  intros q. unfold count_branch.
  assert (H : appends
            (fun countQuery =>
               when (includes upperQuery (js "WHERE")) countQuery (fun countQuery =>
                 let whereClause :=
                   substring_from (from_option (fun i => i + 5) 4
                                     (indexOf (toUpperCase cleanQuery) (js "WHERE")))
                                  cleanQuery in
                 bind (when (includes whereClause (js "CATEGORY =")) countQuery (fun q =>
                         with_param cleanQuery params q (Eq (js "category"))))
                      (fun countQuery =>
                         when (includes whereClause (js "IS_ACTIVE =")) countQuery (fun q =>
                           with_param cleanQuery params q (Eq (js "is_active"))))))
            (count_calls cleanQuery upperQuery params)).
  { unfold count_calls. apply appends_when. cbv zeta.
    apply (appends_bind
             (fun q => when _ q (fun q => with_param cleanQuery params q (Eq (js "category"))))
             (fun q => when _ q (fun q => with_param cleanQuery params q (Eq (js "is_active"))))).
    - apply appends_when, appends_with_param.
    - apply appends_when, appends_with_param. }
  erewrite bind_ok; [|reflexivity]. erewrite bind_ok; [|reflexivity].
  erewrite bind_ok; [|exact (H _ _)].
  rewrite await_answer. cbn [app calls sent]. subst q. now rewrite <- !app_assoc.
Qed.

Lemma select_branch_exact cleanQuery upperQuery params w :
  let q := [From (js "items"); Select (js "*") None]
           ++ select_calls cleanQuery upperQuery params in
  select_branch store cleanQuery upperQuery params w =
    (answer store q rows_of, Client (calls w ++ q) (sent w ++ [q])).
Proof.
  intros q. unfold select_branch.
  set (P := fun op => fun q : query => with_param cleanQuery params q op).
  assert (Hw : appends
            (fun q => when (includes upperQuery (js "WHERE")) q (fun q =>
               bind (when (includes upperQuery (js "CATEGORY =")) q (P (Eq (js "category"))))
              (fun q =>
               bind (when (includes upperQuery (js "PRICE >=")) q (P (Gte (js "price"))))
              (fun q =>
               bind (when (includes upperQuery (js "PRICE <=")) q (P (Lte (js "price"))))
              (fun q =>
               bind (when (includes upperQuery (js "RATING >=")) q (P (Gte (js "rating"))))
              (fun q =>
               bind (when (includes upperQuery (js "NAME ILIKE")) q (P (Ilike (js "name"))))
              (fun q =>
               when (includes upperQuery (js "IS_ACTIVE = TRUE")) q (fun q =>
                 invoke q (Eq (js "is_active") (JBool true))))))))))
            (if includes upperQuery (js "WHERE") then
               (if includes upperQuery (js "CATEGORY =")
                then param_calls cleanQuery params (Eq (js "category")) else []) ++
               (if includes upperQuery (js "PRICE >=")
                then param_calls cleanQuery params (Gte (js "price")) else []) ++
               (if includes upperQuery (js "PRICE <=")
                then param_calls cleanQuery params (Lte (js "price")) else []) ++
               (if includes upperQuery (js "RATING >=")
                then param_calls cleanQuery params (Gte (js "rating")) else []) ++
               (if includes upperQuery (js "NAME ILIKE")
                then param_calls cleanQuery params (Ilike (js "name")) else []) ++
               (if includes upperQuery (js "IS_ACTIVE = TRUE")
                then [Eq (js "is_active") (JBool true)] else [])
             else [])).
  { apply appends_when.
    repeat (apply (appends_bind (fun q => when _ q _));
            [apply appends_when, appends_with_param|]).
    apply appends_when, appends_invoke. }
  assert (Ho : appends
            (fun q => when (includes upperQuery (js "ORDER BY")) q (fun q =>
               if includes upperQuery (js "PRICE ASC") then invoke q (Order (js "price") true)
               else if includes upperQuery (js "PRICE DESC")
                    then invoke q (Order (js "price") false)
               else if includes upperQuery (js "RATING DESC")
                    then invoke q (Order (js "rating") false)
               else if includes upperQuery (js "CREATED_DATE DESC")
                    then invoke q (Order (js "created_date") false)
               else if includes upperQuery (js "CREATED_DATE ASC")
                    then invoke q (Order (js "created_date") true)
               else if includes upperQuery (js "NAME ASC") then invoke q (Order (js "name") true)
               else ret q))
            (if includes upperQuery (js "ORDER BY") then order_calls upperQuery else [])).
  { apply appends_when. unfold order_calls.
    repeat (apply appends_if; [apply appends_invoke|]). apply appends_ret. }
  assert (Hl : appends
            (fun q => when (includes upperQuery (js "LIMIT")) q (fun q =>
               with_param cleanQuery params q Limit))
            (if includes upperQuery (js "LIMIT")
             then param_calls cleanQuery params Limit else [])).
  { apply appends_when, appends_with_param. }
  erewrite bind_ok; [|reflexivity]. erewrite bind_ok; [|reflexivity].
  erewrite bind_ok; [|exact (Hw _ _)]. erewrite bind_ok; [|exact (Ho _ _)].
  erewrite bind_ok; [|exact (Hl _ _)].
  rewrite await_answer. cbn [app calls sent]. subst q. unfold select_calls.
  now rewrite <- !app_assoc.
Qed.
End Exact.

Section ExactQueries.
Variable store : query -> outcome response.
Variable ToString : jsval -> jsstring.
Variable inherited_text : jsstring -> jsstring.

Lemma with_result_exact text params body w o w' :
  body w = (o, w') -> with_result text params body w = (Ok (settled text params o), w').
Proof.
  intros H. unfold with_result, try_catch, bind. rewrite H. now destruct o.
Qed.

Lemma executeQuery_unsafe v params w :
  isSafeQuery v = false ->
  executeQuery store ToString v params w =
    (Ok (failure v (Some params) (js "Query contains unsafe operations")), w).
Proof.
  intros H. unfold executeQuery. rewrite H.
  now rewrite (with_result_exact _ _ _ w (Throw (Error (js "Query contains unsafe operations"))) w).
Qed.

Lemma Legacy_executeQuery_unsafe v params w :
  Legacy.isSafeQuery v = false ->
  Legacy_executeQuery store ToString inherited_text v params w =
    (Ok (failure v (Some params) (js "Query contains unsafe operations")), w).
Proof.
  intros H. unfold Legacy_executeQuery. rewrite H.
  now rewrite (with_result_exact _ _ _ w (Throw (Error (js "Query contains unsafe operations"))) w).
Qed.

Lemma executeQuery_items s params w :
  isSafeQuery (JStr s) = true -> on_items s = true ->
  let q := items_builder s params in
  executeQuery store ToString (JStr s) params w =
    (Ok (settled (JStr s) params (answer store q (items_result s))),
     Client (calls w ++ q) (sent w ++ [q])).
Proof.
  intros Hs Hi q. unfold executeQuery. rewrite Hs. cbn [negb].
  apply with_result_exact. unfold lift, as_string. erewrite bind_ok; [|reflexivity].
  cbv zeta. unfold on_items in Hi. rewrite Hi.
  subst q. unfold items_builder, items_result.
  destruct (includes _ (js "COUNT(*)")).
  - apply count_branch_exact.
  - apply select_branch_exact.
Qed.

(** The same for the older copy, whose statements with GROUP BY go another
    way. *)
Lemma Legacy_executeQuery_items s params w :
  Legacy.isSafeQuery (JStr s) = true -> on_items s = true ->
  includes (toUpperCase (normalize s)) (js "GROUP BY") = false ->
  let q := items_builder s params in
  Legacy_executeQuery store ToString inherited_text (JStr s) params w =
    (Ok (settled (JStr s) params (answer store q (items_result s))),
     Client (calls w ++ q) (sent w ++ [q])).
Proof.
  intros Hs Hi Hg q. unfold Legacy_executeQuery. rewrite Hs. cbn [negb].
  apply with_result_exact. unfold lift, as_string. erewrite bind_ok; [|reflexivity].
  cbv zeta. unfold on_items in Hi. rewrite Hi, Hg. cbn [negb andb].
  subst q. unfold items_builder, items_result.
  destruct (includes _ (js "COUNT(*)")); cbn [andb].
  - apply count_branch_exact.
  - apply select_branch_exact.
Qed.
End ExactQueries.

(** Runs a statement on [items] whose text is known. *)
Ltac run_items result :=
  rewrite executeQuery_items by (vm_compute; reflexivity);
  match goal with
  | |- context [items_builder ?t ?p] =>
      let q := eval vm_compute in (items_builder t p) in
      replace (items_builder t p) with q by (vm_compute; reflexivity)
  end;
  match goal with
  | |- context [items_result ?t] =>
      replace (items_result t) with result by (vm_compute; reflexivity)
  end;
  reflexivity.

Section HelperQueries.
Variable store : query -> outcome response.
Variable ToString : jsval -> jsstring.

(** [getItemsByPriceRange]: both bounds sent to the store are the lower
    bound, and so is the limit: every placeholder is given the parameter of
    [$1], so that neither [maxPrice] nor the option [limit] reaches the
    store. *)
Theorem price_range_sends_the_lower_bound_only minPrice maxPrice options w :
  let q := [From (js "items"); Select (js "*") None;
            Gte (js "price") minPrice; Lte (js "price") minPrice]
           ++ active_calls options
           ++ [Order (js "price") true; Limit minPrice] in
  let p := price_range_query minPrice maxPrice options in
  getItemsByPriceRange store ToString minPrice maxPrice options w =
    (Ok (settled (JStr (fst p)) (snd p) (answer store q rows_of)),
     Client (calls w ++ q) (sent w ++ [q])).
Proof.
  intros q p. unfold getItemsByPriceRange, run_query. fold p.
  subst p q. unfold price_range_query, with_limit, active_only, active_calls, includes_inactive.
  destruct (truthy _); cbn [negb fst snd].
  - run_items rows_of.
  - run_items rows_of.
Qed.

(** [getItemsByCategory], with the sort options left to their defaults: the
    call that limits the rows is given the category, the parameter of [$1],
    and the option [limit] does not reach the store. *)
Theorem category_limit_is_the_category category options w :
  prop (js "sortBy") options = JUndefined ->
  prop (js "sortOrder") options = JUndefined ->
  let q := [From (js "items"); Select (js "*") None; Eq (js "category") category]
           ++ active_calls options
           ++ [Order (js "name") true; Limit category] in
  let p := category_query ToString category options in
  getItemsByCategory store ToString category options w =
    (Ok (settled (JStr (fst p)) (snd p) (answer store q rows_of)),
     Client (calls w ++ q) (sent w ++ [q])).
Proof.
  intros H1 H2 q p. unfold getItemsByCategory, run_query. fold p.
  subst p q. unfold category_query, with_limit, active_only, active_calls, includes_inactive.
  rewrite H1, H2. cbn [or_default truthy template length Nat.eqb negb andb].
  destruct (truthy _); cbn [negb fst snd].
  - run_items rows_of.
  - run_items rows_of.
Qed.

(** [getItemsByRating] and [searchItemsByName]: the one parameter of the
    statement is sent as the threshold or the pattern and again as the limit;
    the option [limit] does not reach the store. *)
Theorem rating_and_search_limits minRating searchTerm options w :
  (let q := [From (js "items"); Select (js "*") None; Gte (js "rating") minRating]
            ++ active_calls options
            ++ [Order (js "rating") false; Limit minRating] in
   let p := rating_query minRating options in
   getItemsByRating store ToString minRating options w =
     (Ok (settled (JStr (fst p)) (snd p) (answer store q rows_of)),
      Client (calls w ++ q) (sent w ++ [q]))) /\
  (let pattern := JStr (js "%" ++ template ToString searchTerm ++ js "%") in
   let q := [From (js "items"); Select (js "*") None; Ilike (js "name") pattern]
            ++ active_calls options
            ++ [Order (js "name") true; Limit pattern] in
   let p := search_query ToString searchTerm options in
   searchItemsByName store ToString searchTerm options w =
     (Ok (settled (JStr (fst p)) (snd p) (answer store q rows_of)),
      Client (calls w ++ q) (sent w ++ [q]))).
Proof.
  split.
  - intros q p. unfold getItemsByRating, run_query. fold p.
    subst p q. unfold rating_query, with_limit, active_only, active_calls, includes_inactive.
    destruct (truthy _); cbn [negb fst snd]; run_items rows_of.
  - intros pattern q p. unfold searchItemsByName, run_query. fold p.
    subst p q. unfold search_query, with_limit, active_only, active_calls, includes_inactive.
    fold pattern. generalize pattern. clear pattern. intros pattern.
    destruct (truthy _); cbn [negb fst snd]; run_items rows_of.
Qed.

(** [getCategoryStats] and [getItemsCount] count all items: their statements
    spell the columns in lower case, which the counting branch does not
    find, so that neither the category nor the filters reach the store. *)
Theorem counts_ignore_their_filters category filters w :
  getCategoryStats store ToString category w =
    (Ok (settled (JStr stats_statement) [category] (answer store count_all total_of)),
     Client (calls w ++ count_all) (sent w ++ [count_all])) /\
  (let p := count_query filters in
   getItemsCount store ToString filters w =
     (Ok (settled (JStr (fst p)) (snd p) (answer store count_all total_of)),
      Client (calls w ++ count_all) (sent w ++ [count_all]))).
Proof.
  split.
  - unfold getCategoryStats. run_items total_of.
  - intros p. unfold getItemsCount, run_query. fold p. subst p. unfold count_query.
    destruct (truthy _); destruct (prop (js "isActive") filters);
      cbn [fst snd length app Nat.add]; run_items total_of.
Qed.

(** [getAllCategories] selects every column of every item: its statement
    names the table, so that it goes the way of the plain selections, where
    neither DISTINCT nor its WHERE and ORDER BY are acted on. *)
Theorem all_categories_selects_all_items w :
  let q := [From (js "items"); Select (js "*") None] in
  getAllCategories store ToString w =
    (Ok (settled (JStr all_categories_statement) [] (answer store q rows_of)),
     Client (calls w ++ q) (sent w ++ [q])).
Proof. intros q. unfold getAllCategories. subst q. run_items rows_of. Qed.
End HelperQueries.

Lemma category_limit_is_the_category_witness :
  exists q,
    snd (getItemsByCategory three_rows_store (fun _ => []) (JStr (js "toys")) [] fresh) =
      Client q [q] /\
    In (Limit (JStr (js "toys"))) q.
Proof.
  eexists. split.
  - rewrite (category_limit_is_the_category three_rows_store (fun _ => [])
               (JStr (js "toys")) [] fresh eq_refl eq_refl).
    reflexivity.
  - vm_compute. tauto.
Defined.

Lemma param_calls_fixed s params op :
  (forall arg, fixed_call arg (op arg)) ->
  Forall (fixed_call (the_parameter s params)) (param_calls (normalize s) params op).
Proof.
  intros H. unfold param_calls, the_parameter.
  destruct (param_index (normalize s) params); [|constructor].
  apply Forall_cons_2; [apply H | constructor].
Qed.

Lemma items_builder_fixed s params :
  Forall (fixed_call (the_parameter s params)) (items_builder s params).
Proof.
  assert (Hp : forall op, (forall arg, fixed_call arg (op arg)) ->
                 forall b : bool,
                   Forall (fixed_call (the_parameter s params))
                          (if b then param_calls (normalize s) params op else [])).
  { intros op H b. destruct b; [now apply param_calls_fixed | constructor]. }
  assert (Hc : forall c, In c [From (js "items"); Select (js "*") None;
                               Select (js "*") (Some (SelectOpts (js "exact") true));
                               Eq (js "is_active") (JBool true);
                               Order (js "price") true; Order (js "price") false;
                               Order (js "rating") false; Order (js "created_date") false;
                               Order (js "created_date") true; Order (js "name") true] ->
                      fixed_call (the_parameter s params) c).
  { intros c Hc. unfold fixed_call. apply list_elem_of_In. simpl in Hc |- *.
    tauto. }
  unfold items_builder. cbv zeta. destruct (includes _ (js "COUNT(*)")).
  - apply Forall_app. split.
    { repeat (apply Forall_cons_2; [apply Hc; simpl; tauto|]). constructor. }
    unfold count_calls. destruct (includes _ (js "WHERE")); [|constructor]. cbv zeta.
    apply Forall_app. split; apply Hp; intros arg; unfold fixed_call;
      apply list_elem_of_In; simpl; tauto.
  - apply Forall_app. split.
    { repeat (apply Forall_cons_2; [apply Hc; simpl; tauto|]). constructor. }
    unfold select_calls. repeat (apply Forall_app; split).
    + destruct (includes _ (js "WHERE")); [|constructor].
      repeat (apply Forall_app; split);
        try (apply Hp; intros arg; unfold fixed_call; apply list_elem_of_In; simpl; tauto).
      destruct (includes _ _); [|constructor].
      apply Forall_cons_2; [apply Hc; simpl; tauto | constructor].
    + destruct (includes _ (js "ORDER BY")); [|constructor]. unfold order_calls.
      repeat (destruct (includes _ _);
              [apply Forall_cons_2; [apply Hc; simpl; tauto | constructor]|]).
      constructor.
    + apply Hp. intros arg. unfold fixed_call. apply list_elem_of_In. simpl. tauto.
Qed.

Section FixedCalls.
Variable store : query -> outcome response.
Variable ToString : jsval -> jsstring.

Lemma distinct_category_branch_exact w :
  distinct_category_branch store ToString w =
    (distinct_answer store ToString,
     Client (calls w ++ categories_query) (sent w ++ [categories_query])).
Proof.
  unfold distinct_category_branch, fetch_categories, distinct_answer, answer, unique_categories.
  unfold bind, invoke, await, throw_if_error. cbn [app calls sent]. fold categories_query.
  replace (((calls w ++ [From (js "items")]) ++ [Select (js "category") None]) ++
           [Not (js "category") (js "is") JNull]) with (calls w ++ categories_query)
    by (unfold categories_query; now rewrite <- !app_assoc).
  destruct (store categories_query) as [r|e]; [|reflexivity].
  destruct (r_error r); [reflexivity|]. unfold ret.
  destruct (r_data r); reflexivity.
Qed.

(** Whatever it is given, [executeQuery] returns a result object, awaits at
    most one builder, and makes no call that does not go into that builder.
    Each call is one of a fixed list, or compares a fixed column with, or
    limits the rows by, one and the same parameter: the first one whose
    placeholder occurs in the statement. *)
Theorem executeQuery_makes_fixed_calls v params w :
  let arg := match v with JStr s => the_parameter s params | _ => JUndefined end in
  exists res new,
    fst (executeQuery store ToString v params w) = Ok res /\
    (snd (executeQuery store ToString v params w) = w /\ new = [] \/
     snd (executeQuery store ToString v params w) =
       Client (calls w ++ new) (sent w ++ [new])) /\
    Forall (fixed_call arg) new.
Proof.
  intros arg.
  destruct (isSafeQuery v) eqn:Hs.
  2:{ rewrite executeQuery_unsafe by exact Hs. exists (failure v (Some params) (js "Query contains unsafe operations")), [].
      split; [reflexivity|]. split; [now left | constructor]. }
  destruct (isSafeQuery_string v Hs) as [s ->]. subst arg.
  destruct (on_items s) eqn:Hi.
  { rewrite executeQuery_items by assumption. cbv zeta.
    eexists _, (items_builder s params). split; [reflexivity|].
    split; [now right | apply items_builder_fixed]. }
  unfold executeQuery. rewrite Hs. cbn [negb].
  destruct (includes (toUpperCase (normalize s)) (js "SELECT DISTINCT CATEGORY")) eqn:Hd.
  - rewrite (with_result_exact _ _ _ w (distinct_answer store ToString)
               (Client (calls w ++ categories_query) (sent w ++ [categories_query]))).
    + eexists _, categories_query. split; [reflexivity|]. split; [now right|].
      repeat (apply Forall_cons_2;
              [unfold fixed_call; apply list_elem_of_In; simpl; tauto|]).
      constructor.
    + unfold lift, as_string. erewrite bind_ok; [|reflexivity]. cbv zeta.
      unfold on_items in Hi. rewrite Hi, Hd. apply distinct_category_branch_exact.
  - rewrite (with_result_exact _ _ _ w (Throw (Error (js "Unsupported query type"))) w).
    + eexists _, []. split; [reflexivity|]. split; [now left | constructor].
    + unfold lift, as_string. erewrite bind_ok; [|reflexivity]. cbv zeta.
      unfold on_items in Hi. now rewrite Hi, Hd.
Qed.
End FixedCalls.

(* ================================================================== *)
(** * The validator: whole words *)
(* ================================================================== *)

Lemma in_all_units c : In c all_units.
Proof.
  unfold all_units. rewrite <- (ascii_nat_embedding c). apply in_map, in_seq.
  pose proof (nat_ascii_bounded c). lia.
Qed.

Lemma forall_units (P : ascii -> bool) :
  forallb P all_units = true -> forall c, P c = true.
Proof. intros H c. rewrite forallb_forall in H. apply H, in_all_units. Qed.

(** What matches a capital letter under the [i] flag is that letter in one
    of its two cases: a word unit whose upper-case form is the letter. *)
Lemma capital_match a x :
  is_capital a = true -> cls_match true (CLit a) x = true ->
  is_word x = true /\ toUpperCase [x] = [a].
Proof.
  intros Ha Hx.
  assert (Hin : In a (map ascii_of_nat (seq 65 26))).
  { rewrite <- (ascii_nat_embedding a). apply in_map, in_seq.
    unfold is_capital, in_range, code in Ha. apply andb_true_iff in Ha as [H1 H2].
    apply Nat.leb_le in H1, H2. lia. }
  assert (H : forallb (fun a => forallb (fun x =>
            implb (cls_match true (CLit a) x)
                  (is_word x && jsstring_eqb (toUpperCase [x]) [a])) all_units)
            (map ascii_of_nat (seq 65 26)) = true) by (vm_compute; reflexivity).
  rewrite forallb_forall in H. specialize (H a Hin).
  apply forall_units with (c := x) in H. rewrite Hx in H. cbn [implb] in H.
  apply andb_true_iff in H as [H1 H2]. split; [exact H1|]. now apply jsstring_eqb_eq.
Qed.

Lemma toUpperCase_app a b : toUpperCase (a ++ b) = toUpperCase a ++ toUpperCase b.
Proof. apply flat_map_app. Qed.

Lemma ci_eq_keyword w kw :
  Forall (fun a => is_capital a = true) kw -> ci_eq w kw ->
  Forall (fun x => is_word x = true) w /\ toUpperCase w = kw.
Proof.
  intros Hk Hw. induction Hw as [|x a w kw Hx _ IH]; [now split|].
  apply Forall_cons in Hk as [Ha Hk]. destruct (IH Hk) as [IH1 IH2].
  destruct (capital_match a x Ha Hx) as [H1 H2]. split; [now constructor|].
  change (x :: w) with ([x] ++ w). now rewrite toUpperCase_app, H2, IH2.
Qed.

Lemma ci_eq_nonempty w kw : ci_eq w kw -> kw <> [] -> w <> [].
Proof. intros H Hk ->. inversion H; subst. congruence. Qed.

Lemma word_at_app w post :
  w <> [] -> Forall (fun x => is_word x = true) w -> word_at (w ++ post) = true.
Proof. intros Hne Hw. destruct w; [congruence|]. now inversion Hw. Qed.

Lemma word_at_rev_app w bef :
  w <> [] -> Forall (fun x => is_word x = true) w -> word_at (rev w ++ bef) = true.
Proof.
  intros Hne Hw. apply word_at_app.
  - intros E. apply (f_equal (@rev ascii)) in E. rewrite rev_involutive in E. now subst.
  - now apply Forall_rev.
Qed.

(** The patterns of [isSafeQuery]: keywords between two [\b]. *)
Lemma keyword_pattern R kws t :
  Forall is_keyword kws ->
  (forall st st', Matches true R st st' ->
     exists kw w, In kw kws /\ ci_eq w kw /\ span st st' w) ->
  (forall kw w bef rst, In kw kws -> ci_eq w kw ->
     exists cs, Matches true R (MState bef (w ++ rst) []) (MState (rev w ++ bef) rst cs)) ->
  test true (seqs [WordB; R; WordB]) t = true <-> exists kw, In kw kws /\ whole_word kw t.
Proof.
  intros Hk Hinv Hintro. rewrite List.Forall_forall in Hk. unfold test. split.
  - destruct (exec true _ t) as [m|] eqn:E; [intros _|discriminate].
    apply exec_sound in E as (Hi & _ & Hm). cbn [seqs] in Hm.
    apply Matches_Seq_inv in Hm as (st0 & H0 & Hm).
    apply Matches_WordB_inv in H0 as [-> Hb0].
    apply Matches_Seq_inv in Hm as (st1 & H1 & Hm).
    apply Matches_Seq_inv in Hm as (st2 & H2 & _).
    apply Matches_WordB_inv in H2 as [_ Hb1].
    destruct (Hinv _ _ H1) as (kw & w & Hin & Hw & Hr & Hbef).
    destruct (Hk kw Hin) as [Hne Hcap].
    destruct (ci_eq_keyword w kw Hcap Hw) as [Hword _].
    pose proof (ci_eq_nonempty w kw Hw Hne) as Hwne.
    exists kw. split; [exact Hin|].
    exists (rev (before (m_start m))), w, (rest st1).
    split; [|split; [exact Hw|split]].
    + rewrite <- Hi. unfold input. now rewrite Hr.
    + rewrite rev_involutive. unfold at_word_boundary in Hb0.
      rewrite Hr, (word_at_app w _ Hwne Hword) in Hb0.
      now destruct (word_at (before (m_start m))).
    + unfold at_word_boundary in Hb1.
      rewrite Hbef, (word_at_rev_app w _ Hwne Hword) in Hb1.
      now destruct (word_at (rest st1)).
  - intros (kw & Hin & pre & w & post & -> & Hw & Hpre & Hpost).
    destruct (Hk kw Hin) as [Hne Hcap].
    destruct (ci_eq_keyword w kw Hcap Hw) as [Hword _].
    pose proof (ci_eq_nonempty w kw Hw Hne) as Hwne.
    destruct (Hintro kw w (rev pre) post Hin Hw) as [cs Hm].
    assert (Hs : is_Some (exec true (seqs [WordB; R; WordB]) (pre ++ w ++ post))).
    { eapply exec_complete. cbn [seqs].
      eapply M_Seq; [apply M_WordB|].
      { unfold at_word_boundary. cbn [before rest].
        now rewrite Hpre, (word_at_app w _ Hwne Hword). }
      eapply M_Seq; [exact Hm|].
      eapply M_Seq; [apply M_WordB | apply M_Eps].
      unfold at_word_boundary. cbn [before rest].
      now rewrite Hpost, (word_at_rev_app w _ Hwne Hword). }
    destruct Hs as [m ->]. reflexivity.
Qed.

Lemma keyword_lits_inv kws st st' :
  kws <> [] -> Matches true (alts (map lit kws)) st st' ->
  exists kw w, In kw kws /\ ci_eq w kw /\ span st st' w.
Proof.
  intros Hne H. apply Matches_alts_inv in H as (r & Hr & H).
  - apply in_map_iff in Hr as (kw & <- & Hin).
    apply Matches_lit in H as (w & Hs & Hw & _). now exists kw, w.
  - destruct kws; [congruence | discriminate].
Qed.

Lemma keyword_lits_intro kws kw w bef rst cs :
  In kw kws -> ci_eq w kw ->
  Matches true (alts (map lit kws)) (MState bef (w ++ rst) cs) (MState (rev w ++ bef) rst cs).
Proof.
  intros Hin Hw. apply (Matches_alts_intro true (lit kw)); [now apply in_map|].
  now apply Matches_lit_intro.
Qed.

Lemma keywords_are_keywords : Forall is_keyword blocked_keywords.
Proof.
  unfold blocked_keywords, dangerousKeywords.
  repeat (apply Forall_cons_2;
          [split; [discriminate | repeat (apply Forall_cons_2; [reflexivity|]); constructor]|]).
  constructor.
Qed.

Lemma dangerousPattern_spec t :
  test true dangerousPattern t = true <->
  exists kw, In kw dangerousKeywords /\ whole_word kw t.
Proof.
  apply (keyword_pattern (Group 1 (alts (map lit dangerousKeywords))) dangerousKeywords).
  - pose proof keywords_are_keywords as H. unfold blocked_keywords in H.
    now apply Forall_app in H as [H _].
  - intros st st' H. apply Matches_Group_inv in H as (st1 & H & ->).
    apply keyword_lits_inv in H; [exact H | discriminate].
  - intros kw w bef rst Hin Hw. eexists.
    apply (M_Group true 1 _ (MState bef (w ++ rst) []) (MState (rev w ++ bef) rst [])).
    now apply (keyword_lits_intro _ kw).
Qed.

Lemma single_keyword_spec kw t :
  is_keyword kw ->
  test true (seqs [WordB; lit kw; WordB]) t = true <-> whole_word kw t.
Proof.
  intros Hk. rewrite (keyword_pattern (lit kw) [kw]).
  - split; [intros (kw' & [<-|[]] & H); exact H | intros H; exists kw; split; [now left|exact H]].
  - apply Forall_cons_2; [exact Hk | constructor].
  - intros st st' H. apply (keyword_lits_inv [kw]) in H; [exact H | discriminate].
  - intros kw' w bef rst Hin Hw. exists []. now apply (keyword_lits_intro [kw] kw').
Qed.

Lemma into_values_spec t :
  (test true re_into t = true <-> whole_word (js "INTO") t) /\
  (test true re_values t = true <-> whole_word (js "VALUES") t).
Proof.
  pose proof keywords_are_keywords as Hk. unfold blocked_keywords in Hk.
  apply Forall_app in Hk as [_ Hk]. apply Forall_cons in Hk as [Hinto Hk].
  apply Forall_cons in Hk as [Hvalues _].
  split; now apply single_keyword_spec.
Qed.

(** What [isSafeQuery] accepts holds no blocked keyword as a whole word. *)
Lemma isSafeQuery_sound s :
  isSafeQuery (JStr s) = true ->
  startsWith (toUpperCase (normalize s)) (js "SELECT") = true /\
  forall kw, In kw blocked_keywords -> ~ whole_word kw (normalize s).
Proof.
  intros H.
  pose proof (fun t => proj1 (into_values_spec t)) as Hi.
  pose proof (fun t => proj2 (into_values_spec t)) as Hv.
  unfold isSafeQuery, isSafeQuery_body in H. cbn [as_string obind] in H. cbv zeta in H.
  destruct (startsWith _ _); [|discriminate]. split; [reflexivity|]. cbn [negb] in H.
  destruct (test true dangerousPattern _) eqn:Ed; [discriminate|].
  destruct (test true re_into _) eqn:Ei; [discriminate|].
  destruct (test true re_values _) eqn:Ev; [discriminate|].
  intros kw Hin Hw. unfold blocked_keywords in Hin. apply in_app_or in Hin as [Hin|Hin].
  - assert (Ht : test true dangerousPattern (normalize s) = true)
      by (apply dangerousPattern_spec; eauto).
    congruence.
  - destruct Hin as [<-|[<-|[]]].
    + apply Hi in Hw. congruence.
    + apply Hv in Hw. congruence.
Qed.

(** [isSafeQuery] accepts the rest of what starts with SELECT. *)
Lemma isSafeQuery_complete s :
  startsWith (toUpperCase (normalize s)) (js "SELECT") = true ->
  (forall kw, In kw blocked_keywords -> ~ whole_word kw (normalize s)) ->
  isSafeQuery (JStr s) = true.
Proof.
  intros Hs Hn.
  pose proof (fun t => proj1 (into_values_spec t)) as Hi.
  pose proof (fun t => proj2 (into_values_spec t)) as Hv.
  unfold isSafeQuery, isSafeQuery_body.
  cbn [as_string obind]. cbv zeta. rewrite Hs. cbn [negb].
  destruct (test true dangerousPattern _) eqn:Ed.
  { apply dangerousPattern_spec in Ed as (kw & Hin & Hw). destruct (Hn kw); [|exact Hw].
    unfold blocked_keywords. apply in_or_app. now left. }
  destruct (test true re_into _) eqn:Ei.
  { apply Hi in Ei. destruct (Hn (js "INTO")); [|exact Ei].
    unfold blocked_keywords. apply in_or_app. right. now left. }
  destruct (test true re_values _) eqn:Ev; [|reflexivity].
  apply Hv in Ev. destruct (Hn (js "VALUES")); [|exact Ev].
  unfold blocked_keywords. apply in_or_app. right. right. now left.
Qed.

(** [isSafeQuery] accepts a string exactly when its normal form starts with
    SELECT, in whatever case, and holds none of the blocked keywords as a
    whole word, in whatever case; it accepts nothing else. *)
Theorem isSafeQuery_accepts_exactly v :
  isSafeQuery v = true <->
  exists s, v = JStr s /\
    startsWith (toUpperCase (normalize s)) (js "SELECT") = true /\
    forall kw, In kw blocked_keywords -> ~ whole_word kw (normalize s).
Proof.
  split.
  - intros H. destruct (isSafeQuery_string v H) as [s ->]. exists s.
    split; [reflexivity | now apply isSafeQuery_sound].
  - intros (s & -> & Hs & Hn). now apply isSafeQuery_complete.
Qed.

(** ** Substrings *)

Lemma startsWith_prefix s p : startsWith s p = true <-> exists r, s = p ++ r.
Proof.
  revert s. induction p as [|y p IH]; intros s; simpl.
  - split; [intros _; now exists s | intros _; now destruct s].
  - destruct s as [|x s]; [split; [discriminate | intros [r [=]]]|].
    simpl. rewrite andb_true_iff, ascii_eqb_eq, IH. split.
    + intros [-> [r ->]]. now exists r.
    + intros [r [= -> ->]]. split; [reflexivity | now exists r].
Qed.

Lemma includes_infix s p : includes s p = true <-> infix p s.
Proof.
  unfold infix. induction s as [|x s IH]; cbn [includes].
  - rewrite orb_false_r, startsWith_prefix. split.
    + intros [r H]. exists [], r. exact H.
    + intros (a & b & H). destruct a; [now exists b|discriminate].
  - rewrite orb_true_iff, startsWith_prefix, IH. split.
    + intros [[r H]|(a & b & ->)]; [exists [], r; exact H | now exists (x :: a), b].
    + intros (a & b & H). destruct a as [|y a].
      * left. now exists b.
      * right. injection H as -> ->. now exists a, b.
Qed.

(** A keyword that stands in the text as a whole word stands in its
    upper-case form. *)
Lemma whole_word_includes kw t :
  is_keyword kw -> whole_word kw t -> includes (toUpperCase t) kw = true.
Proof.
  intros [_ Hcap] (pre & w & post & -> & Hw & _). apply includes_infix.
  destruct (ci_eq_keyword w kw Hcap Hw) as [_ E].
  exists (toUpperCase pre), (toUpperCase post). now rewrite !toUpperCase_app, E.
Qed.

(** The validator of the older copy accepts only what the validator of the
    backend accepts: a keyword found as a whole word is found as a part of
    the upper-case text. *)
Theorem legacy_validator_is_stricter v :
  Legacy.isSafeQuery v = true -> isSafeQuery v = true.
Proof.
  intros H. destruct v; try discriminate.
  unfold Legacy.isSafeQuery, Legacy.isSafeQuery_body in H. cbn [as_string obind] in H.
  cbv zeta in H.
  destruct (startsWith _ _) eqn:Es; [|discriminate]. cbn [negb] in H.
  destruct (existsb _ dangerousKeywords) eqn:Ed; [discriminate|].
  destruct (negb _ && negb _); [discriminate|].
  destruct (includes _ (js "INTO")) eqn:Ei; [discriminate|].
  destruct (includes _ (js "VALUES")) eqn:Ev; [discriminate|].
  pose proof keywords_are_keywords as Hk. rewrite List.Forall_forall in Hk.
  apply isSafeQuery_complete; [exact Es|].
  intros kw Hin Hw.
  pose proof (whole_word_includes kw _ (Hk kw Hin) Hw) as Hinc.
  unfold blocked_keywords in Hin. apply in_app_or in Hin as [Hin|[<-|[<-|[]]]];
    [|congruence|congruence].
  assert (existsb (fun keyword => includes (toUpperCase (normalize s)) keyword)
                  dangerousKeywords = true); [|congruence].
  apply existsb_exists. now exists kw.
Qed.

Lemma legacy_validator_is_stricter_witness :
  isSafeQuery (JStr (js "SELECT * FROM items")) = true.
Proof. apply legacy_validator_is_stricter. vm_compute. reflexivity. Defined.

Section TwoCopies.
Variable store : query -> outcome response.
Variable ToString : jsval -> jsstring.
Variable inherited_text : jsstring -> jsstring.

(** On the statements that the older validator accepts and that hold no GROUP
    BY, the two copies of [executeQuery] do the same: the same calls on the
    client and the same result. *)
Theorem executeQuery_copies_agree s params w :
  Legacy.isSafeQuery (JStr s) = true ->
  includes (toUpperCase (normalize s)) (js "GROUP BY") = false ->
  Legacy_executeQuery store ToString inherited_text (JStr s) params w =
  executeQuery store ToString (JStr s) params w.
Proof.
  intros Hl Hg. pose proof (legacy_validator_is_stricter _ Hl) as Hs.
  destruct (on_items s) eqn:Hi.
  - rewrite Legacy_executeQuery_items by assumption.
    now rewrite executeQuery_items by assumption.
  - unfold Legacy_executeQuery, executeQuery. rewrite Hl, Hs. cbn [negb].
    unfold with_result, try_catch, bind, lift, as_string. cbv zeta.
    unfold on_items in Hi. now rewrite Hi.
Qed.
End TwoCopies.

Lemma executeQuery_copies_agree_witness :
  Legacy_executeQuery three_rows_store (fun _ => []) (fun k => k)
    (JStr (js "SELECT * FROM items WHERE price >= $1")) [JNum 5] fresh =
  executeQuery three_rows_store (fun _ => [])
    (JStr (js "SELECT * FROM items WHERE price >= $1")) [JNum 5] fresh.
Proof. apply executeQuery_copies_agree; vm_compute; reflexivity. Defined.

(* ================================================================== *)
(** * The normal form of a statement *)
(* ================================================================== *)

Lemma skip_blanks_length bef rst :
  length bef <= length (fst (skip_blanks bef rst)) /\
  length (snd (skip_blanks bef rst)) <= length rst.
Proof.
  revert bef. induction rst as [|c rst IH]; intros bef; simpl; [lia|].
  destruct (is_space c); simpl; [|lia]. specialize (IH (c :: bef)). simpl in IH. lia.
Qed.

Lemma star_blanks {A} (f : mstate -> A) cs : forall fuel rst bef,
  length rst < fuel ->
  star_loop true (run false (Chr CSpace)) (fun st' => Some (f st')) fuel (MState bef rst cs) =
  Some (f (MState (fst (skip_blanks bef rst)) (snd (skip_blanks bef rst)) cs)).
Proof.
  induction fuel as [|fuel IH]; intros rst bef Hlt; [lia|].
  rewrite star_loop_S. cbn [run rest before caps cls_match].
  destruct rst as [|c rst]; [reflexivity|]. cbn [skip_blanks].
  destruct (is_space c); [|reflexivity].
  cbn [rest length]. rewrite (proj2 (Nat.ltb_lt _ _)) by lia.
  rewrite IH by (simpl in Hlt; lia). reflexivity.
Qed.

Lemma match_at_blanks bef rst :
  match_at false re_blanks bef rst =
  match rst with
  | c :: rst' =>
      if is_space c
      then Some (MResult (MState bef rst [])
                         (MState (fst (skip_blanks (c :: bef) rst'))
                                 (snd (skip_blanks (c :: bef) rst')) []))
      else None
  | [] => None
  end.
Proof.
  unfold match_at, re_blanks, plus. cbn [run rest before caps cls_match].
  destruct rst as [|c rst]; [reflexivity|]. destruct (is_space c); [|reflexivity].
  cbn [rest].
  now rewrite (star_blanks (fun st' => MResult (MState bef (c :: rst) []) st')) by lia.
Qed.

Lemma upto_blank_app s : s = fst (upto_blank s) ++ snd (upto_blank s).
Proof.
  induction s as [|c s IH]; simpl; [reflexivity|].
  destruct (is_space c); [reflexivity|].
  destruct (upto_blank s) as [a b]. simpl in *. now rewrite <- IH.
Qed.

Lemma search_blanks : forall rst bef,
  search false re_blanks bef rst =
  match snd (upto_blank rst) with
  | c :: rst' =>
      let bef' := rev (fst (upto_blank rst)) ++ bef in
      Some (MResult (MState bef' (c :: rst') [])
                    (MState (fst (skip_blanks (c :: bef') rst'))
                            (snd (skip_blanks (c :: bef') rst')) []))
  | [] => None
  end.
Proof.
  induction rst as [|c rst IH]; intros bef.
  - reflexivity.
  - cbn [search]. rewrite match_at_blanks. cbn [upto_blank].
    destruct (is_space c) eqn:Ec.
    + reflexivity.
    + rewrite IH. destruct (upto_blank rst) as [a b]. cbn [fst snd].
      destruct b as [|d b]; [reflexivity|]. cbv zeta. cbn [rev].
      now rewrite <- !app_assoc.
Qed.

Lemma squeeze_skip bef rst : squeeze true rst = squeeze false (snd (skip_blanks bef rst)).
Proof.
  revert bef. induction rst as [|c rst IH]; intros bef; simpl; [reflexivity|].
  destruct (is_space c) eqn:Ec; [apply IH|]. simpl. now rewrite Ec.
Qed.

Lemma squeeze_upto s :
  squeeze false s =
  fst (upto_blank s) ++
  match snd (upto_blank s) with
  | _ :: rst' => " "%char :: squeeze true rst'
  | [] => []
  end.
Proof.
  induction s as [|c s IH]; simpl; [reflexivity|].
  destruct (is_space c) eqn:Ec; simpl; [reflexivity|].
  destruct (upto_blank s) as [a b]. simpl in *. now rewrite IH.
Qed.

Lemma replace_blanks : forall fuel rst bef,
  length rst < fuel ->
  replace_all_from false re_blanks (js " ") fuel bef rst = squeeze false rst.
Proof.
  induction fuel as [|fuel IH]; intros rst bef Hlt; [lia|].
  cbn [replace_all_from]. rewrite search_blanks, squeeze_upto.
  pose proof (upto_blank_app rst) as Hs.
  destruct (upto_blank rst) as [a b]. cbn [fst snd] in *.
  destruct b as [|c b].
  - now rewrite app_nil_r in *.
  - cbv zeta. cbn [m_start m_end before rest].
    pose proof (skip_blanks_length (c :: rev a ++ bef) b) as [H1 H2]. cbn [length] in H1.
    rewrite (proj2 (Nat.eqb_neq _ _)) by lia.
    rewrite length_app, length_rev.
    replace (length a + length bef - length bef) with (length a) by lia.
    rewrite Hs at 1. rewrite firstn_app, Nat.sub_diag, firstn_all. cbn [firstn].
    rewrite app_nil_r. f_equal. cbn [list_ascii_of_string app]. f_equal.
    rewrite IH.
    + symmetry. apply squeeze_skip.
    + rewrite Hs, length_app in Hlt. simpl in Hlt. lia.
Qed.

(** [replace(/\s+/g, ' ')] squeezes every run of blanks into one space. *)
Lemma normalize_squeeze s : normalize s = trim (squeeze false s).
Proof. unfold normalize, replace_all. now rewrite replace_blanks by lia. Qed.

Lemma squeeze_loose s : forall b,
  loose (squeeze b s) = true /\ (b = true -> head_ok (squeeze b s) = true).
Proof.
  induction s as [|c s IH]; intros b; simpl; [now split|].
  destruct (is_space c) eqn:Ec.
  - destruct b.
    + apply IH.
    + destruct (IH true) as [H1 H2]. split; [|discriminate].
      cbn [loose]. now rewrite (H2 eq_refl), H1.
  - destruct (IH false) as [H1 _]. split.
    + cbn [loose]. now rewrite Ec, H1.
    + intros _. simpl. now rewrite Ec.
Qed.

Lemma loose_trimStart t : loose t = true -> loose (trimStart t) = true.
Proof.
  induction t as [|c t IH]; simpl; [reflexivity|].
  destruct (is_space c) eqn:Ec; [|simpl; now rewrite Ec].
  intros H. apply andb_true_iff in H as [_ H]. now apply IH.
Qed.

Lemma head_ok_trimStart t : head_ok (trimStart t) = true.
Proof.
  induction t as [|c t IH]; simpl; [reflexivity|].
  destruct (is_space c) eqn:Ec; [exact IH|]. simpl. now rewrite Ec.
Qed.

Lemma trimEnd_snoc t c :
  trimEnd (t ++ [c]) = if is_space c then trimEnd t else t ++ [c].
Proof.
  unfold trimEnd. rewrite rev_app_distr. simpl. destruct (is_space c); [reflexivity|].
  simpl. now rewrite rev_involutive.
Qed.

Lemma head_ok_app t u : t <> [] -> head_ok (t ++ u) = head_ok t.
Proof. now destruct t. Qed.

Lemma loose_app t u : loose (t ++ u) = true -> loose t = true.
Proof.
  induction t as [|c t IH]; simpl; [reflexivity|].
  intros H. apply andb_true_iff in H as [H1 H2]. rewrite (IH H2), andb_true_r.
  destruct (is_space c); [|reflexivity].
  apply andb_true_iff in H1 as [-> H1]. destruct t; [reflexivity | exact H1].
Qed.

Lemma well_spaced_loose t : well_spaced t = loose t && last_ok t.
Proof.
  unfold last_ok. induction t as [|c t IH]; [reflexivity|].
  cbn [well_spaced loose]. rewrite IH. destruct t as [|d t].
  - simpl. destruct (is_space c); simpl; now rewrite ?andb_false_r.
  - assert (E : head_ok (rev (c :: d :: t)) = head_ok (rev (d :: t))).
    { cbn [rev]. apply head_ok_app. now destruct (rev t). }
    rewrite E. cbn [head_ok].
    destruct (is_space c), (code c =? 32), (is_space d), (loose (d :: t)),
      (head_ok (rev (d :: t))); reflexivity.
Qed.

Lemma trimEnd_tidy t :
  loose t = true -> head_ok t = true -> tidy (trimEnd t) = true.
Proof.
  induction t as [|c t IH] using rev_ind; intros Hl Hh; [reflexivity|].
  rewrite trimEnd_snoc. destruct (is_space c) eqn:Ec.
  - apply IH; [now apply loose_app in Hl|].
    destruct t; [reflexivity|]. now rewrite head_ok_app in Hh.
  - unfold tidy. rewrite well_spaced_loose, Hl. fold (head_ok (t ++ [c])). rewrite Hh.
    unfold last_ok. rewrite rev_app_distr. simpl. now rewrite Ec.
Qed.

Lemma squeeze_tidy t : forall b,
  well_spaced t = true -> (b = true -> head_ok t = true) -> squeeze b t = t.
Proof.
  induction t as [|c t IH]; intros b Hw Hb; simpl; [reflexivity|].
  cbn [well_spaced] in Hw. apply andb_true_iff in Hw as [Hc Hw].
  destruct (is_space c) eqn:Ec.
  - apply andb_true_iff in Hc as [Hc Ht]. destruct b.
    + specialize (Hb eq_refl). simpl in Hb. now rewrite Ec in Hb.
    + assert (E : c = " "%char).
      { apply ascii_eqb_eq. unfold ascii_eqb. exact Hc. }
      rewrite IH; [now rewrite E | exact Hw |].
      intros _. destruct t; [discriminate | exact Ht].
  - now rewrite IH.
Qed.

Lemma trimStart_head_ok t : head_ok t = true -> trimStart t = t.
Proof. destruct t as [|c t]; simpl; [reflexivity|]. now destruct (is_space c). Qed.

Lemma trim_tidy t : tidy t = true -> trim t = t.
Proof.
  unfold tidy. fold (head_ok t). rewrite well_spaced_loose. intros H.
  apply andb_true_iff in H as [Hh H]. apply andb_true_iff in H as [_ Hl].
  unfold trim. rewrite (trimStart_head_ok t Hh). unfold trimEnd, last_ok in *.
  rewrite (trimStart_head_ok _ Hl). apply rev_involutive.
Qed.

Lemma filter_trimStart t :
  List.filter (fun c => negb (is_space c)) (trimStart t) =
  List.filter (fun c => negb (is_space c)) t.
Proof.
  induction t as [|c t IH]; simpl; [reflexivity|].
  destruct (is_space c) eqn:Ec; simpl; [exact IH | now rewrite Ec].
Qed.

Lemma filter_rev {A} (p : A -> bool) l : List.filter p (rev l) = rev (List.filter p l).
Proof.
  induction l as [|x l IH]; simpl; [reflexivity|].
  rewrite List.filter_app, IH. simpl. destruct (p x); simpl; [reflexivity|].
  now rewrite app_nil_r.
Qed.

Lemma filter_trim t :
  List.filter (fun c => negb (is_space c)) (trim t) =
  List.filter (fun c => negb (is_space c)) t.
Proof.
  unfold trim, trimEnd. rewrite filter_rev, filter_trimStart, filter_rev, rev_involutive.
  apply filter_trimStart.
Qed.

Lemma filter_squeeze s : forall b,
  List.filter (fun c => negb (is_space c)) (squeeze b s) =
  List.filter (fun c => negb (is_space c)) s.
Proof.
  induction s as [|c s IH]; intros b; simpl; [reflexivity|].
  destruct (is_space c) eqn:Ec; simpl.
  - destruct b; simpl; apply IH.
  - rewrite Ec. simpl. now rewrite IH.
Qed.

(** The normal form of a statement, [sql.replace(/\s+/g, ' ').trim()], is
    tidy: it neither starts nor ends with a blank, and each of its blanks is
    a single space between two units that are no blanks.  It holds the units
    of the statement that are no blanks, in their order, and no others.  A
    tidy text is its own normal form, so that normalizing twice changes
    nothing. *)
Theorem normalize_is_tidy s :
  tidy (normalize s) = true /\
  List.filter (fun c => negb (is_space c)) (normalize s) =
    List.filter (fun c => negb (is_space c)) s /\
  (forall t, tidy t = true -> normalize t = t) /\
  normalize (normalize s) = normalize s.
Proof.
  assert (Ht : forall s, tidy (normalize s) = true).
  { intros s0. rewrite normalize_squeeze. unfold trim. apply trimEnd_tidy.
    - apply loose_trimStart, squeeze_loose.
    - apply head_ok_trimStart. }
  assert (Hf : forall t, tidy t = true -> normalize t = t).
  { intros t H. rewrite normalize_squeeze. rewrite squeeze_tidy.
    - now apply trim_tidy.
    - unfold tidy in H. now apply andb_true_iff in H as [_ H].
    - discriminate. }
  split; [apply Ht|]. split; [|split; [exact Hf | apply Hf, Ht]].
  rewrite normalize_squeeze, filter_trim. apply filter_squeeze.
Qed.

(** ** Words survive normalization *)

Lemma squeeze_word w r :
  Forall (fun x => is_space x = false) w ->
  forall b, w <> [] -> squeeze b (w ++ r) = w ++ squeeze false r.
Proof.
  induction 1 as [|c w Hc Hw IH]; intros b Hne; [congruence|].
  simpl. rewrite Hc. f_equal. destruct w as [|d w]; [reflexivity|].
  apply IH. discriminate.
Qed.

Lemma squeeze_app_word a w r :
  Forall (fun x => is_space x = false) w -> w <> [] ->
  forall b, squeeze b (a ++ w ++ r) = squeeze b a ++ w ++ squeeze false r.
Proof.
  intros Hw Hne. induction a as [|c a IH]; intros b; simpl.
  - now apply squeeze_word.
  - destruct (is_space c); [destruct b|]; simpl; now rewrite IH.
Qed.

Lemma trimStart_app_word a x r :
  is_space x = false -> trimStart (a ++ x :: r) = trimStart a ++ x :: r.
Proof.
  intros Hx. induction a as [|c a IH]; simpl; [now rewrite Hx|].
  destruct (is_space c); [exact IH | reflexivity].
Qed.

Lemma trimEnd_app_word z y r :
  is_space y = false -> trimEnd ((z ++ [y]) ++ r) = (z ++ [y]) ++ trimEnd r.
Proof.
  intros Hy. induction r as [|c r IH] using rev_ind.
  - rewrite app_nil_r, trimEnd_snoc, Hy. now rewrite app_nil_r.
  - rewrite app_assoc, !trimEnd_snoc. destruct (is_space c); [exact IH|].
    now rewrite app_assoc.
Qed.

Lemma trim_app_word a w r :
  Forall (fun x => is_space x = false) w -> w <> [] ->
  trim (a ++ w ++ r) = trimStart a ++ w ++ trimEnd r.
Proof.
  intros Hw Hne. unfold trim.
  destruct (exists_last Hne) as (w' & y & ->).
  apply Forall_app in Hw as [Hw' Hy]. apply Forall_cons in Hy as [Hy _].
  assert (E : trimStart (a ++ (w' ++ [y]) ++ r) = trimStart a ++ (w' ++ [y]) ++ r).
  { destruct w' as [|x w'].
    - cbn [app]. now apply trimStart_app_word.
    - apply Forall_cons in Hw' as [Hx _]. cbn [app]. now apply trimStart_app_word. }
  rewrite E. rewrite !app_assoc. rewrite trimEnd_app_word by exact Hy. reflexivity.
Qed.

Lemma normalize_app_word a w r :
  Forall (fun x => is_space x = false) w -> w <> [] ->
  normalize (a ++ w ++ r) =
  trimStart (squeeze false a) ++ w ++ trimEnd (squeeze false r).
Proof.
  intros Hw Hne. rewrite normalize_squeeze, squeeze_app_word by assumption.
  now apply trim_app_word.
Qed.

(** A word in the text is a word in its normal form. *)
Lemma normalize_infix w s :
  Forall (fun x => is_space x = false) w -> w <> [] ->
  infix w s -> infix w (normalize s).
Proof.
  intros Hw Hne (a & b & ->). rewrite normalize_app_word by assumption. now eexists _, _.
Qed.

Lemma word_no_blank x : is_word x = true -> is_space x = false.
Proof.
  revert x. 
  assert (H : forall x, implb (is_word x) (negb (is_space x)) = true).
  { apply forall_units. vm_compute. reflexivity. }
  intros x Hx. specialize (H x). rewrite Hx in H. simpl in H.
  now destruct (is_space x).
Qed.

Lemma blank_no_word x : is_space x = true -> is_word x = false.
Proof.
  intros H. destruct (is_word x) eqn:E; [|reflexivity].
  apply word_no_blank in E. congruence.
Qed.

Lemma blank_after_cons b d t : blank_after b (d :: t) = blank_after (is_space d) t.
Proof. unfold blank_after. simpl. now destruct (rev t). Qed.

Lemma squeeze_snoc t c : forall b,
  squeeze b (t ++ [c]) =
  squeeze b t ++
  (if is_space c then if blank_after b t then [] else [" "%char] else [c]).
Proof.
  induction t as [|d t IH]; intros b.
  - unfold blank_after. simpl. destruct (is_space c); [destruct b|]; reflexivity.
  - rewrite blank_after_cons. cbn [app squeeze].
    destruct (is_space d); [destruct b|]; rewrite IH; reflexivity.
Qed.

Lemma squeeze_last t : forall b,
  word_at (rev (squeeze b t)) = true -> word_at (rev t) = true.
Proof.
  induction t as [|c t IH] using rev_ind; intros b.
  - simpl. discriminate.
  - rewrite squeeze_snoc, !rev_app_distr. cbn [rev app].
    destruct (is_space c) eqn:Ec; [|tauto].
    intros H. exfalso.
    assert (Hb : blank_after b t = true).
    { destruct (blank_after b t); [reflexivity|]. simpl in H. discriminate. }
    rewrite Hb in H. cbn [rev app] in H. apply IH in H.
    unfold blank_after in Hb. destruct (rev t) as [|d t']; [discriminate|].
    simpl in H. rewrite (blank_no_word d Hb) in H. discriminate.
Qed.

Lemma trimStart_last t : word_at (rev (trimStart t)) = true -> word_at (rev t) = true.
Proof.
  induction t as [|c t IH]; simpl; [discriminate|].
  destruct (is_space c) eqn:Ec; [|tauto].
  intros H. specialize (IH H). destruct (rev t); [discriminate | exact IH].
Qed.

Lemma squeeze_head t : word_at (squeeze false t) = word_at t.
Proof.
  destruct t as [|c t]; [reflexivity|]. simpl.
  destruct (is_space c) eqn:Ec; [|reflexivity]. simpl. now rewrite (blank_no_word c Ec).
Qed.

Lemma trimEnd_head t : word_at (trimEnd t) = true -> word_at t = true.
Proof.
  induction t as [|c t IH] using rev_ind; [discriminate|].
  rewrite trimEnd_snoc. destruct (is_space c); [|tauto].
  intros H. specialize (IH H). now destruct t.
Qed.

(** A keyword that stands in the statement as a whole word stands so in its
    normal form. *)
Lemma whole_word_normalize kw s :
  is_keyword kw -> whole_word kw s -> whole_word kw (normalize s).
Proof.
  intros [Hne Hcap] (pre & w & post & -> & Hw & Hpre & Hpost).
  destruct (ci_eq_keyword w kw Hcap Hw) as [Hword _].
  pose proof (ci_eq_nonempty w kw Hw Hne) as Hwne.
  assert (Hnb : Forall (fun x => is_space x = false) w).
  { eapply Forall_impl; [exact Hword|]. apply word_no_blank. }
  rewrite normalize_app_word by assumption.
  exists (trimStart (squeeze false pre)), w, (trimEnd (squeeze false post)).
  split; [reflexivity|]. split; [exact Hw|]. split.
  - destruct (word_at (rev (trimStart (squeeze false pre)))) eqn:E; [|reflexivity].
    apply trimStart_last, squeeze_last in E. congruence.
  - destruct (word_at (trimEnd (squeeze false post))) eqn:E; [|reflexivity].
    apply trimEnd_head in E. rewrite squeeze_head in E. congruence.
Qed.

(* ================================================================== *)
(** * Blocked statements make no call *)
(* ================================================================== *)

(** The older validator finds a keyword wherever its letters stand in the
    text, in whatever case. *)
Lemma legacy_rejects_substring s kw w0 :
  In kw blocked_keywords -> ci_eq w0 kw -> infix w0 s ->
  Legacy.isSafeQuery (JStr s) = false.
Proof.
  intros Hin Hw Hi.
  pose proof keywords_are_keywords as Hk. rewrite List.Forall_forall in Hk.
  destruct (Hk kw Hin) as [Hne Hcap].
  destruct (ci_eq_keyword w0 kw Hcap Hw) as [Hword Hup].
  assert (Hinc : includes (toUpperCase (normalize s)) kw = true).
  { apply includes_infix.
    destruct (normalize_infix w0 s) as (a & b & E).
    - eapply Forall_impl; [exact Hword|]. apply word_no_blank.
    - now apply (ci_eq_nonempty w0 kw).
    - exact Hi.
    - exists (toUpperCase a), (toUpperCase b). now rewrite E, !toUpperCase_app, Hup. }
  unfold Legacy.isSafeQuery, Legacy.isSafeQuery_body. cbn [as_string obind]. cbv zeta.
  destruct (negb (startsWith _ _)); [reflexivity|].
  destruct (existsb _ dangerousKeywords) eqn:Ed; [reflexivity|].
  destruct (negb _ && negb _); [reflexivity|].
  unfold blocked_keywords in Hin. apply in_app_or in Hin as [Hin|[<-|[<-|[]]]].
  - assert (existsb (fun keyword => includes (toUpperCase (normalize s)) keyword)
                    dangerousKeywords = true); [|congruence].
    apply existsb_exists. now exists kw.
  - now rewrite Hinc.
  - rewrite Hinc. now rewrite orb_true_r.
Qed.

Lemma category_statement_is_refused ToString category options :
  Legacy.isSafeQuery (JStr (fst (category_query ToString category options))) = false.
Proof.
  apply (legacy_rejects_substring _ (js "CREATE") (js "create")).
  - unfold blocked_keywords, dangerousKeywords. simpl. tauto.
  - repeat constructor.
  - assert (Hc : infix (js "create") category_statement).
    { apply includes_infix. vm_compute. reflexivity. }
    assert (Ht : exists rest,
              fst (category_query ToString category options) = category_statement ++ rest).
    { unfold category_query, with_limit, active_only. cbn [fst].
      destruct (negb _); destruct (truthy _ && truthy _);
        rewrite <- ?app_assoc; eexists; reflexivity. }
    destruct Ht as [rest ->]. destruct Hc as (a & b & ->).
    exists a, (b ++ rest). now rewrite <- !app_assoc.
Qed.

Section Blocked.
Variable store : query -> outcome response.
Variable JSON_stringify : row -> jsstring.
Variable ToString : jsval -> jsstring.
Variable inherited_text : jsstring -> jsstring.

(** A statement that holds a blocked keyword as a whole word, in whatever
    case and wherever in the text, is refused by [isSafeQuery], and neither
    [executeDynamicQuery] nor [executeQuery] makes a call on the client for
    it: each returns the failure and leaves the client as it was. *)
Theorem blocked_statements_make_no_call s kw params w :
  In kw blocked_keywords -> whole_word kw s ->
  isSafeQuery (JStr s) = false /\
  executeDynamicQuery store JSON_stringify (JStr s) w =
    (Ok (failure (JStr s) None (js "Query contains unsafe operations")), w) /\
  executeQuery store ToString (JStr s) params w =
    (Ok (failure (JStr s) (Some params) (js "Query contains unsafe operations")), w).
Proof.
  intros Hin Hw.
  assert (Hs : isSafeQuery (JStr s) = false).
  { destruct (isSafeQuery (JStr s)) eqn:E; [|reflexivity].
    apply isSafeQuery_sound in E as [_ E]. destruct (E kw Hin).
    apply whole_word_normalize; [|exact Hw].
    pose proof keywords_are_keywords as Hk. rewrite List.Forall_forall in Hk. now apply Hk. }
  split; [exact Hs|]. split.
  - rewrite executeDynamicQuery_unfold. now rewrite Hs.
  - now apply executeQuery_unsafe.
Qed.

(** The older copy refuses a statement as soon as the letters of a blocked
    keyword stand in it, in whatever case, be it inside an identifier, and
    its [executeQuery] then makes no call on the client. *)
Theorem legacy_blocks_substrings s kw w0 params w :
  In kw blocked_keywords -> ci_eq w0 kw -> infix w0 s ->
  Legacy.isSafeQuery (JStr s) = false /\
  Legacy_executeQuery store ToString inherited_text (JStr s) params w =
    (Ok (failure (JStr s) (Some params) (js "Query contains unsafe operations")), w).
Proof.
  intros Hin Hw Hi. pose proof (legacy_rejects_substring s kw w0 Hin Hw Hi) as H.
  split; [exact H | now apply Legacy_executeQuery_unsafe].
Qed.

(** The older [getItemsByCategory] never reaches the store: its statement
    selects [created_date], in which the older validator finds CREATE,
    whatever the category and the options. *)
Theorem legacy_category_query_is_refused category options w :
  let p := category_query ToString category options in
  Legacy.isSafeQuery (JStr (fst p)) = false /\
  Legacy_getItemsByCategory store ToString inherited_text category options w =
    (Ok (failure (JStr (fst p)) (Some (snd p)) (js "Query contains unsafe operations")), w).
Proof.
  intros p.
  pose proof (category_statement_is_refused ToString category options) as H. fold p in H.
  split; [exact H|]. unfold Legacy_getItemsByCategory, Legacy_run_query. fold p.
  now apply Legacy_executeQuery_unsafe.
Qed.
End Blocked.

Lemma blocked_statements_make_no_call_witness :
  executeDynamicQuery three_rows_store (fun _ => [])
    (JStr (js "SELECT * FROM items; drop table items")) fresh =
  (Ok (failure (JStr (js "SELECT * FROM items; drop table items")) None
         (js "Query contains unsafe operations")), fresh).
Proof.
  apply (blocked_statements_make_no_call three_rows_store (fun _ => []) (fun _ => [])
           (js "SELECT * FROM items; drop table items") (js "DROP") [] fresh).
  - unfold blocked_keywords, dangerousKeywords. simpl. tauto.
  - exists (js "SELECT * FROM items; "), (js "drop"), (js " table items").
    split; [reflexivity|]. split; [repeat constructor|]. split; reflexivity.
Defined.

Lemma legacy_blocks_substrings_witness :
  Legacy.isSafeQuery (JStr (js "SELECT name, created_date FROM items")) = false.
Proof.
  apply (legacy_blocks_substrings three_rows_store (fun _ => []) (fun k => k)
           (js "SELECT name, created_date FROM items") (js "CREATE") (js "create") [] fresh).
  - unfold blocked_keywords, dangerousKeywords. simpl. tauto.
  - repeat constructor.
  - exists (js "SELECT name, "), (js "d_date FROM items"). reflexivity.
Defined.

(* ================================================================== *)
(** * The branch for SELECT DISTINCT CATEGORY *)
(* ================================================================== *)

Lemma same_value_zero_sym a b : same_value_zero a b = same_value_zero b a.
Proof.
  destruct a, b; simpl; try reflexivity.
  - now destruct b, b0.
  - destruct (Qeq_bool q q0) eqn:E1, (Qeq_bool q0 q) eqn:E2; try reflexivity.
    + apply Qeq_bool_iff in E1. symmetry in E1. apply Qeq_bool_iff in E1. congruence.
    + apply Qeq_bool_iff in E2. symmetry in E2. apply Qeq_bool_iff in E2. congruence.
  - apply jsstring_eqb_sym.
Qed.

Lemma all_distinct_perm l1 l2 : l1 ≡ₚ l2 -> all_distinct l1 -> all_distinct l2.
Proof.
  induction 1 as [|x l1 l2 Hp IH|x y l|l1 l2 l3 _ IH1 _ IH2]; simpl.
  - tauto.
  - intros [H1 H2]. split; [now rewrite <- Hp | now apply IH].
  - intros [Hy [Hx Hl]]. apply Forall_cons in Hy as [Hyx Hy].
    split; [|split]; try assumption.
    constructor; [|assumption]. now rewrite same_value_zero_sym.
  - tauto.
Qed.

Lemma set_values_spec values : forall seen,
  let kept := set_values seen values in
  all_distinct kept /\
  Forall (fun k => Forall (fun s => same_value_zero k s = false) seen) kept /\
  (forall x, x ∈ kept -> x ∈ values) /\
  (forall x, x ∈ values ->
     x ∈ kept \/ exists u, (u ∈ kept \/ u ∈ seen) /\ same_value_zero x u = true).
Proof.
  induction values as [|v values IH]; intros seen; simpl.
  - split; [exact I|]. split; [constructor|]. split; [tauto|].
    intros x Hx. now apply elem_of_nil in Hx.
  - destruct (existsb (same_value_zero v) seen) eqn:E.
    + destruct (IH seen) as (H1 & H2 & H3 & H4). split; [exact H1|]. split; [exact H2|].
      split.
      * intros x Hx. right. now apply H3.
      * intros x Hx. apply elem_of_cons in Hx as [->|Hx]; [|now apply H4].
        right. apply existsb_exists in E as (u & Hu & E). exists u.
        split; [right; now apply list_elem_of_In | exact E].
    + destruct (IH (v :: seen)) as (H1 & H2 & H3 & H4).
      assert (Hv : Forall (fun s => same_value_zero v s = false) seen).
      { apply Forall_forall. intros s Hs. apply list_elem_of_In in Hs.
        destruct (same_value_zero v s) eqn:Es; [|reflexivity].
        assert (existsb (same_value_zero v) seen = true); [|congruence].
        apply existsb_exists. eauto. }
      split; [|split; [|split]].
      * split; [|exact H1]. eapply Forall_impl; [exact H2|].
        intros k Hk. apply Forall_cons in Hk as [Hk _]. now rewrite same_value_zero_sym.
      * constructor; [exact Hv|]. eapply Forall_impl; [exact H2|].
        intros k Hk. now apply Forall_cons in Hk as [_ Hk].
      * intros x Hx. apply elem_of_cons in Hx as [->|Hx]; [left|right; now apply H3].
      * intros x Hx. apply elem_of_cons in Hx as [->|Hx]; [left; left|].
        destruct (H4 x Hx) as [Hk|(u & [Hu|Hu] & Eu)].
        -- left. now right.
        -- right. exists u. split; [left; now right | exact Eu].
        -- apply elem_of_cons in Hu as [->|Hu].
           ++ right. exists v. split; [left; left | exact Eu].
           ++ right. exists u. split; [now right | exact Eu].
Qed.

(** ** The order of strings *)

Lemma jsstring_ltb_asym a : forall b, jsstring_ltb a b = true -> jsstring_ltb b a = false.
Proof.
  induction a as [|x a IH]; intros [|y b]; simpl; try congruence.
  destruct (code x <? code y) eqn:E1, (code y <? code x) eqn:E2; try congruence.
  - apply Nat.ltb_lt in E1, E2. lia.
  - apply IH.
Qed.

Lemma jsstring_ltb_neg_trans a : forall b c,
  jsstring_ltb b a = false -> jsstring_ltb c b = false -> jsstring_ltb c a = false.
Proof.
  induction a as [|x a IH]; intros [|y b] [|z c]; simpl; try congruence.
  destruct (Nat.ltb_spec (code y) (code x)); [discriminate|].
  destruct (Nat.ltb_spec (code z) (code y)); [intros _; discriminate|].
  destruct (Nat.ltb_spec (code x) (code y)); destruct (Nat.ltb_spec (code y) (code z));
    destruct (Nat.ltb_spec (code z) (code x)); try lia;
    destruct (Nat.ltb_spec (code x) (code z)); try lia; try reflexivity.
  apply IH.
Qed.

Section DefaultOrder.
Variable ToString : jsval -> jsstring.

Lemma default_before_asym x y :
  default_before ToString x y = true -> default_before ToString y x = false.
Proof.
  destruct x, y; simpl; try congruence; apply jsstring_ltb_asym.
Qed.

Lemma default_before_neg_trans x y z :
  default_before ToString y x = false -> default_before ToString z y = false ->
  default_before ToString z x = false.
Proof.
  destruct x, y, z; simpl; try congruence; apply jsstring_ltb_neg_trans.
Qed.

Lemma unique_categories_spec data :
  let cats := map (prop (js "category")) data in
  let unique := unique_categories ToString data in
  all_distinct unique /\
  (forall x, x ∈ unique -> x ∈ cats) /\
  (forall x, x ∈ cats -> x ∈ unique \/ exists u, u ∈ unique /\ same_value_zero x u = true) /\
  StronglySorted (fun x y => default_before ToString y x = false) unique.
Proof.
  intros cats unique. subst unique. unfold unique_categories. fold cats.
  destruct (set_values_spec cats []) as (H1 & _ & H3 & H4). cbv zeta in *.
  pose proof (stable_sort_perm (default_before ToString) (set_values [] cats)) as Hp.
  split; [|split; [|split]].
  - eapply all_distinct_perm; [symmetry; exact Hp | exact H1].
  - intros x Hx. rewrite Hp in Hx. now apply H3.
  - intros x Hx. destruct (H4 x Hx) as [Hk|(u & [Hu|Hu] & Eu)].
    + left. now rewrite Hp.
    + right. exists u. split; [now rewrite Hp | exact Eu].
    + now apply elem_of_nil in Hu.
  - apply stable_sort_sorted.
    + apply default_before_asym.
    + intros x y z. unfold in_order. apply default_before_neg_trans.
Qed.
End DefaultOrder.

Section DistinctCategories.
Variable store : query -> outcome response.
Variable ToString : jsval -> jsstring.

(** A statement with SELECT DISTINCT CATEGORY that does not name the table
    [items] is answered from the categories of the store that are not null:
    each value once (no two results are the same value for a [Set]), every
    value of the response standing for itself or for an equal one, in the
    default order of [sort]. *)
Theorem distinct_categories_once_and_sorted s params w r rows :
  isSafeQuery (JStr s) = true ->
  on_items s = false ->
  includes (toUpperCase (normalize s)) (js "SELECT DISTINCT CATEGORY") = true ->
  store categories_query = Ok r -> r_error r = None -> r_data r = Some rows ->
  let cats := map (prop (js "category")) rows in
  exists unique,
    executeQuery store ToString (JStr s) params w =
      (Ok {| success := true;
             data := Some (map (fun category => [(js "category", category)]) unique);
             count := Some (length unique);
             error := None;
             query_text := JStr s;
             params_used := Some params |},
       Client (calls w ++ categories_query) (sent w ++ [categories_query])) /\
    all_distinct unique /\
    (forall x, x ∈ unique -> x ∈ cats) /\
    (forall x, x ∈ cats -> x ∈ unique \/ exists u, u ∈ unique /\ same_value_zero x u = true) /\
    StronglySorted (fun x y => default_before ToString y x = false) unique.
Proof.
  intros Hs Hi Hd Hr He Hrows cats. exists (unique_categories ToString rows).
  split; [|apply unique_categories_spec].
  unfold executeQuery. rewrite Hs. cbn [negb].
  rewrite (with_result_exact _ _ _ w (distinct_answer store ToString)
             (Client (calls w ++ categories_query) (sent w ++ [categories_query]))).
  - unfold distinct_answer, answer. rewrite Hr, He, Hrows. reflexivity.
  - unfold lift, as_string. erewrite bind_ok; [|reflexivity]. cbv zeta.
    unfold on_items in Hi. rewrite Hi, Hd. apply distinct_category_branch_exact.
Qed.
End DistinctCategories.

Lemma distinct_categories_once_and_sorted_witness :
  exists unique,
    executeQuery three_rows_store text_of
      (JStr (js "SELECT DISTINCT category FROM products")) [] fresh =
      (Ok {| success := true;
             data := Some (map (fun category => [(js "category", category)]) unique);
             count := Some (length unique);
             error := None;
             query_text := JStr (js "SELECT DISTINCT category FROM products");
             params_used := Some [] |},
       Client (calls fresh ++ categories_query) (sent fresh ++ [categories_query])).
Proof.
  destruct (distinct_categories_once_and_sorted three_rows_store text_of
              (js "SELECT DISTINCT category FROM products") [] fresh
              (Response (Some three_rows) None None) three_rows)
    as (unique & H & _); try (vm_compute; reflexivity).
  exists unique. exact H.
Defined.

(* ================================================================== *)
(** * The intent of a message *)
(* ================================================================== *)

Lemma includes_trans s p q : includes p q = true -> includes s p = true -> includes s q = true.
Proof.
  rewrite !includes_infix. intros H1 H2. eapply infix_trans; eassumption.
Qed.

(** [parseQueryIntent] never answers [isActive: false]: the words that
    should do so, inactive and unavailable, contain active and available,
    which are looked for first and answer [true].  It answers [true] exactly
    for the messages that contain one of those two words, in whatever case,
    and its limit is always 20. *)
Theorem intent_is_never_inactive message :
  exists q, parseQueryIntent (JStr message) = Ok q /\
    q_isActive q <> Some false /\
    (q_isActive q = Some true <->
       includes (toLowerCase message) (js "active") = true \/
       includes (toLowerCase message) (js "available") = true) /\
    (q_isActive q = None <->
       includes (toLowerCase message) (js "active") = false /\
       includes (toLowerCase message) (js "available") = false) /\
    q_limit q = 20.
Proof.
  exists (intent_of message). split; [reflexivity|].
  unfold intent_of. cbv zeta.
  destruct (if 2 <=? _ then _ else _) as [priceMin priceMax]. cbn [q_isActive q_limit].
  set (l := toLowerCase message).
  destruct (includes l (js "active")) eqn:Ea.
  { cbn [orb]. repeat split; try discriminate; auto. intros [? _]. discriminate. }
  destruct (includes l (js "available")) eqn:Ev.
  { cbn [orb]. repeat split; try discriminate; auto. intros [_ ?]. discriminate. }
  cbn [orb].
  assert (Hi : includes l (js "inactive") = false).
  { destruct (includes l (js "inactive")) eqn:E; [|reflexivity].
    rewrite (includes_trans l (js "inactive") (js "active")) in Ea;
      [discriminate | vm_compute; reflexivity | exact E]. }
  assert (Hu : includes l (js "unavailable") = false).
  { destruct (includes l (js "unavailable")) eqn:E; [|reflexivity].
    rewrite (includes_trans l (js "unavailable") (js "available")) in Ev;
      [discriminate | vm_compute; reflexivity | exact E]. }
  rewrite Hi, Hu. cbn [orb].
  repeat split; try discriminate; auto. intros [?|?]; discriminate.
Qed.

(** ** The prices of a message *)

Lemma replace_unit_absent a s :
  Forall (fun c => ascii_eqb c a = false) s -> replace_unit a [] s = s.
Proof.
  induction 1 as [|c s Hc _ IH]; simpl; [reflexivity|]. now rewrite Hc, IH.
Qed.

Lemma digit_not_dollar c : is_digit c = true -> ascii_eqb c "$" = false.
Proof.
  assert (H : forall c, implb (is_digit c) (negb (ascii_eqb c "$")) = true).
  { apply forall_units. vm_compute. reflexivity. }
  intros Hc. specialize (H c). rewrite Hc in H. simpl in H.
  now destruct (ascii_eqb c "$").
Qed.

(** The text [/\$?(\d+(?:\.\d{2})?)/] matches: a numeral, after a dollar sign
    or not. *)
Lemma re_price_text s m :
  match_in false re_price s m ->
  exists w, is_numeral w /\ Forall (fun c => ascii_eqb c "$" = false) w /\
            (grp 0 m = w \/ grp 0 m = "$"%char :: w).
Proof.
  intros (_ & _ & Hm). unfold re_price in Hm. cbn [seqs] in Hm.
  apply Matches_Seq_inv in Hm as (st1 & H1 & Hm).
  apply Matches_Seq_inv in Hm as (st2 & H2 & Hend).
  apply Matches_Eps_inv in Hend as Eend.
  apply Matches_Group_inv in H2 as (st3 & H2 & ->).
  apply Matches_Seq_inv in H2 as (st4 & Hd & H2).
  apply Matches_Seq_inv in H2 as (st5 & Hf & He).
  apply Matches_Eps_inv in He as ->.
  apply Matches_plus_chr in Hd as (d & Hdne & Sd & Hd & _).
  assert (Hfrac : exists f, span st4 st5 f /\
            (f = [] \/ exists x y, f = ["."%char; x; y] /\
                                   is_digit x = true /\ is_digit y = true)).
  { unfold opt in Hf. apply Matches_Alt_inv in Hf as [Hg|Hg].
    - apply Matches_Seq_inv in Hg as (s1 & Hp & Hg1).
      apply Matches_Seq_inv in Hg1 as (s2 & Hx & Hg2).
      apply Matches_Seq_inv in Hg2 as (s3 & Hy & He).
      apply Matches_Eps_inv in He as ->.
      apply Matches_Chr_inv in Hp as (p & Cp & Sp & _).
      apply Matches_Chr_inv in Hx as (x & Cx & Sx & _).
      apply Matches_Chr_inv in Hy as (y & Cy & Sy & _).
      exists ([p] ++ [x] ++ [y]). split.
      + eapply span_trans; [exact Sp|]. eapply span_trans; eassumption.
      + right. exists x, y. simpl in Cp. apply ascii_eqb_eq in Cp. subst p. now split.
    - apply Matches_Eps_inv in Hg as ->. exists []. split; [apply span_refl | now left]. }
  clear Hf. destruct Hfrac as (f & Sf & Hf).
  assert (Sw : span st1 (set_cap 1 st1 st5) (d ++ f)).
  { apply span_set_cap. eapply span_trans; eassumption. }
  assert (Hnum : is_numeral (d ++ f) /\ Forall (fun c => ascii_eqb c "$" = false) (d ++ f)).
  { assert (Hdd : Forall (fun c => ascii_eqb c "$" = false) d).
    { eapply Forall_impl; [exact Hd|]. apply digit_not_dollar. }
    destruct Hf as [->|(x & y & -> & Hx & Hy)].
    - rewrite app_nil_r. split; [|exact Hdd]. exists d, [].
      split; [exact Hdne|]. split; [exact Hd|]. split; [constructor | now left].
    - split.
      + exists d, [x; y]. split; [exact Hdne|]. split; [exact Hd|].
        split; [repeat (apply Forall_cons_2; [assumption|]); constructor|].
        right. split; [discriminate | reflexivity].
      + apply Forall_app. split; [exact Hdd|].
        repeat (apply Forall_cons_2; [reflexivity || now apply digit_not_dollar|]).
        constructor. }
  destruct Hnum as [Hnum Hnd]. exists (d ++ f). split; [exact Hnum|]. split; [exact Hnd|].
  unfold grp, group. cbn [default]. rewrite Eend.
  unfold opt in H1. apply Matches_Alt_inv in H1 as [H0|H0].
  - apply Matches_Chr_inv in H0 as (p & Cp & Sp & _).
    simpl in Cp. apply ascii_eqb_eq in Cp. subst p.
    right. apply consumed_span. exact (span_trans _ _ _ _ _ Sp Sw).
  - apply Matches_Eps_inv in H0 as ->. left. now apply consumed_span.
Qed.

Lemma price_of_number s m :
  match_in false re_price s m -> exists q, price_of (grp 0 m) = JNum q.
Proof.
  intros H. destruct (re_price_text s m H) as (w & Hn & Hd & [->| ->]); unfold price_of.
  - rewrite replace_unit_absent by exact Hd. now apply parseFloat_numeral.
  - simpl. now apply parseFloat_numeral.
Qed.

Lemma numbers_list (l : list jsval) :
  Forall (fun v => exists q, v = JNum q) l -> exists qs, l = map JNum qs.
Proof.
  induction 1 as [|v l [q ->] _ [qs ->]]; [now exists [] | now exists (q :: qs)].
Qed.

Lemma sorted_ends (l : list Q) :
  StronglySorted (fun x y => Qle x y) l -> Qle (hd 0%Q l) (List.last l 0%Q).
Proof.
  destruct l as [|x l]; [intros _; apply Qle_refl|].
  intros H. apply StronglySorted_inv in H as [_ H].
  destruct l as [|y l] using rev_ind; [apply Qle_refl|].
  change (x :: l ++ [y]) with ((x :: l) ++ [y]). rewrite last_last. simpl.
  rewrite List.Forall_forall in H. apply H. apply in_or_app. right. now left.
Qed.

(** When [parseQueryIntent] answers both a lowest and a highest price, the
    lowest is at most the highest; with two or more prices in the message
    both are numbers. *)
Theorem intent_prices_are_ordered message :
  let q := intent_of message in
  parseQueryIntent (JStr message) = Ok q /\
  (forall a b, q_priceMin q = JNum a -> q_priceMax q = JNum b -> Qle a b) /\
  (2 <= length (matchAll false re_price message) ->
   exists a b, q_priceMin q = JNum a /\ q_priceMax q = JNum b).
Proof.
  intros q. split; [reflexivity|].
  assert (Hall : exists qs,
            map price_of (map (grp 0) (matchAll false re_price message)) = map JNum qs).
  { apply numbers_list. rewrite map_map. apply List.Forall_forall. intros v Hv.
    apply in_map_iff in Hv as (m & <- & Hm). apply matchAll_sound in Hm.
    now apply (price_of_number message). }
  destruct Hall as [qs Hqs].
  assert (Hsort : stable_sort (fun y x => minus_positive x y) (map JNum qs) =
                  map JNum (stable_sort (fun y x => negb (Qle_bool x y)) qs)).
  { now apply stable_sort_map. }
  set (sorted := stable_sort (fun y x : Q => negb (Qle_bool x y)) qs) in *.
  assert (Hs : StronglySorted (fun x y => Qle x y) sorted).
  { assert (H : StronglySorted (in_order (fun y x : Q => negb (Qle_bool x y))) sorted).
    { apply stable_sort_sorted.
      - intros x y Hxy. apply negb_true_iff in Hxy. apply negb_false_iff.
        apply Qle_bool_iff. destruct (Qlt_le_dec y x) as [Hlt|Hle].
        + apply Qlt_le_weak, Qle_bool_iff in Hlt. congruence.
        + exact Hle.
      - unfold in_order. intros x y z Hxy Hyz.
        apply negb_false_iff, Qle_bool_iff in Hxy, Hyz.
        apply negb_false_iff, Qle_bool_iff. eapply Qle_trans; eassumption. }
    clear -H. induction H as [|x l Hl IH Hx]; constructor; [exact IH|].
    eapply Forall_impl; [exact Hx|]. unfold in_order. intros y Hy.
    now apply negb_false_iff, Qle_bool_iff in Hy. }
  assert (Hlen : length sorted = length (matchAll false re_price message)).
  { subst sorted. rewrite (Permutation_length (stable_sort_perm _ qs)).
    apply (f_equal (@length jsval)) in Hqs. now rewrite !length_map in Hqs. }
  subst q. unfold intent_of. cbv zeta. rewrite length_map.
  destruct (2 <=? length (matchAll false re_price message)) eqn:E2.
  - rewrite Hqs, Hsort. cbn [q_priceMin q_priceMax].
    apply Nat.leb_le in E2.
    assert (Hh : hd JUndefined (map JNum sorted) = JNum (hd 0%Q sorted)).
    { destruct sorted; [simpl in Hlen; lia | reflexivity]. }
    assert (Hl : List.last (map JNum sorted) JUndefined = JNum (List.last sorted 0%Q)).
    { clear -Hlen E2. destruct sorted as [|x l] using rev_ind; [simpl in Hlen; lia|].
      rewrite map_app. cbn [map]. now rewrite !last_last. }
    rewrite Hh, Hl. split.
    + intros a b [= <-] [= <-]. now apply sorted_ends.
    + intros _. eauto.
  - apply Nat.leb_gt in E2. split; [|lia].
    destruct (length (matchAll false re_price message) =? 1).
    + destruct (_ || _ || _); [cbn; discriminate|].
      destruct (_ || _ || _); cbn; intros a b; discriminate.
    + cbn. discriminate.
Qed.

(* ================================================================== *)
(** * What an accepted statement starts with *)
(* ================================================================== *)

Lemma upper_of_blank c : is_space c = true -> toUpperCase [c] = [c].
Proof.
  assert (H : forall c, implb (is_space c) (jsstring_eqb (toUpperCase [c]) [c]) = true).
  { apply forall_units. vm_compute. reflexivity. }
  intros Hc. specialize (H c). rewrite Hc in H. now apply jsstring_eqb_eq.
Qed.

Lemma upper_of_unit c :
  is_space c = false ->
  exists x r, toUpperCase [c] = x :: r /\ Forall (fun y => is_space y = false) (x :: r).
Proof.
  assert (H : forall c, implb (negb (is_space c))
                          (match toUpperCase [c] with
                           | x :: r => forallb (fun y => negb (is_space y)) (x :: r)
                           | [] => false
                           end) = true).
  { apply forall_units. vm_compute. reflexivity. }
  intros Hc. specialize (H c). rewrite Hc in H. cbn [negb implb] in H.
  destruct (toUpperCase [c]) as [|x r]; [discriminate|]. exists x, r. split; [reflexivity|].
  rewrite forallb_forall in H. apply List.Forall_forall. intros y Hy.
  specialize (H y Hy). now destruct (is_space y).
Qed.

Lemma toUpperCase_cons c s : toUpperCase (c :: s) = toUpperCase [c] ++ toUpperCase s.
Proof. exact (toUpperCase_app [c] s). Qed.

Lemma toUpperCase_trimStart s : toUpperCase (trimStart s) = trimStart (toUpperCase s).
Proof.
  induction s as [|c s IH]; [reflexivity|]. cbn [trimStart].
  rewrite (toUpperCase_cons c s). destruct (is_space c) eqn:Ec.
  - rewrite (upper_of_blank c Ec). cbn [app trimStart]. now rewrite Ec.
  - destruct (upper_of_unit c Ec) as (x & r & E & Hx). rewrite toUpperCase_cons, E.
    apply Forall_cons in Hx as [Hx _]. cbn [app trimStart]. now rewrite Hx.
Qed.

Lemma trimEnd_prefix s : exists r, s = trimEnd s ++ r.
Proof.
  unfold trimEnd. destruct (trimStart_suffix (rev s)) as [a Ha].
  exists (rev a). rewrite <- rev_app_distr, <- Ha. now rewrite rev_involutive.
Qed.

Lemma startsWith_app_l a b p : startsWith a p = true -> startsWith (a ++ b) p = true.
Proof.
  rewrite !startsWith_prefix. intros [r ->]. exists (r ++ b). now rewrite app_assoc.
Qed.

Lemma startsWith_app_inv a b p :
  startsWith (a ++ b) p = true ->
  startsWith a p = true \/ exists p', p = a ++ p' /\ startsWith b p' = true.
Proof.
  revert p. induction a as [|x a IH]; intros p H.
  - right. now exists p.
  - destruct p as [|y p]; [left; reflexivity|].
    cbn [app startsWith] in H |- *. apply andb_true_iff in H as [Hxy H].
    rewrite Hxy. apply ascii_eqb_eq in Hxy. subst y.
    destruct (IH p H) as [Hl|(p' & -> & Hp)]; [now left|].
    right. now exists p'.
Qed.

Lemma trimStart_squeeze s : trimStart (squeeze false s) = squeeze false (trimStart s).
Proof.
  destruct s as [|c s]; [reflexivity|]. simpl. destruct (is_space c) eqn:Ec.
  - simpl. clear c Ec. induction s as [|c s IH]; [reflexivity|]. simpl.
    destruct (is_space c) eqn:Ec; [exact IH|]. simpl. now rewrite Ec.
  - simpl. now rewrite Ec.
Qed.

Lemma startsWith_squeeze t : forall p,
  Forall (fun y => is_space y = false) p ->
  startsWith (toUpperCase (squeeze false t)) p = true ->
  startsWith (toUpperCase t) p = true.
Proof.
  induction t as [|c t IH]; intros p Hp H; [exact H|].
  cbn [squeeze] in H. destruct (is_space c) eqn:Ec.
  - destruct p as [|y p]; [now destruct (toUpperCase (c :: t))|]. exfalso.
    apply Forall_cons in Hp as [Hy _].
    rewrite toUpperCase_cons, (upper_of_blank " "%char eq_refl) in H.
    cbn [app startsWith] in H. apply andb_true_iff in H as [H _].
    apply ascii_eqb_eq in H. now subst y.
  - rewrite toUpperCase_cons in H |- *.
    apply startsWith_app_inv in H as [H|(p' & -> & H)].
    + now apply startsWith_app_l.
    + apply Forall_app in Hp as [_ Hp']. specialize (IH p' Hp' H).
      apply startsWith_prefix in IH as [r ->]. apply startsWith_prefix.
      exists r. now rewrite app_assoc.
Qed.

(** What [isSafeQuery] accepts starts with SELECT once it is trimmed and put
    in upper case, the test that [executeDynamicQuery] makes next. *)
Lemma accepted_starts_with_select s :
  isSafeQuery (JStr s) = true -> startsWith (trim (toUpperCase s)) (js "SELECT") = true.
Proof.
  intros H. unfold isSafeQuery, isSafeQuery_body in H. cbn [as_string obind] in H.
  cbv zeta in H. destruct (startsWith _ _) eqn:E; [clear H|discriminate].
  rewrite normalize_squeeze in E. unfold trim in E.
  destruct (trimEnd_prefix (trimStart (squeeze false s))) as [r Hr].
  apply (startsWith_app_l _ (toUpperCase r)) in E.
  rewrite <- toUpperCase_app, <- Hr, trimStart_squeeze in E.
  apply startsWith_squeeze in E;
    [|repeat (apply Forall_cons_2; [reflexivity|]); constructor].
  rewrite toUpperCase_trimStart in E. apply startsWith_prefix in E as [x E].
  unfold trim. rewrite E. apply startsWith_prefix.
  exists (trimEnd x).
  change (js "SELECT" ++ x) with ((js "SELEC" ++ ["T"%char]) ++ x).
  now rewrite trimEnd_app_word by reflexivity.
Qed.

Lemma awaited_from sql t q : awaited sql t q -> extends [From t] q.
Proof.
  unfold awaited. cbv zeta.
  assert (H : forall c q0, extends (From t :: c) q0 -> extends [From t] q0).
  { intros c q0 [fs ->]. exists (c ++ fs). reflexivity. }
  destruct (includes _ (js "COUNT(*)")); [|apply H].
  destruct (includes _ (js "GROUP BY")); [|apply H].
  destruct (exec true re_select _); apply H.
Qed.

Section Dynamic.
Variable store : query -> outcome response.
Variable JSON_stringify : row -> jsstring.

(** [executeDynamicQuery] makes no call at all for what [isSafeQuery]
    refuses.  What [isSafeQuery] accepts is a string that starts with SELECT
    once trimmed and put in upper case, so that the test for SELECT that
    comes next never refuses anything; the statement then goes to
    [parseAndExecuteSQL], which makes no call when it finds no table and
    otherwise awaits exactly one builder, made on the table it finds. *)
Theorem dynamic_query_awaits_once v w :
  let out := executeDynamicQuery store JSON_stringify v w in
  (isSafeQuery v = false ->
   out = (Ok (failure v None (js "Query contains unsafe operations")), w)) /\
  (forall s, v = JStr s -> isSafeQuery v = true ->
     startsWith (trim (toUpperCase s)) (js "SELECT") = true /\
     (table_of s = None -> snd out = w) /\
     (forall t, table_of s = Some t ->
        exists q new, snd out = Client (calls w ++ new) (sent w ++ [q]) /\
                      extends [From t] q)).
Proof.
  intros out. subst out. rewrite executeDynamicQuery_unfold. split.
  - now intros ->.
  - intros s -> Hs. pose proof (accepted_starts_with_select s Hs) as Hsel.
    rewrite Hs, Hsel. cbn [negb]. split; [reflexivity|]. unfold table_of. split.
    + intros Ht. unfold parseAndExecuteSQL.
      destruct (exec true re_from (cleanSQL s)); [discriminate|].
      now destruct (jsstring_eqb _ _).
    + intros t Ht.
      destruct (exec true re_from (cleanSQL s)) as [fromMatch|] eqn:Ef; [|discriminate].
      injection Ht as <-.
      destruct (parseAndExecuteSQL_shape store JSON_stringify s fromMatch Ef w)
        as (q & new & E & Hq & _).
      exists q, new. split; [|now apply (awaited_from s)].
      destruct (parseAndExecuteSQL store JSON_stringify s w) as [[a|e] w']; exact E.
Qed.
End Dynamic.

(* ================================================================== *)
(** * Semicolons at the end *)
(* ================================================================== *)

Section Leftmost.
Variable icase : bool.
Variable r : regex.

(** [search] finds the leftmost match: nothing matches at a place before. *)
Lemma search_leftmost : forall rst bef m,
  search icase r bef rst = Some m ->
  exists pre post,
    rst = pre ++ post /\ match_at icase r (rev pre ++ bef) post = Some m /\
    forall pre1 pre2, pre = pre1 ++ pre2 -> pre2 <> [] ->
      match_at icase r (rev pre1 ++ bef) (pre2 ++ post) = None.
Proof.
  induction rst as [|c rst IH]; intros bef m H; cbn [search] in H.
  - destruct (match_at icase r bef []) eqn:E; [|discriminate]. injection H as ->.
    exists [], []. split; [reflexivity|]. split; [exact E|].
    intros pre1 pre2 Hp Hne. symmetry in Hp. apply app_eq_nil in Hp as [_ ->]. congruence.
  - destruct (match_at icase r bef (c :: rst)) eqn:E.
    + injection H as ->. exists [], (c :: rst). split; [reflexivity|]. split; [exact E|].
      intros pre1 pre2 Hp Hne. symmetry in Hp. apply app_eq_nil in Hp as [_ ->]. congruence.
    + destruct (IH (c :: bef) m H) as (pre & post & -> & Hm & Hleft).
      exists (c :: pre), post. split; [reflexivity|]. split.
      * cbn [rev]. now rewrite <- app_assoc.
      * intros pre1 pre2 Hp Hne. destruct pre1 as [|x pre1].
        -- cbn [app] in Hp. subst pre2. exact E.
        -- injection Hp as <- Hp. cbn [rev]. rewrite <- app_assoc. now apply Hleft.
Qed.
End Leftmost.

Lemma semicolons_match bef rst m :
  match_at false re_semicolons bef rst = Some m ->
  rst <> [] /\ Forall (fun c => c = ";"%char) rst /\ rest (m_end m) = [].
Proof.
  intros H. apply match_at_sound in H as [Hs Hm]. rewrite Hs in Hm.
  unfold re_semicolons in Hm. cbn [seqs] in Hm.
  apply Matches_Seq_inv in Hm as (st1 & H1 & Hm).
  apply Matches_Seq_inv in Hm as (st2 & H2 & He).
  apply Matches_Eps_inv in He. apply Matches_Eos_inv in H2 as [-> H2].
  apply Matches_plus_chr in H1 as (w & Hne & [Hr _] & Hw & _).
  cbn [rest] in Hr. rewrite H2, app_nil_r in Hr. subst rst. rewrite He.
  split; [exact Hne|]. split; [|exact H2].
  eapply Forall_impl; [exact Hw|]. intros c Hc. simpl in Hc. now apply ascii_eqb_eq in Hc.
Qed.

Lemma semicolons_found bef c rst :
  Forall (fun c => c = ";"%char) (c :: rst) ->
  is_Some (match_at false re_semicolons bef (c :: rst)).
Proof.
  intros H.
  assert (Hp : Matches false (plus (ch ";")) (MState bef (c :: rst ++ []) [])
                       (MState (rev (c :: rst) ++ bef) [] [])).
  { apply Matches_plus_chr_intro.
    eapply Forall_impl; [exact H|]. intros x ->. reflexivity. }
  rewrite app_nil_r in Hp.
  eapply match_at_complete. unfold re_semicolons. cbn [seqs].
  eapply M_Seq; [exact Hp|]. eapply M_Seq; [now apply M_Eos | apply M_Eps].
Qed.

(** [s.replace(/;+$/, '')] drops the semicolons the text ends with, all of
    them and nothing else. *)
Lemma strip_semicolons s :
  exists semis,
    s = replace_first false re_semicolons [] s ++ semis /\
    Forall (fun c => c = ";"%char) semis /\
    ~ ends_with ";" (replace_first false re_semicolons [] s).
Proof.
  unfold replace_first, exec. destruct (search false re_semicolons [] s) as [m|] eqn:E.
  - apply search_leftmost in E as (pre & post & -> & Hm & Hleft).
    rewrite app_nil_r in Hm.
    pose proof (match_at_sound _ _ _ _ _ Hm) as [Hs _].
    apply semicolons_match in Hm as (Hne & Hsemi & Hend).
    rewrite Hs, Hend. cbn [before app]. rewrite rev_involutive, app_nil_r.
    exists post. split; [reflexivity|]. split; [exact Hsemi|].
    intros [t ->].
    specialize (Hleft t [";"%char] eq_refl ltac:(discriminate)).
    rewrite app_nil_r in Hleft.
    destruct (semicolons_found (rev t) ";" post) as [m' Hm'].
    + now constructor.
    + cbn [app] in Hleft. congruence.
  - exists []. split; [now rewrite app_nil_r|]. split; [constructor|].
    intros [t ->].
    assert (Hs : is_Some (search false re_semicolons [] (t ++ [";"%char]))).
    { apply (search_complete false re_semicolons t [] [";"%char]
               (MState (";"%char :: rev t ++ []) [] [])).
      unfold re_semicolons. cbn [seqs]. eapply M_Seq.
      - apply (Matches_plus_chr_intro false (CLit ";") ";" [] (rev t ++ []) [] []).
        now repeat constructor.
      - eapply M_Seq; [now apply M_Eos | apply M_Eps]. }
    destruct Hs as [m Hs]. congruence.
Qed.

Lemma ends_with_app a t b : ends_with a (t ++ [b]) -> a = b.
Proof. intros [t' E]. apply app_inj_tail in E as [_ E]. now symmetry. Qed.

(** The cut before the semicolons at the end is determined by the text. *)
Lemma strip_unique a1 a2 s1 s2 :
  a1 ++ s1 = a2 ++ s2 ->
  Forall (fun c => c = ";"%char) s1 -> Forall (fun c => c = ";"%char) s2 ->
  ~ ends_with ";" a1 -> ~ ends_with ";" a2 -> a1 = a2.
Proof.
  assert (Hend : forall a s, a <> [] -> Forall (fun c => c = ";"%char) (a ++ s) ->
                 ends_with ";" a).
  { intros a s Hne Hf. destruct (exists_last Hne) as (t & z & ->). exists t.
    rewrite <- app_assoc in Hf. apply Forall_app in Hf as [_ Hf].
    now apply Forall_cons in Hf as [-> _]. }
  revert a2. induction a1 as [|x a1 IH]; intros a2 E H1 H2 N1 N2.
  - destruct a2 as [|y a2]; [reflexivity|]. exfalso. cbn [app] in E. subst s1.
    apply N2. apply (Hend (y :: a2) s2); [discriminate | exact H1].
  - destruct a2 as [|y a2].
    + exfalso. cbn [app] in E. subst s2.
      apply N1. apply (Hend (x :: a1) s1); [discriminate | exact H2].
    + injection E as -> E. f_equal. apply (IH a2 E H1 H2).
      * intros [t Ht]. apply N1. exists (y :: t). now rewrite Ht.
      * intros [t Ht]. apply N2. exists (y :: t). now rewrite Ht.
Qed.

(** The statement that [generateSQLQuery] hands on ends with one semicolon
    and no more, and [parseAndExecuteSQL] cleans it to what it would clean
    the statement to before that semicolon was put: the semicolon put at the
    end is the one dropped again. *)
Theorem finished_statement_round_trip sqlQuery :
  let finished := finish_statement sqlQuery in
  (exists t, finished = t ++ js ";" /\ ~ ends_with ";" t) /\
  cleanSQL finished = cleanSQL sqlQuery /\
  (forall text, exists t,
     statement_of_answer text = t ++ js ";" /\ ~ ends_with ";" t /\
     cleanSQL (statement_of_answer text) = trim t).
Proof.
  assert (H : forall s, let t := replace_first false re_semicolons [] s in
              ~ ends_with ";" t /\
              replace_first false re_semicolons [] (t ++ js ";") = t).
  { intros s t. destruct (strip_semicolons s) as (semis & _ & _ & Hn). fold t in Hn.
    split; [exact Hn|].
    destruct (strip_semicolons (t ++ js ";")) as (semis' & E' & Hs' & Hn').
    symmetry. apply (strip_unique _ _ (js ";") semis'); try assumption.
    now repeat constructor. }
  intros finished. subst finished. unfold finish_statement. split; [|split].
  - eexists. split; [reflexivity|]. apply H.
  - unfold cleanSQL. now rewrite (proj2 (H sqlQuery)).
  - intros text. unfold statement_of_answer, finish_statement. cbv zeta.
    eexists. split; [reflexivity|]. split; [apply H|].
    unfold cleanSQL. now rewrite (proj2 (H _)).
Qed.

(* ================================================================== *)
(** * The texts the translator cuts out of a statement *)
(* ================================================================== *)

Lemma select_list_columns stmt :
  select_list stmt =
  match exec true re_select stmt with
  | Some m => (listed_columns (grp 1 m),
               startsWith (toUpperCase (trim (grp 1 m))) (js "DISTINCT "))
  | None => (js "*", false)
  end.
Proof.
  unfold select_list, listed_columns. destruct (exec true re_select stmt); [|reflexivity].
  cbv zeta. now destruct (startsWith _ _).
Qed.

Lemma upto_blank_word s : Forall (fun c => is_space c = false) (fst (upto_blank s)).
Proof.
  induction s as [|c s IH]; simpl; [constructor|].
  destruct (is_space c) eqn:Ec; [constructor|].
  destruct (upto_blank s) as [a b]. simpl in *. now constructor.
Qed.

Lemma skip_blanks_trimStart bef rst : snd (skip_blanks bef rst) = trimStart rst.
Proof.
  revert bef. induction rst as [|c rst IH]; intros bef; simpl; [reflexivity|].
  destruct (is_space c); [apply IH | reflexivity].
Qed.

(** The first piece of [t.split(/\s+/)] is [t] up to its first blank. *)
Lemma split_blanks_head : forall rst fuel piece bef,
  length rst < fuel ->
  hd [] (split_re_from false re_blanks fuel piece bef rst) =
  rev piece ++ fst (upto_blank rst).
Proof.
  induction rst as [|c rst IH]; intros fuel piece bef Hlt;
    (destruct fuel as [|fuel]; [simpl in Hlt; lia|]); cbn [split_re_from].
  - simpl. now rewrite app_nil_r.
  - rewrite match_at_blanks. cbn [upto_blank]. destruct (is_space c) eqn:Ec.
    + cbn [m_end before].
      pose proof (skip_blanks_length (c :: bef) rst) as [H1 _]. cbn [length] in H1.
      rewrite (proj2 (Nat.eqb_neq _ _)) by lia. cbn [andb hd fst].
      now rewrite app_nil_r.
    + rewrite IH by (simpl in Hlt; lia). destruct (upto_blank rst) as [a b].
      cbn [fst rev]. now rewrite <- app_assoc.
Qed.

Lemma split_re_blanks_head t :
  hd [] (split_re false re_blanks t) = first_word t.
Proof.
  destruct t as [|c t]; [reflexivity|]. unfold split_re, first_word.
  now rewrite split_blanks_head by lia.
Qed.

Lemma split_blanks_pieces : forall rst fuel piece bef,
  exists p ps, split_re_from false re_blanks fuel piece bef rst = p :: ps.
Proof.
  induction rst as [|c rst IH]; intros fuel piece bef; destruct fuel as [|fuel];
    cbn [split_re_from]; eauto.
  destruct (match_at false re_blanks bef (c :: rst)); [|apply IH].
  destruct (_ && _); [apply IH | eauto].
Qed.

Lemma split_blanks_direction : forall rst fuel piece bef,
  length rst < fuel ->
  direction_of (split_re_from false re_blanks fuel piece bef rst) =
  negb (jsstring_eqb (toUpperCase (second_word rst)) (js "DESC")).
Proof.
  induction rst as [|c rst IH]; intros fuel piece bef Hlt;
    (destruct fuel as [|fuel]; [simpl in Hlt; lia|]); cbn [split_re_from].
  - reflexivity.
  - rewrite match_at_blanks. unfold second_word. cbn [upto_blank].
    destruct (is_space c) eqn:Ec.
    + cbn [m_end before rest].
      pose proof (skip_blanks_length (c :: bef) rst) as [H1 H2]. cbn [length] in H1.
      rewrite (proj2 (Nat.eqb_neq _ _)) by lia. cbn [andb snd trimStart]. rewrite Ec.
      destruct (split_blanks_pieces (snd (skip_blanks (c :: bef) rst)) fuel []
                  (fst (skip_blanks (c :: bef) rst))) as (p & ps & E).
      pose proof (split_blanks_head (snd (skip_blanks (c :: bef) rst)) fuel []
                    (fst (skip_blanks (c :: bef) rst))) as Hh.
      rewrite E in Hh |- *. cbn [hd rev app] in Hh. cbn [direction_of].
      rewrite Hh by (simpl in Hlt; lia). now rewrite skip_blanks_trimStart.
    + rewrite IH by (simpl in Hlt; lia). unfold second_word.
      now destruct (upto_blank rst).
Qed.

Lemma split_re_blanks_direction t :
  direction_of (split_re false re_blanks t) =
  negb (jsstring_eqb (toUpperCase (second_word t)) (js "DESC")).
Proof.
  destruct t as [|c t]; [reflexivity|]. unfold split_re.
  now rewrite split_blanks_direction by lia.
Qed.

Lemma split_on_until_comma s : forall cur,
  hd [] (split_on "," cur s) = rev cur ++ until_comma s.
Proof.
  induction s as [|c s IH]; intros cur; simpl.
  - now rewrite app_nil_r.
  - destruct (ascii_eqb c ","); simpl; [now rewrite app_nil_r|].
    rewrite IH. simpl. now rewrite <- app_assoc.
Qed.

Lemma until_comma_prefix s : exists b, s = until_comma s ++ b.
Proof.
  induction s as [|c s [b IH]]; simpl; [now exists []|].
  destruct (ascii_eqb c ","); [now exists (c :: s)|]. exists b. simpl. now f_equal.
Qed.

Lemma until_comma_free s : Forall (fun c => c <> ","%char) (until_comma s).
Proof.
  induction s as [|c s IH]; simpl; [constructor|].
  destruct (ascii_eqb c ",") eqn:E; [constructor|]. constructor; [|exact IH].
  intros ->. now rewrite (proj2 (ascii_eqb_eq "," ",") eq_refl) in E.
Qed.

(** [applyOrderBy], in full. *)
Lemma applyOrderBy_exact q sql w :
  applyOrderBy q sql w =
  match exec true re_order sql with
  | None => (Ok q, w)
  | Some m =>
      let key := first_sort_key (grp 1 m) in
      let c := Order (first_word key)
                     (negb (jsstring_eqb (toUpperCase (second_word key)) (js "DESC"))) in
      (Ok (q ++ [c]), Client (calls w ++ [c]) (sent w))
  end.
Proof.
  unfold applyOrderBy. destruct (exec true re_order sql) as [m|]; [|reflexivity].
  cbv zeta. unfold first_sort_key, split. rewrite split_on_until_comma. cbn [rev app].
  rewrite split_re_blanks_head.
  change (match split_re false re_blanks ?t with
          | _ :: p1 :: _ => negb (jsstring_eqb (toUpperCase p1) (js "DESC"))
          | _ => true
          end) with (direction_of (split_re false re_blanks t)).
  now rewrite split_re_blanks_direction.
Qed.

(** ** Where the texts stand in the statement *)

Lemma group_after_tail n w st3 st4 cs :
  caps st3 = (n, w) :: cs -> caps st4 = caps st3 ->
  forall m, m_end m = st4 -> n <> 0 -> grp n m = w.
Proof.
  intros H3 H4 m <- Hn. unfold grp, group. destruct n; [congruence|].
  rewrite H4, H3. cbn [List.find fst]. now rewrite Nat.eqb_refl.
Qed.

(** The lazy [[\s\S]*?] stops at the first place where what follows can
    go on. *)
Lemma lazy_any_first {A} icase (k : mstate -> option A) x cs : forall fuel rst bef,
  length rst < fuel ->
  star_loop false (run icase (Chr CAny)) k fuel (MState bef rst cs) = Some x ->
  exists w tail,
    rst = w ++ tail /\ k (MState (rev w ++ bef) tail cs) = Some x /\
    forall w1 w2, w = w1 ++ w2 -> w2 <> [] ->
      k (MState (rev w1 ++ bef) (w2 ++ tail) cs) = None.
Proof.
  induction fuel as [|fuel IH]; intros rst bef Hlt H; [lia|].
  rewrite star_loop_S in H. cbv zeta in H.
  destruct (k (MState bef rst cs)) as [y|] eqn:Ek.
  - injection H as ->. exists [], rst. split; [reflexivity|]. split; [exact Ek|].
    intros w1 w2 E Hne. symmetry in E. apply app_eq_nil in E as [_ ->]. congruence.
  - destruct rst as [|c rst]; [discriminate|].
    cbn [run rest before caps cls_match length] in H.
    rewrite (proj2 (Nat.ltb_lt _ _)) in H by lia.
    apply IH in H as (w & tail & -> & Hk & Hmin); [|simpl in Hlt; lia].
    exists (c :: w), tail. split; [reflexivity|]. split.
    + cbn [rev]. now rewrite <- app_assoc.
    + intros w1 w2 E Hne. destruct w1 as [|c1 w1].
      * cbn [app] in E. subst w2. exact Ek.
      * injection E as <- E. cbn [rev]. rewrite <- app_assoc. now apply Hmin.
Qed.

(** A match of [K\s+([\s\S]*?)T]: the group is the shortest text after the
    keyword and the blanks that [T] can follow. *)
Lemma lazy_capture K T s m :
  (forall st st', Matches true T st st' -> caps st' = caps st) ->
  exec true (Seq (lit K) (Seq (plus blank) (Seq (Group 1 (lazy_star (Chr CAny))) T))) s
    = Some m ->
  exists a kw ws tail bef cs,
    s = a ++ kw ++ ws ++ grp 1 m ++ tail /\ ci_eq kw K /\ ws <> [] /\ blanks ws /\
    (exists st', Matches true T (MState (rev (grp 1 m) ++ bef) tail ((1, grp 1 m) :: cs)) st') /\
    forall p1 p2 st', grp 1 m = p1 ++ p2 -> p2 <> [] ->
      ~ Matches true T (MState (rev p1 ++ bef) (p2 ++ tail) ((1, p1) :: cs)) st'.
Proof.
  intros Hq Hm. unfold exec in Hm.
  apply search_leftmost in Hm as (pre & post & Hs & Hm & _).
  unfold match_at in Hm.
  set (kf := fun st' => Some (MResult (MState (rev pre ++ []) post []) st')) in Hm.
  change (run true (lit K)
            (run true (plus blank)
               (run true (Group 1 (lazy_star (Chr CAny))) (run true T kf)))
            (MState (rev pre ++ []) post []) = Some m) in Hm.
  apply run_sound in Hm as (st1 & H1 & Hm).
  apply run_sound in Hm as (st2 & H2 & Hm).
  apply Matches_lit in H1 as (kw & [Rk _] & Hk & _).
  apply Matches_plus_chr in H2 as (ws & Hne & [Rws _] & Hws & _).
  destruct st2 as [bef2 rst2 cs2]. cbn [rest] in Rk, Rws.
  change (star_loop false (run true (Chr CAny))
            (fun st' => run true T kf (set_cap 1 (MState bef2 rst2 cs2) st'))
            (S (length rst2)) (MState bef2 rst2 cs2) = Some m) in Hm.
  apply lazy_any_first in Hm as (w & tail & -> & Hk3 & Hmin); [|lia].
  assert (Hcap : forall p1 p2, w = p1 ++ p2 ->
            set_cap 1 (MState bef2 (w ++ tail) cs2) (MState (rev p1 ++ bef2) (p2 ++ tail) cs2)
            = MState (rev p1 ++ bef2) (p2 ++ tail) ((1, p1) :: cs2)).
  { intros p1 p2 ->. unfold set_cap. cbn [before rest caps]. f_equal. f_equal. f_equal.
    apply consumed_span. split; cbn [rest before]; [now rewrite <- app_assoc | reflexivity]. }
  pose proof (Hcap w [] (eq_sym (app_nil_r w))) as Hw. cbn [app] in Hw.
  rewrite Hw in Hk3. apply run_sound in Hk3 as (st5 & H5 & Hf).
  unfold kf in Hf. injection Hf as <-.
  assert (E : grp 1 (MResult (MState (rev pre ++ []) post []) st5) = w).
  { apply (group_after_tail 1 w (MState (rev w ++ bef2) tail ((1, w) :: cs2)) st5 cs2);
      [reflexivity | now apply Hq | reflexivity | discriminate]. }
  rewrite E. exists pre, kw, ws, tail, bef2, cs2.
  split; [now rewrite Hs, Rk, Rws|]. split; [exact Hk|]. split; [exact Hne|].
  split; [exact Hws|]. split; [now exists st5|].
  intros p1 p2 st' Ep Hp2 HM. specialize (Hmin p1 p2 Ep Hp2). cbv beta in Hmin.
  rewrite (Hcap p1 p2 Ep) in Hmin.
  destruct (run_complete true T _ _ HM kf) as [y Hy]; [unfold kf; eauto|]. congruence.
Qed.

Lemma tail_is_quiet rs :
  Forall (fun r => r = Eos \/ exists p, r = lit p) rs -> rs <> [] ->
  forall st st', Matches true (Seq (alts rs) Eps) st st' -> caps st' = caps st.
Proof.
  intros Hrs Hne st st' H. apply Matches_Seq_inv in H as (st1 & H & He).
  apply Matches_Eps_inv in He. subst st1.
  apply Matches_alts_inv in H as (r & Hin & H); [|exact Hne].
  rewrite Forall_forall in Hrs. apply list_elem_of_In in Hin.
  destruct (Hrs r Hin) as [->|[p ->]].
  - now apply Matches_Eos_inv in H as [-> _].
  - now apply Matches_lit in H as (_ & _ & _ & Hc).
Qed.

Lemma order_text_found sql m :
  exec true re_order sql = Some m -> is_order_text sql (grp 1 m).
Proof.
  intros Hm.
  assert (Hq : forall st st', Matches true (Seq (alts [lit (js "LIMIT"); Eos]) Eps) st st' ->
                 caps st' = caps st).
  { apply tail_is_quiet; [|discriminate].
    repeat (apply Forall_cons_2; [first [now left | right; eexists; reflexivity]|]).
    constructor. }
  destruct (lazy_capture (js "ORDER BY") _ sql m Hq Hm)
    as (a & kw & ws & tail & bef & cs & E & Hk & Hne & Hws & [st' Ht] & Hmin).
  exists a, kw, ws, tail. repeat (split; [assumption|]). split.
  - apply Matches_Seq_inv in Ht as (st1 & Ht & _).
    apply Matches_Alt_inv in Ht as [Ht|Ht].
    + apply Matches_lit in Ht as (l & [Rl _] & Hl & _). right. now exists l, (rest st1).
    + apply Matches_Eos_inv in Ht as [_ Ht]. now left.
  - intros p1 p2 Ep Hp2 [Hnil|(l & b & El & Hl)].
    + apply app_eq_nil in Hnil as [-> _]. congruence.
    + eapply (Hmin p1 p2 _ Ep Hp2). eapply M_Seq; [|constructor].
      apply M_AltL. rewrite El. apply Matches_lit_intro, Hl.
Qed.

Lemma where_text_found sql m :
  exec true re_where sql = Some m -> is_where_text sql (grp 1 m).
Proof.
  intros Hm.
  assert (Hq : forall st st',
            Matches true (Seq (alts [lit (js "ORDER BY"); lit (js "GROUP BY");
                                     lit (js "LIMIT"); Eos]) Eps) st st' ->
            caps st' = caps st).
  { apply tail_is_quiet; [|discriminate].
    repeat (apply Forall_cons_2; [first [now left | right; eexists; reflexivity]|]).
    constructor. }
  destruct (lazy_capture (js "WHERE") _ sql m Hq Hm)
    as (a & kw & ws & tail & bef & cs & E & Hk & Hne & Hws & [st' Ht] & Hmin).
  exists a, kw, ws, tail. repeat (split; [assumption|]). split.
  - apply Matches_Seq_inv in Ht as (st1 & Ht & _).
    apply Matches_alts_inv in Ht as (r & Hr & Ht); [|discriminate].
    destruct Hr as [<-|[<-|[<-|[<-|[]]]]];
      try (apply Matches_lit in Ht as (l & [Rl _] & Hl & _); right;
           exists l, (rest st1); split; [exact Rl | tauto]).
    apply Matches_Eos_inv in Ht as [_ Ht]. now left.
  - intros p1 p2 Ep Hp2 [Hnil|(l & b & El & Hl)].
    + apply app_eq_nil in Hnil as [-> _]. congruence.
    + eapply (Hmin p1 p2 _ Ep Hp2). eapply M_Seq; [|constructor]. rewrite El.
      destruct Hl as [Hl|[Hl|Hl]];
        (eapply Matches_alts_intro; [|apply Matches_lit_intro, Hl]); simpl; tauto.
Qed.

Lemma projection_found sql m :
  exec true re_select sql = Some m -> is_projection sql (grp 1 m).
Proof.
  intros Hm.
  assert (Hq : forall st st',
            Matches true (Seq (plus blank) (Seq (lit (js "FROM")) Eps)) st st' ->
            caps st' = caps st).
  { intros st st1 H. apply Matches_Seq_inv in H as (st2 & H2 & H).
    apply Matches_Seq_inv in H as (st3 & H3 & He). apply Matches_Eps_inv in He. subst st3.
    apply Matches_plus_chr in H2 as (_ & _ & _ & _ & C2).
    apply Matches_lit in H3 as (_ & _ & _ & C3). congruence. }
  destruct (lazy_capture (js "SELECT") _ sql m Hq Hm)
    as (a & kw & ws & tail & bef & cs & E & Hk & Hne & Hws & [st' Ht] & Hmin).
  exists a, kw, ws, tail. repeat (split; [assumption|]). split.
  - apply Matches_Seq_inv in Ht as (st1 & H1 & Ht).
    apply Matches_Seq_inv in Ht as (st2 & H2 & _).
    apply Matches_plus_chr in H1 as (ws2 & Hne2 & [R2 _] & Hws2 & _).
    apply Matches_lit in H2 as (kw2 & [R3 _] & Hk2 & _).
    exists ws2, kw2, (rest st2). cbn [rest] in R2. rewrite R2, R3.
    repeat (split; [assumption || reflexivity|]). assumption.
  - intros p1 p2 Ep Hp2 (ws2 & kw2 & b & El & Hne2 & Hws2 & Hk2).
    destruct ws2 as [|x ws2]; [congruence|].
    eapply (Hmin p1 p2 _ Ep Hp2). rewrite El.
    eapply M_Seq; [apply (Matches_plus_chr_intro true CSpace x ws2), Hws2|].
    eapply M_Seq; [apply Matches_lit_intro, Hk2 | constructor].
Qed.


Lemma any_units (w : jsstring) : Forall (fun x => cls_match true CAny x = true) w.
Proof. induction w; now constructor. Qed.

Lemma where_text_finds sql wt : is_where_text sql wt -> is_Some (exec true re_where sql).
Proof.
  intros (a & kw & ws & b & -> & Hk & Hne & Hws & Hb & _).
  destruct ws as [|x ws]; [congruence|].
  assert (Ht : exists st',
            Matches true (alts [lit (js "ORDER BY"); lit (js "GROUP BY");
                                lit (js "LIMIT"); Eos])
                    (MState (rev wt ++ rev (x :: ws) ++ rev kw ++ rev a) b
                            [(1, wt)]) st').
  { destruct Hb as [->|(l & b' & -> & Hl)].
    - eexists. eapply (Matches_alts_intro true Eos); [simpl; tauto|]. now constructor.
    - destruct Hl as [Hl|[Hl|Hl]]; eexists;
        (eapply Matches_alts_intro; [|apply Matches_lit_intro, Hl]); simpl; tauto. }
  destruct Ht as [st' Ht].
  eapply exec_complete. unfold re_where. cbn [seqs].
  eapply M_Seq; [apply Matches_lit_intro, Hk|].
  eapply M_Seq; [apply (Matches_plus_chr_intro true CSpace x ws), Hws|].
  eapply M_Seq.
  { apply M_Group. apply (Matches_star_chr_intro true false CAny wt), any_units. }
  eapply M_Seq; [|constructor].
  unfold set_cap. cbn [before rest caps].
  match goal with |- Matches _ _ (MState _ _ ((1, ?c) :: _)) _ =>
    replace c with wt; [exact Ht|] end.
  symmetry. apply consumed_span. split; reflexivity.
Qed.

Lemma projection_finds sql p : is_projection sql p -> is_Some (exec true re_select sql).
Proof.
  intros (a & kw1 & ws1 & tail & -> & Hk1 & Hne1 & Hws1 &
          (ws2 & kw2 & b & -> & Hne2 & Hws2 & Hk2) & _).
  destruct ws1 as [|x1 ws1]; [congruence|]. destruct ws2 as [|x2 ws2]; [congruence|].
  eapply exec_complete. unfold re_select. cbn [seqs].
  eapply M_Seq; [apply Matches_lit_intro, Hk1|].
  eapply M_Seq; [apply (Matches_plus_chr_intro true CSpace x1 ws1), Hws1|].
  eapply M_Seq.
  { apply M_Group. apply (Matches_star_chr_intro true false CAny p), any_units. }
  unfold set_cap. cbn [before rest caps].
  eapply M_Seq; [apply (Matches_plus_chr_intro true CSpace x2 ws2), Hws2|].
  eapply M_Seq; [apply Matches_lit_intro, Hk2|]. constructor.
Qed.

Lemma projection_of stmt :
  (~ (exists p, is_projection stmt p) /\ select_list stmt = (js "*", false)) \/
  exists p, is_projection stmt p /\
    select_list stmt =
      (listed_columns p, startsWith (toUpperCase (trim p)) (js "DISTINCT ")).
Proof.
  rewrite select_list_columns. destruct (exec true re_select stmt) as [m|] eqn:E.
  - right. exists (grp 1 m). split; [now apply projection_found | reflexivity].
  - left. split; [|reflexivity]. intros [p Hp].
    apply projection_finds in Hp as [m Hm]. congruence.
Qed.

Lemma where_text_of stmt :
  (~ (exists wt, is_where_text stmt wt) /\ where_text stmt = []) \/
  exists wt, is_where_text stmt wt /\ where_text stmt = trim wt.
Proof.
  unfold where_text. destruct (exec true re_where stmt) as [m|] eqn:E.
  - right. exists (grp 1 m). split; [now apply where_text_found | reflexivity].
  - left. split; [|reflexivity]. intros [wt Hw].
    apply where_text_finds in Hw as [m Hm]. congruence.
Qed.

(* ================================================================== *)
(** * The column of ORDER BY *)
(* ================================================================== *)

Lemma infix_prefix a b : infix a (a ++ b).
Proof. now exists [], b. Qed.

Lemma Forall_infix {A} (P : A -> Prop) (w s : list A) :
  (exists a b, s = a ++ w ++ b) -> Forall P s -> Forall P w.
Proof.
  intros (a & b & ->) H. apply Forall_app in H as [_ H]. now apply Forall_app in H as [H _].
Qed.

Lemma head_ok_trim s : head_ok (trim s) = true.
Proof.
  unfold trim. pose proof (head_ok_trimStart s) as H.
  destruct (trimEnd_prefix (trimStart s)) as [r E].
  destruct (trimEnd (trimStart s)) as [|c t]; [reflexivity|].
  rewrite E in H. exact H.
Qed.

Lemma first_word_nonempty key : head_ok key = true -> key <> [] -> first_word key <> [].
Proof.
  unfold first_word. destruct key as [|c key]; [congruence|]. simpl. intros Hc _.
  apply negb_true_iff in Hc. rewrite Hc. now destruct (upto_blank key).
Qed.

Lemma first_sort_key_infix o : infix (first_sort_key o) o.
Proof.
  unfold first_sort_key. destruct (until_comma_prefix (trim o)) as [b E].
  apply (infix_trans _ (until_comma (trim o))); [apply trim_infix|].
  apply (infix_trans _ (trim o)); [|apply trim_infix].
  rewrite E at 2. apply infix_prefix.
Qed.

Lemma order_text_infix sql o : is_order_text sql o -> infix o sql.
Proof.
  intros (a & kw & ws & b & -> & _). exists (a ++ kw ++ ws), b.
  now rewrite <- !app_assoc.
Qed.

(** [applyOrderBy] returns the builder unchanged when the statement has no
    ORDER BY, and otherwise adds exactly one [order] call.  The text it reads
    stands after ORDER BY and blanks and goes up to the first LIMIT, or to
    the end of the statement when there is none.  Of that text the column is the first word of the first
    sort key: what stands before the first comma, without the blanks around
    it, up to its first blank; it is empty only when that key is.  The order
    is descending exactly when the word after it is DESC, in whatever
    case.  So the column holds neither a blank nor a comma, and a second sort
    key never reaches the store. *)
Theorem order_column_is_a_token q sql w :
  (exec true re_order sql = None -> applyOrderBy q sql w = (Ok q, w)) /\
  (forall m, exec true re_order sql = Some m ->
     let key := trim (until_comma (trim (grp 1 m))) in
     let column := fst (upto_blank key) in
     let ascending := negb (jsstring_eqb (toUpperCase (second_word key)) (js "DESC")) in
     applyOrderBy q sql w =
       (Ok (q ++ [Order column ascending]),
        Client (calls w ++ [Order column ascending]) (sent w)) /\
     is_order_text sql (grp 1 m) /\
     (key <> [] -> column <> []) /\
     Forall (fun c => is_space c = false /\ c <> ","%char) column /\
     infix column sql).
Proof.
  rewrite applyOrderBy_exact. split.
  - intros ->. reflexivity.
  - intros m Hm. rewrite Hm. cbv zeta.
    fold (first_sort_key (grp 1 m)). fold (first_word (first_sort_key (grp 1 m))).
    set (key := first_sort_key (grp 1 m)).
    pose proof (order_text_found sql m Hm) as Ho.
    assert (Hin : infix (first_word key) key).
    { unfold first_word. rewrite (upto_blank_app key) at 2. apply infix_prefix. }
    assert (Hk : infix key (until_comma (trim (grp 1 m)))) by apply trim_infix.
    split; [reflexivity|]. split; [exact Ho|]. split; [|split].
    + apply first_word_nonempty, head_ok_trim.
    + apply Forall_forall. intros c Hc. split.
      * pose proof (upto_blank_word key) as Hw. rewrite Forall_forall in Hw. now apply Hw.
      * pose proof (Forall_infix _ _ _ (infix_trans _ _ _ Hin Hk)
                      (until_comma_free (trim (grp 1 m)))) as Hn.
        rewrite Forall_forall in Hn. now apply Hn.
    + apply (infix_trans _ key); [exact Hin|].
      apply (infix_trans _ (grp 1 m)); [apply first_sort_key_infix|].
      now apply order_text_infix.
Qed.

(* ================================================================== *)
(** * The calls that reach the store *)
(* ================================================================== *)







Section TranslatorCalls.
Variable store : query -> outcome response.
Variable JSON_stringify : row -> jsstring.

End TranslatorCalls.



(* ================================================================== *)
(** * The layout of a statement *)
(* ================================================================== *)

(** ** Units and texts *)

Lemma flat_unit_facts c :
  is_space (flat_unit c) = is_space c /\ is_word (flat_unit c) = is_word c /\
  is_digit (flat_unit c) = is_digit c /\
  (is_space c = false -> flat_unit c = c) /\
  canonicalize (flat_unit c) = flat_unit (canonicalize c) /\
  is_space (canonicalize c) = is_space c.
Proof.
  assert (H : forall c,
            ascii_eqb (flat_unit c) (flat_unit c) &&
            Bool.eqb (is_space (flat_unit c)) (is_space c) &&
            Bool.eqb (is_word (flat_unit c)) (is_word c) &&
            Bool.eqb (is_digit (flat_unit c)) (is_digit c) &&
            ascii_eqb (canonicalize (flat_unit c)) (flat_unit (canonicalize c)) &&
            Bool.eqb (is_space (canonicalize c)) (is_space c) = true).
  { apply forall_units. vm_compute. reflexivity. }
  specialize (H c). repeat (apply andb_true_iff in H as [H ?]).
  repeat split; try (now apply eqb_prop); try (now apply ascii_eqb_eq).
  intros Hc. unfold flat_unit. now rewrite Hc.
Qed.

Lemma flat_unit_space c : is_space c = true -> flat_unit c = " "%char.
Proof. intros H. unfold flat_unit. now rewrite H. Qed.

Lemma flat_unit_id c : is_space c = false -> flat_unit c = c.
Proof. intros H. unfold flat_unit. now rewrite H. Qed.

Lemma one_line_length s : length (one_line s) = length s.
Proof. apply length_map. Qed.

Lemma one_line_app a b : one_line (a ++ b) = one_line a ++ one_line b.
Proof. apply map_app. Qed.

Lemma one_line_rev s : one_line (rev s) = rev (one_line s).
Proof. apply map_rev. Qed.

Lemma one_line_id s : Forall (fun c => is_space c = false) s -> one_line s = s.
Proof.
  induction 1 as [|c s Hc _ IH]; [reflexivity|]. simpl. now rewrite flat_unit_id, IH.
Qed.

Lemma one_line_again s : one_line (one_line s) = one_line s.
Proof.
  induction s as [|c s IH]; [reflexivity|]. simpl. rewrite IH. f_equal.
  destruct (is_space c) eqn:E.
  - now rewrite (flat_unit_space c E).
  - now rewrite !(flat_unit_id c E).
Qed.

Lemma ascii_eqb_flat x a :
  is_space a = false -> ascii_eqb (flat_unit x) a = ascii_eqb x a.
Proof.
  intros Ha. destruct (is_space x) eqn:Ex.
  - rewrite (flat_unit_space x Ex).
    destruct (ascii_eqb " " a) eqn:E1.
    + apply ascii_eqb_eq in E1. subst a. discriminate.
    + destruct (ascii_eqb x a) eqn:E2; [|reflexivity].
      apply ascii_eqb_eq in E2. congruence.
  - now rewrite flat_unit_id.
Qed.

Lemma cls_match_flat icase c x :
  cls_free c = true -> cls_match icase c (flat_unit x) = cls_match icase c x.
Proof.
  intros Hc. destruct (flat_unit_facts x) as (Hs & Hw & Hd & _ & Hcan & Hsc).
  assert (Hl : forall a, is_space a = false ->
            (if icase then ascii_eqb (canonicalize (flat_unit x)) (canonicalize a)
             else ascii_eqb (flat_unit x) a) =
            (if icase then ascii_eqb (canonicalize x) (canonicalize a) else ascii_eqb x a)).
  { intros a Ha. destruct icase; [|now apply ascii_eqb_flat].
    rewrite Hcan. apply ascii_eqb_flat.
    destruct (flat_unit_facts a) as (_ & _ & _ & _ & _ & Hsa). now rewrite Hsa. }
  destruct c; simpl in *; try assumption; try reflexivity.
  - apply Hl. now apply negb_true_iff.
  - f_equal. apply Hl. now apply negb_true_iff.
Qed.

Lemma trimStart_one_line s : trimStart (one_line s) = one_line (trimStart s).
Proof.
  induction s as [|c s IH]; [reflexivity|]. simpl.
  destruct (flat_unit_facts c) as (-> & _). now destruct (is_space c).
Qed.

Lemma trim_one_line s : trim (one_line s) = one_line (trim s).
Proof.
  unfold trim, trimEnd.
  now rewrite trimStart_one_line, <- one_line_rev, trimStart_one_line, one_line_rev.
Qed.

Lemma toUpperCase_one_line s : toUpperCase (one_line s) = one_line (toUpperCase s).
Proof.
  induction s as [|c s IH]; [reflexivity|].
  change (one_line (c :: s)) with ([flat_unit c] ++ one_line s).
  rewrite toUpperCase_app, IH, (toUpperCase_cons c s), one_line_app. f_equal.
  destruct (is_space c) eqn:Ec.
  - rewrite (flat_unit_space c Ec), (upper_of_blank c Ec). simpl.
    now rewrite (flat_unit_space c Ec).
  - rewrite (flat_unit_id c Ec). destruct (upper_of_unit c Ec) as (x & r & -> & H).
    symmetry. now apply one_line_id.
Qed.

Lemma startsWith_one_line s p :
  Forall (fun c => is_space c = false) p ->
  startsWith (one_line s) p = startsWith s p.
Proof.
  intros Hp. revert s. induction Hp as [|y p Hy _ IH]; intros s; [now destruct s|].
  destruct s as [|x s]; [reflexivity|]. simpl. now rewrite ascii_eqb_flat, IH.
Qed.

Lemma includes_one_line s p :
  Forall (fun c => is_space c = false) p ->
  includes (one_line s) p = includes s p.
Proof.
  intros Hp. induction s as [|x s IH].
  - reflexivity.
  - change (one_line (x :: s)) with (flat_unit x :: one_line s). cbn [includes].
    rewrite IH. f_equal. apply (startsWith_one_line (x :: s) p Hp).
Qed.

Lemma jsstring_eqb_one_line s p :
  Forall (fun c => is_space c = false) p ->
  jsstring_eqb (one_line s) p = jsstring_eqb s p.
Proof.
  intros Hp. revert s. induction Hp as [|y p Hy _ IH]; intros [|x s]; try reflexivity.
  simpl. now rewrite ascii_eqb_flat, IH.
Qed.

Lemma split_on_one_line sep : is_space sep = false -> forall s cur,
  split_on sep (one_line cur) (one_line s) = map one_line (split_on sep cur s).
Proof.
  intros Hsep. induction s as [|c s IH]; intros cur; simpl.
  - now rewrite one_line_rev.
  - rewrite ascii_eqb_flat by exact Hsep. destruct (ascii_eqb c sep).
    + simpl. rewrite one_line_rev. f_equal. apply (IH []).
    + apply (IH (c :: cur)).
Qed.

Lemma split_one_line sep s :
  is_space sep = false -> split sep (one_line s) = map one_line (split sep s).
Proof. intros H. apply (split_on_one_line sep H s []). Qed.

Lemma join_one_line sep ps :
  is_space sep = false -> join sep (map one_line ps) = one_line (join sep ps).
Proof.
  intros Hsep. induction ps as [|p ps IH]; [reflexivity|].
  destruct ps as [|p' ps]; [reflexivity|].
  change (join sep (map one_line (p :: p' :: ps)))
    with (one_line p ++ sep :: join sep (map one_line (p' :: ps))).
  rewrite IH. change (join sep (p :: p' :: ps)) with (p ++ sep :: join sep (p' :: ps)).
  rewrite one_line_app. simpl. now rewrite (flat_unit_id sep Hsep).
Qed.

Lemma substring_from_one_line n s :
  substring_from n (one_line s) = one_line (substring_from n s).
Proof. unfold substring_from, one_line. now rewrite skipn_map. Qed.

Lemma take_digits_one_line s :
  take_digits (one_line s) = (fst (take_digits s), one_line (snd (take_digits s))).
Proof.
  induction s as [|c s IH]; [reflexivity|]. simpl.
  destruct (flat_unit_facts c) as (_ & _ & Hd & Hid & _). rewrite Hd.
  destruct (is_digit c) eqn:Ec; [|reflexivity].
  fold (one_line s). rewrite IH. destruct (take_digits s) as [d r]. simpl.
  f_equal. f_equal. apply Hid.
  assert (H : forall c, implb (is_digit c) (negb (is_space c)) = true).
  { apply forall_units. vm_compute. reflexivity. }
  specialize (H c). rewrite Ec in H. now apply negb_true_iff.
Qed.

Lemma parseInt_one_line s : parseInt (one_line s) = parseInt s.
Proof. unfold parseInt. rewrite take_digits_one_line. now destruct (take_digits s). Qed.

Lemma point_one_line {A} (r : jsstring) (f : jsstring -> A) (g : A) :
  match one_line r with "."%char :: r' => f r' | _ => g end =
  match r with "."%char :: r' => f (one_line r') | _ => g end.
Proof.
  destruct r as [|x r]; [reflexivity|].
  change (one_line (x :: r)) with (flat_unit x :: one_line r).
  destruct (is_space x) eqn:Ex.
  - rewrite (flat_unit_space x Ex).
    destruct x as [[] [] [] [] [] [] [] []]; try reflexivity; discriminate Ex.
  - now rewrite (flat_unit_id x Ex).
Qed.

Lemma parseFloat_one_line s : parseFloat (one_line s) = parseFloat s.
Proof.
  unfold parseFloat. rewrite take_digits_one_line.
  destruct (take_digits s) as [d r]. cbn [fst snd].
  rewrite (point_one_line r
             (fun r' => let (f, _) := take_digits r' in
                        let scale := Z.pow 10 (Z.of_nat (length f)) in
                        match d, f with
                        | [], [] => JNaN
                        | _, _ => JNum (Qred (Qmake (Z.of_N (digits_value 0 d) * scale
                                                      + Z.of_N (digits_value 0 f))
                                                    (Z.to_pos scale)))
                        end)).
  destruct r as [|x r]; [reflexivity|].
  destruct x as [[] [] [] [] [] [] [] []]; try reflexivity.
  rewrite take_digits_one_line. now destruct (take_digits r).
Qed.

(** ** The matcher on the one-line statement *)

Lemma input_flat st : input (flat_st st) = one_line (input st).
Proof. unfold input, flat_st. simpl. now rewrite one_line_app, one_line_rev. Qed.

Lemma set_cap_flat n st st1 :
  set_cap n (flat_st st) (flat_st st1) = flat_st (set_cap n st st1).
Proof.
  unfold set_cap, flat_st, consumed. simpl. f_equal. f_equal. f_equal.
  rewrite !one_line_length. unfold one_line. now rewrite firstn_map, map_rev.
Qed.

Lemma word_at_flat s : word_at (one_line s) = word_at s.
Proof.
  destruct s as [|c s]; [reflexivity|]. simpl.
  now destruct (flat_unit_facts c) as (_ & -> & _).
Qed.

Lemma at_word_boundary_flat st : at_word_boundary (flat_st st) = at_word_boundary st.
Proof. unfold at_word_boundary, flat_st. simpl. now rewrite !word_at_flat. Qed.

Lemma run_lit_app icase {A} a b (k : mstate -> option A) : forall st,
  run icase (lit (a ++ b)) k st = run icase (lit a) (run icase (lit b) k) st.
Proof.
  induction a as [|x a IH]; intros st; [reflexivity|]. cbn [app lit run].
  destruct (rest st) as [|y ys]; [reflexivity|].
  destruct (cls_match icase (CLit x) y); [apply IH | reflexivity].
Qed.

Lemma Matches_lit_app icase a b : forall st st1 st2,
  Matches icase (lit a) st st1 -> Matches icase (lit b) st1 st2 ->
  Matches icase (lit (a ++ b)) st st2.
Proof.
  induction a as [|x a IH]; intros st st1 st2 H1 H2; simpl in *.
  - apply Matches_Eps_inv in H1. now subst st1.
  - apply Matches_Seq_inv in H1 as (st0 & Hx & Ha).
    eapply M_Seq; [exact Hx|]. eapply IH; eassumption.
Qed.

Lemma keywords_are_capitals kw :
  In kw spaced_keywords ->
  Forall (fun a => is_capital a = true) kw /\ toUpperCase kw = kw.
Proof.
  intros [<-|[<-|[<-|[]]]]; (split; [repeat constructor | reflexivity]).
Qed.

Lemma keyword_text icase w kw :
  In kw spaced_keywords ->
  Forall2 (fun x a => cls_match icase (CLit a) x = true) w kw ->
  toUpperCase w = kw.
Proof.
  intros Hin Hw. destruct (keywords_are_capitals kw Hin) as [Hc Hu]. destruct icase.
  - now apply ci_eq_keyword.
  - assert (E : w = kw).
    { clear Hc Hu Hin. induction Hw as [|x a w kw Hx _ IH]; [reflexivity|].
      simpl in Hx. apply ascii_eqb_eq in Hx. now subst. }
    now subst.
Qed.

Section OneLine.
Variable icase : bool.
Context {A B : Type} (f : A -> B).
Variable s0 : jsstring.
Hypothesis kept : spaces_kept s0.

Lemma star_loop_one_line g r :
  (forall (k : mstate -> option A) (k' : mstate -> option B) st,
     input st = s0 ->
     (forall st', Matches icase r st st' -> k' (flat_st st') = f <$> k st') ->
     run icase r k' (flat_st st) = f <$> run icase r k st) ->
  forall fuel (k : mstate -> option A) (k' : mstate -> option B) st,
    input st = s0 ->
    (forall st', Matches icase (Star g r) st st' -> k' (flat_st st') = f <$> k st') ->
    star_loop g (run icase r) k' fuel (flat_st st) =
    f <$> star_loop g (run icase r) k fuel st.
Proof using Type.
  intros Hr fuel. induction fuel as [|fuel IH]; intros k k' st Hi Hk.
  - apply Hk. constructor.
  - rewrite !star_loop_S. cbv zeta.
    rewrite (Hr (fun st' => if length (rest st') <? length (rest st)
                            then star_loop g (run icase r) k fuel st' else None)
                (fun st' => if length (rest st') <? length (rest (flat_st st))
                            then star_loop g (run icase r) k' fuel st' else None) st Hi).
    + rewrite (Hk st (M_StarDone _ _ _ _)).
      destruct g.
      * now destruct (run icase r _ st).
      * now destruct (k st).
    + intros st1 H1. cbn [flat_st rest]. rewrite !one_line_length.
      destruct (length (rest st1) <? length (rest st)) eqn:E; [|reflexivity].
      apply Nat.ltb_lt in E. apply IH.
      * rewrite <- Hi. eapply Matches_input, H1.
      * intros st' H'. apply Hk. eapply M_StarMore; eassumption.
Qed.

Lemma run_one_line r :
  layout_free r ->
  forall (k : mstate -> option A) (k' : mstate -> option B) st,
    input st = s0 ->
    (forall st', Matches icase r st st' -> k' (flat_st st') = f <$> k st') ->
    run icase r k' (flat_st st) = f <$> run icase r k st.
Proof using kept.
  induction 1 as [|c Hc|r1 r2 _ IH1 _ IH2|r1 r2 _ IH1 _ IH2|g r _ IH|n r _ IH| |
                  |kw p Hin _ IHk _ IHp]; intros k k' st Hi Hk.
  - apply Hk. constructor.
  - destruct st as [bef [|x xs] cs]; [reflexivity|].
    cbn [run flat_st rest before caps one_line map]. rewrite (cls_match_flat icase c x Hc).
    destruct (cls_match icase c x) eqn:E; [|reflexivity].
    apply (Hk (MState (x :: bef) xs cs)). now constructor.
  - cbn [run]. apply IH1; [exact Hi|]. intros st1 H1. apply IH2.
    + rewrite <- Hi. eapply Matches_input, H1.
    + intros st2 H2. apply Hk. econstructor; eassumption.
  - cbn [run].
    rewrite (IH1 k k' st Hi) by (intros; apply Hk; now apply M_AltL).
    rewrite (IH2 k k' st Hi) by (intros; apply Hk; now apply M_AltR).
    now destruct (run icase r1 k st).
  - cbn [run flat_st rest]. rewrite one_line_length.
    now apply (star_loop_one_line g r IH).
  - cbn [run]. apply IH; [exact Hi|]. intros st1 H1.
    rewrite set_cap_flat. apply Hk. now constructor.
  - cbn [run]. rewrite at_word_boundary_flat.
    destruct (at_word_boundary st) eqn:E; [|reflexivity]. apply Hk. now constructor.
  - cbn [run flat_st rest]. destruct (rest st) eqn:E; [|reflexivity].
    apply Hk. now constructor.
  - rewrite !run_lit_app. apply IHk; [exact Hi|]. intros st1 H1.
    pose proof (Matches_input _ _ _ _ H1) as Hi1. rewrite Hi in Hi1.
    destruct st1 as [bef1 [|x xs] cs1]; [reflexivity|].
    cbn [lit run flat_st rest before caps one_line map].
    assert (Hx : flat_unit x = x).
    { destruct (is_space x) eqn:Ex; [|now apply flat_unit_id].
      rewrite (flat_unit_space x Ex). symmetry.
      apply Matches_lit in H1 as (w & [_ Hb] & Hw & _). cbn [before] in Hb.
      apply (kept (rev bef1) x xs kw (toUpperCase (rev (before st)))); try assumption.
      - now rewrite <- Hi1.
      - rewrite Hb, rev_app_distr, rev_involutive, toUpperCase_app.
        now rewrite (keyword_text icase w kw Hin Hw). }
    rewrite Hx. destruct (cls_match icase (CLit " ") x) eqn:E; [|reflexivity].
    rewrite <- Hx at 1.
    apply (IHp k k' (MState (x :: bef1) xs cs1)).
    + rewrite <- Hi1. unfold input. simpl. now rewrite <- app_assoc.
    + intros st2 H2. apply Hk. eapply Matches_lit_app; [exact H1|].
      simpl. eapply M_Seq; [|exact H2]. now constructor.
Qed.
End OneLine.

Lemma consumed_flat st st1 :
  consumed (flat_st st) (flat_st st1) = one_line (consumed st st1).
Proof.
  unfold consumed, flat_st. simpl.
  rewrite !one_line_length. unfold one_line. now rewrite firstn_map, map_rev.
Qed.

Lemma grp_flat n m : grp n (flat_m m) = one_line (grp n m).
Proof.
  unfold grp, group. destruct n as [|n].
  - simpl. apply consumed_flat.
  - cbn [flat_m m_end flat_st caps]. induction (caps (m_end m)) as [|[i w] cs IH];
      [reflexivity|].
    cbn [map List.find fst snd]. destruct (i =? S n); [reflexivity | exact IH].
Qed.

Lemma spaces_kept_infix a s : infix a s -> spaces_kept s -> spaces_kept a.
Proof.
  intros (x & y & ->) H a0 c b kw u -> Hc Hin Hu.
  apply (H (x ++ a0) c (b ++ y) kw (toUpperCase x ++ u)); try assumption.
  - now rewrite <- !app_assoc.
  - now rewrite toUpperCase_app, Hu, app_assoc.
Qed.

Lemma keeps_spaces_from_kept : forall s seen pre,
  seen = rev (toUpperCase pre) ->
  keeps_spaces_from seen s = true ->
  forall a c b kw u,
    s = a ++ c :: b -> is_space c = true -> In kw spaced_keywords ->
    toUpperCase (pre ++ a) = u ++ kw -> c = " "%char.
Proof.
  induction s as [|x s IH]; intros seen pre Hseen H a c b kw u Hs Hc Hin Hu.
  - now destruct a.
  - cbn [keeps_spaces_from] in H. apply andb_true_iff in H as [Hx H].
    destruct a as [|y a].
    + injection Hs as -> ->. rewrite app_nil_r in Hu.
      rewrite Hc in Hx. cbn [negb orb] in Hx. apply orb_true_iff in Hx as [Hx|Hx].
      * now apply ascii_eqb_eq.
      * apply negb_true_iff in Hx.
        assert (Ht : existsb (fun kw => startsWith seen (rev kw)) spaced_keywords = true).
        { apply existsb_exists. exists kw. split; [exact Hin|].
          apply startsWith_prefix. exists (rev u).
          now rewrite Hseen, Hu, rev_app_distr. }
        congruence.
    + injection Hs as -> ->.
      apply (IH (rev (toUpperCase [y]) ++ seen) (pre ++ [y])) with (a := a) (b := b)
                                                                   (kw := kw) (u := u);
        try assumption; try reflexivity.
      * now rewrite Hseen, toUpperCase_app, rev_app_distr.
      * now rewrite <- app_assoc.
Qed.

Lemma keeps_spaces_kept s : keeps_spaces s = true -> spaces_kept s.
Proof.
  intros H a c b kw u Hs Hc Hin Hu.
  now apply (keeps_spaces_from_kept s [] [] eq_refl H a c b kw u).
Qed.

Section OneLineSearch.
Variable icase : bool.
Variable r : regex.
Hypothesis free : layout_free r.

Lemma match_at_one_line bef rst :
  spaces_kept (rev bef ++ rst) ->
  match_at icase r (one_line bef) (one_line rst) = flat_m <$> match_at icase r bef rst.
Proof using free.
  intros Hk. unfold match_at.
  apply (run_one_line icase flat_m (rev bef ++ rst) Hk r free
           (fun st' => Some (MResult (MState bef rst []) st'))
           (fun st' => Some (MResult (MState (one_line bef) (one_line rst) []) st'))
           (MState bef rst [])); reflexivity.
Qed.

Lemma search_one_line : forall rst bef,
  spaces_kept (rev bef ++ rst) ->
  search icase r (one_line bef) (one_line rst) = flat_m <$> search icase r bef rst.
Proof using free.
  induction rst as [|c rst IH]; intros bef Hk.
  - pose proof (match_at_one_line bef [] Hk) as Hm. cbn [one_line map] in Hm.
    cbn [search one_line map]. rewrite Hm.
    now destruct (match_at icase r bef []).
  - change (one_line (c :: rst)) with (flat_unit c :: one_line rst). cbn [search].
    change (flat_unit c :: one_line rst) with (one_line (c :: rst)).
    rewrite (match_at_one_line bef (c :: rst) Hk).
    destruct (match_at icase r bef (c :: rst)); [reflexivity|]. cbn [fmap option_fmap option_map].
    apply (IH (c :: bef)). simpl. now rewrite <- app_assoc.
Qed.

Lemma exec_one_line s :
  spaces_kept s -> exec icase r (one_line s) = flat_m <$> exec icase r s.
Proof using free. intros H. apply (search_one_line s [] H). Qed.

Lemma matchAll_from_one_line : forall fuel bef rst,
  spaces_kept (rev bef ++ rst) ->
  matchAll_from icase r fuel (one_line bef) (one_line rst) =
  map flat_m (matchAll_from icase r fuel bef rst).
Proof using free.
  induction fuel as [|fuel IH]; intros bef rst Hk; [reflexivity|].
  cbn [matchAll_from]. rewrite (search_one_line rst bef Hk).
  destruct (search icase r bef rst) as [m|] eqn:E; [|reflexivity].
  cbn [fmap option_fmap option_map].
  assert (Hin : rev (before (m_end m)) ++ rest (m_end m) = rev bef ++ rst).
  { destruct (search_match_in _ _ _ _ _ E) as (Hi & _ & Hm).
    rewrite <- Hi, <- (Matches_input _ _ _ _ Hm). reflexivity. }
  cbn [flat_m m_end m_start flat_st before rest]. rewrite !one_line_length.
  destruct (length (before (m_end m)) =? length (before (m_start m))).
  - destruct (rest (m_end m)) as [|c rst'] eqn:Er; [reflexivity|].
    cbn [one_line map]. f_equal.
    apply (IH (c :: before (m_end m)) rst').
    simpl. rewrite <- app_assoc. simpl. now rewrite Hin.
  - cbn [map]. f_equal. apply IH. now rewrite Hin.
Qed.

Lemma matchAll_one_line s :
  spaces_kept s -> matchAll icase r (one_line s) = map flat_m (matchAll icase r s).
Proof using free.
  intros H. unfold matchAll. rewrite one_line_length.
  apply (matchAll_from_one_line (S (length s)) [] s H).
Qed.

Lemma split_re_from_one_line : forall fuel piece bef rst,
  spaces_kept (rev bef ++ rst) ->
  split_re_from icase r fuel (one_line piece) (one_line bef) (one_line rst) =
  map one_line (split_re_from icase r fuel piece bef rst).
Proof using free.
  induction fuel as [|fuel IH]; intros piece bef rst Hk.
  - simpl. now rewrite one_line_app, one_line_rev.
  - destruct rst as [|c rst].
    + simpl. now rewrite one_line_rev.
    + change (one_line (c :: rst)) with (flat_unit c :: one_line rst).
      cbn [split_re_from].
      change (flat_unit c :: one_line rst) with (one_line (c :: rst)).
      rewrite (match_at_one_line bef (c :: rst) Hk).
      assert (Hstep : spaces_kept (rev (c :: bef) ++ rst)).
      { simpl. now rewrite <- app_assoc. }
      destruct (match_at icase r bef (c :: rst)) as [m|] eqn:E.
      * cbn [fmap option_fmap option_map flat_m m_end flat_st before rest].
        rewrite !one_line_length.
        destruct ((length (before (m_end m)) =? length bef) && (length piece =? 0)).
        -- apply (IH (c :: piece) (c :: bef) rst Hstep).
        -- cbn [map]. rewrite one_line_rev. f_equal. apply (IH [] _ _).
           apply match_at_sound in E as [Hs Hm].
           pose proof (Matches_input _ _ _ _ Hm) as Hi. rewrite Hs in Hi.
           unfold input in Hi. cbn [before rest] in Hi. now rewrite Hi.
      * apply (IH (c :: piece) (c :: bef) rst Hstep).
Qed.

Lemma split_re_one_line s :
  spaces_kept s -> split_re icase r (one_line s) = map one_line (split_re icase r s).
Proof using free.
  intros H. destruct s as [|c s].
  - pose proof (match_at_one_line [] [] H) as Hm. cbn [one_line map] in Hm.
    cbn [split_re one_line map]. rewrite Hm.
    now destruct (match_at icase r [] []).
  - change (one_line (c :: s)) with (flat_unit c :: one_line s). unfold split_re.
    change (flat_unit c :: one_line s) with (one_line (c :: s)).
    rewrite one_line_length. apply (split_re_from_one_line _ [] [] (c :: s) H).
Qed.

Lemma replace_first_one_line by_ s :
  spaces_kept s ->
  replace_first icase r (one_line by_) (one_line s) =
  one_line (replace_first icase r by_ s).
Proof using free.
  intros H. unfold replace_first. rewrite (exec_one_line s H).
  destruct (exec icase r s) as [m|]; [|reflexivity].
  cbn [fmap option_fmap option_map flat_m m_start m_end flat_st before rest].
  now rewrite !one_line_app, one_line_rev.
Qed.
End OneLineSearch.

(** ** The expressions of the translator *)

Lemma lf_lit p : Forall (fun c => is_space c = false) p -> layout_free (lit p).
Proof.
  induction 1 as [|c p Hc _ IH]; simpl; [constructor|].
  constructor; [|exact IH]. constructor. simpl. now rewrite Hc.
Qed.

Ltac free_lit := apply lf_lit; repeat constructor.

Ltac layout :=
  repeat first
    [ match goal with
      | |- layout_free (lit (list_ascii_of_string "ORDER BY")) =>
          apply (lf_keyword (js "ORDER") (js "BY")); [simpl; tauto | free_lit | free_lit]
      | |- layout_free (lit (list_ascii_of_string "GROUP BY")) =>
          apply (lf_keyword (js "GROUP") (js "BY")); [simpl; tauto | free_lit | free_lit]
      | |- layout_free (lit _) => free_lit
      end
    | apply lf_Seq | apply lf_Alt | apply lf_Star | apply lf_Group
    | apply lf_Eps | apply lf_WordB | apply lf_Eos
    | apply lf_Chr; reflexivity ].

Lemma translator_expressions_free :
  layout_free re_semicolons /\ layout_free re_from /\ layout_free re_select /\
  layout_free re_where /\ layout_free re_eq_string /\ layout_free re_between /\
  layout_free re_ilike /\ layout_free re_order /\ layout_free re_limit /\
  layout_free re_blanks /\
  (forall op, Forall (fun c => is_space c = false) op -> layout_free (re_compare op)).
Proof.
  repeat split;
    try (unfold re_semicolons, re_from, re_select, re_where, re_eq_string, re_between,
           re_ilike, re_order, re_limit, re_blanks, number, plus, star, lazy_star, opt,
           digit, word, blank, ch;
         cbn [seqs alts]; layout).
  intros op Hop. unfold re_compare, number, plus, star, opt, digit, word, blank, ch.
  cbn [seqs]. repeat first [apply lf_Seq | apply lf_Alt | apply lf_Star | apply lf_Group
                           | apply lf_Eps | apply lf_Chr; reflexivity | now apply lf_lit].
Qed.

(* ================================================================== *)
(** * The plan of a statement *)
(* ================================================================== *)

Lemma applyWhereClause_exact q sql w :
  applyWhereClause q sql w =
  (Ok (q ++ where_calls sql), Client (calls w ++ where_calls sql) (sent w)).
Proof.
  unfold applyWhereClause, where_calls.
  destruct (exec true re_where sql) as [whereMatch|].
  2:{ unfold ret. now rewrite !app_nil_r, client_eta. }
  set (s := trim (grp 1 whereMatch)). cbv zeta.
  unfold bind. rewrite !for_each_invoke. simpl calls. simpl sent.
  destruct (exec true re_between s) as [betweenMatch|].
  - unfold invoke at 1 2. simpl. rewrite for_each_invoke. unfold ret. simpl.
    now rewrite <- !app_assoc.
  - unfold ret at 1. rewrite for_each_invoke. unfold ret. simpl.
    now rewrite <- !app_assoc.
Qed.

Lemma applyOrderBy_calls q sql w :
  applyOrderBy q sql w =
  (Ok (q ++ order_by_calls sql), Client (calls w ++ order_by_calls sql) (sent w)).
Proof.
  rewrite applyOrderBy_exact. unfold order_by_calls.
  destruct (exec true re_order sql); [reflexivity|]. now rewrite !app_nil_r, client_eta.
Qed.

Lemma applyLimit_calls q sql w :
  applyLimit q sql w =
  (Ok (q ++ limit_calls sql), Client (calls w ++ limit_calls sql) (sent w)).
Proof.
  unfold applyLimit, limit_calls.
  destruct (exec true re_limit sql); [reflexivity|].
  unfold ret. now rewrite !app_nil_r, client_eta.
Qed.

Section Plan.
Variable store : query -> outcome response.
Variable JSON_stringify : row -> jsstring.

(** [parseAndExecuteSQL], in full, for a statement that names a table. *)
Lemma parseAndExecuteSQL_exact sql w :
  is_Some (table_of sql) ->
  parseAndExecuteSQL store JSON_stringify sql w =
  (answer store (builder_of sql) (result_of JSON_stringify sql),
   Client (calls w ++ calls_of sql) (sent w ++ [builder_of sql])).
Proof.
  unfold table_of. intros [t Ht].
  unfold parseAndExecuteSQL, calls_of, builder_of, result_of, table_of, supabase_from.
  destruct (exec true re_from (cleanSQL sql)) as [fromMatch|]; [|discriminate].
  cbn [fmap option_fmap option_map default from_option id]. cbv zeta.
  set (stmt := cleanSQL sql). set (tn := grp 1 fromMatch).
  destruct (includes (toUpperCase stmt) (js "COUNT(*)")).
  - erewrite bind_ok; [|reflexivity]. erewrite bind_ok; [|reflexivity].
    erewrite bind_ok; [|apply applyWhereClause_exact].
    destruct (includes (toUpperCase stmt) (js "GROUP BY")).
    + destruct (exec true re_select stmt) as [selectMatch|].
      * erewrite bind_ok.
        2:{ erewrite bind_ok; [|reflexivity]. erewrite bind_ok; [|reflexivity].
            erewrite bind_ok; [|apply applyWhereClause_exact]. reflexivity. }
        rewrite (await_answer store). cbn [calls sent app].
        f_equal. f_equal. now rewrite <- !app_assoc.
      * erewrite bind_ok; [|reflexivity].
        rewrite (await_answer store). cbn [calls sent app].
        f_equal. f_equal. now rewrite <- !app_assoc.
    + erewrite bind_ok; [|reflexivity].
      rewrite (await_answer store). cbn [calls sent app].
      f_equal. f_equal. now rewrite <- !app_assoc.
  - destruct (select_list stmt) as [selectColumns isDistinct]. cbn [fst snd].
    erewrite bind_ok; [|reflexivity]. erewrite bind_ok; [|reflexivity].
    erewrite bind_ok; [|reflexivity].
    erewrite bind_ok; [|apply applyWhereClause_exact].
    erewrite bind_ok; [|apply applyOrderBy_calls].
    erewrite bind_ok; [|apply applyLimit_calls].
    rewrite (await_answer store _ (fun r =>
               ParsedResult (Some (final_rows JSON_stringify isDistinct r))
                            (length (final_rows JSON_stringify isDistinct r)))).
    cbn [calls sent app]. f_equal; [f_equal; now rewrite <- !app_assoc|].
    f_equal; [|f_equal]; now rewrite <- !app_assoc.
Qed.

(** A statement without a table makes no call. *)
Lemma parseAndExecuteSQL_no_table sql w :
  table_of sql = None ->
  snd (parseAndExecuteSQL store JSON_stringify sql w) = w.
Proof.
  unfold table_of, parseAndExecuteSQL.
  destruct (exec true re_from (cleanSQL sql)); [discriminate|]. intros _.
  now destruct (jsstring_eqb _ _).
Qed.
End Plan.

(** ** The plan of the one-line statement *)

Lemma groups_ok_infix icase s r : groups_ok icase s (fun _ w => infix w s) r.
Proof.
  induction r; simpl; auto. split; [assumption|].
  intros st st' w Hi _ Hs. rewrite <- Hi. eapply span_infix, Hs.
Qed.

(** What a group holds is a piece of the text. *)
Lemma grp_infix icase r s n m : match_in icase r s m -> infix (grp n m) s.
Proof.
  intros (Hi & Hc & Hm). unfold grp.
  destruct (group n m) as [w|] eqn:E; [|now exists [], s].
  destruct n as [|n]; simpl in E.
  - injection E as <-. destruct (Matches_span _ _ _ _ Hm) as [w Hw].
    rewrite (consumed_span _ _ _ Hw), <- Hi. eapply span_infix, Hw.
  - destruct (List.find _ (caps (m_end m))) as [[i x]|] eqn:F; [|discriminate].
    simpl in E. injection E as <-. apply find_some in F as [Hin _].
    apply (captures_typed icase s (fun _ w => infix w s) r _ _ Hm
             (groups_ok_infix icase s r) Hi) with (n := i); [|exact Hin].
    intros k v. rewrite Hc. intros [].
Qed.

Lemma app_split_blank (l1 l2 u1 u2 : jsstring) c :
  l1 ++ l2 = u1 ++ c :: u2 -> Forall (fun y => is_space y = false) l1 ->
  is_space c = true -> exists u1', u1 = l1 ++ u1' /\ l2 = u1' ++ c :: u2.
Proof.
  revert u1. induction l1 as [|y l1 IH]; intros u1 E Hl Hc.
  - now exists u1.
  - apply Forall_cons in Hl as [Hy Hl]. destruct u1 as [|z u1].
    + injection E as -> _. congruence.
    + injection E as -> E. destruct (IH u1 E Hl Hc) as (u1' & -> & ->). now exists u1'.
Qed.

Lemma upper_blank_split x : forall u1 c u2,
  toUpperCase x = u1 ++ c :: u2 -> is_space c = true ->
  exists a b, x = a ++ c :: b /\ toUpperCase a = u1 /\ toUpperCase b = u2.
Proof.
  induction x as [|y x IH]; intros u1 c u2 E Hc.
  - now destruct u1.
  - rewrite toUpperCase_cons in E. destruct (is_space y) eqn:Ey.
    + rewrite (upper_of_blank y Ey) in E. destruct u1 as [|z u1].
      * injection E as -> <-. now exists [], x.
      * injection E as <- E. destruct (IH u1 c u2 E Hc) as (a & b & -> & <- & <-).
        exists (y :: a), b. split; [reflexivity|]. split; [|reflexivity].
        now rewrite toUpperCase_cons, (upper_of_blank y Ey).
    + destruct (upper_of_unit y Ey) as (z & zs & Ez & Hz). rewrite Ez in E.
      destruct (app_split_blank _ _ _ _ _ E Hz Hc) as (u1' & -> & E').
      destruct (IH u1' c u2 E' Hc) as (a & b & -> & <- & <-).
      exists (y :: a), b. split; [reflexivity|]. split; [|reflexivity].
      now rewrite toUpperCase_cons, Ez.
Qed.

Lemma spaces_kept_upper x : spaces_kept x -> kept_upper (toUpperCase x).
Proof.
  intros H u1 c u2 kw v Hu Hc Hin Hv.
  destruct (upper_blank_split x u1 c u2 Hu Hc) as (a & b & -> & Ha & _).
  apply (H a c b kw v); try assumption; try reflexivity. now rewrite Ha.
Qed.

Lemma kept_upper_suffix u0 u : kept_upper (u0 ++ u) -> kept_upper u.
Proof.
  intros H u1 c u2 kw v -> Hc Hin ->.
  apply (H (u0 ++ v ++ kw) c u2 kw (u0 ++ v)); try assumption.
  - now rewrite <- !app_assoc.
  - now rewrite <- app_assoc.
Qed.

Lemma one_line_prefix p :
  Forall (fun c => is_space c = false) p ->
  forall u r, one_line u = p ++ r -> exists u', u = p ++ u' /\ one_line u' = r.
Proof.
  induction 1 as [|k p Hk _ IH]; intros u r E; [now exists u|].
  destruct u as [|y u]; [discriminate|]. injection E as Ey E.
  destruct (IH u r E) as (u' & -> & <-). exists u'. split; [|reflexivity].
  simpl. f_equal. destruct (is_space y) eqn:Hy.
  - rewrite (flat_unit_space y Hy) in Ey. subst k. discriminate.
  - now rewrite (flat_unit_id y Hy) in Ey.
Qed.

Lemma keyword_no_blank kw :
  In kw spaced_keywords -> Forall (fun c => is_space c = false) kw.
Proof. intros [<-|[<-|[<-|[]]]]; repeat constructor. Qed.

Lemma startsWith_keyword u kw p :
  kept_upper u -> In kw spaced_keywords -> Forall (fun c => is_space c = false) p ->
  startsWith (one_line u) (kw ++ " "%char :: p) = startsWith u (kw ++ " "%char :: p).
Proof.
  intros Hu Hin Hp. pose proof (keyword_no_blank kw Hin) as Hkw.
  apply eq_true_iff_eq. rewrite !startsWith_prefix. split.
  - intros [r E]. rewrite <- app_assoc in E.
    destruct (one_line_prefix kw Hkw u _ E) as (u' & -> & E').
    destruct u' as [|c u']; [discriminate|]. injection E' as Ec E'.
    destruct (one_line_prefix p Hp u' r E') as (u'' & -> & _).
    assert (Hc : is_space c = true).
    { destruct (is_space c) eqn:Hc; [reflexivity|].
      rewrite (flat_unit_id c Hc) in Ec. now subst c. }
    rewrite (Hu kw c (p ++ u'') kw [] eq_refl Hc Hin eq_refl).
    exists u''. now rewrite <- app_assoc.
  - intros [r ->]. exists (one_line r).
    rewrite !one_line_app. cbn [one_line map]. fold (one_line p).
    now rewrite (one_line_id kw Hkw), (one_line_id p Hp).
Qed.

Lemma includes_keyword u kw p :
  kept_upper u -> In kw spaced_keywords -> Forall (fun c => is_space c = false) p ->
  includes (one_line u) (kw ++ " "%char :: p) = includes u (kw ++ " "%char :: p).
Proof.
  intros Hu Hin Hp. induction u as [|x u IH].
  - reflexivity.
  - change (one_line (x :: u)) with (flat_unit x :: one_line u). cbn [includes].
    rewrite IH by (apply (kept_upper_suffix [x]), Hu). f_equal.
    apply (startsWith_keyword (x :: u) kw p Hu Hin Hp).
Qed.

Lemma upto_blank_one_line s :
  upto_blank (one_line s) = (one_line (fst (upto_blank s)), one_line (snd (upto_blank s))).
Proof.
  induction s as [|c s IH]; [reflexivity|].
  change (one_line (c :: s)) with (flat_unit c :: one_line s). cbn [upto_blank].
  destruct (flat_unit_facts c) as (-> & _). destruct (is_space c) eqn:Ec.
  - reflexivity.
  - rewrite IH. destruct (upto_blank s) as [a b]. simpl. now rewrite (flat_unit_id c Ec).
Qed.

Lemma until_comma_one_line s : until_comma (one_line s) = one_line (until_comma s).
Proof.
  induction s as [|c s IH]; [reflexivity|].
  change (one_line (c :: s)) with (flat_unit c :: one_line s). cbn [until_comma].
  rewrite ascii_eqb_flat by reflexivity. destruct (ascii_eqb c ","); [reflexivity|].
  simpl. now rewrite IH.
Qed.

Lemma first_sort_key_one_line o : first_sort_key (one_line o) = one_line (first_sort_key o).
Proof.
  unfold first_sort_key. now rewrite trim_one_line, until_comma_one_line, trim_one_line.
Qed.

Lemma first_word_one_line key : first_word (one_line key) = one_line (first_word key).
Proof. unfold first_word. now rewrite upto_blank_one_line. Qed.

Lemma second_word_one_line key : second_word (one_line key) = one_line (second_word key).
Proof.
  unfold second_word. rewrite upto_blank_one_line. cbn [fst snd].
  now rewrite trimStart_one_line, upto_blank_one_line.
Qed.

Lemma point_cases {A} (P : A -> Prop) (x : ascii) (a b : A) :
  P a -> P b -> P (match x with "."%char => a | _ => b end).
Proof. intros Ha Hb. destruct x as [[] [] [] [] [] [] [] []]; assumption. Qed.

Lemma flat_val_parseFloat s : flat_val (parseFloat s) = parseFloat s.
Proof.
  unfold parseFloat. destruct (take_digits s) as [d r].
  destruct r as [|x r]; [now destruct d|].
  apply (point_cases (fun v => flat_val v = v)).
  - destruct (take_digits r) as [f0 _]. destruct d, f0; reflexivity.
  - now destruct d.
Qed.

Lemma cleanSQL_one_line sql :
  spaces_kept sql -> cleanSQL (one_line sql) = one_line (cleanSQL sql).
Proof.
  intros H. unfold cleanSQL.
  rewrite <- trim_one_line. f_equal.
  apply (replace_first_one_line false re_semicolons
           (proj1 translator_expressions_free) [] sql H).
Qed.

Section FlatPlan.
Variable stmt : jsstring.
Hypothesis kept : spaces_kept stmt.

Lemma exec_group_kept icase r n m :
  exec icase r stmt = Some m -> spaces_kept (trim (grp n m)).
Proof using kept.
  intros E. apply (spaces_kept_infix _ stmt); [|exact kept].
  apply (infix_trans _ (grp n m)); [apply trim_infix|].
  eapply grp_infix, exec_sound, E.
Qed.

Lemma where_calls_one_line : where_calls (one_line stmt) = map flat_all (where_calls stmt).
Proof using kept.
  unfold where_calls.
  rewrite (exec_one_line true re_where (proj1 (proj2 (proj2 (proj2 translator_expressions_free)))) stmt kept).
  destruct (exec true re_where stmt) as [whereMatch|] eqn:E; [|reflexivity].
  cbn [fmap option_fmap option_map]. cbv zeta. rewrite grp_flat, trim_one_line.
  pose proof (exec_group_kept true re_where 1 whereMatch E) as Hw.
  set (wc := trim (grp 1 whereMatch)) in *.
  destruct translator_expressions_free as (_ & _ & _ & _ & Feq & Fbt & Fil & _ & _ & _ & Fcmp).
  rewrite (matchAll_one_line true re_eq_string Feq wc Hw).
  rewrite (matchAll_one_line true re_ilike Fil wc Hw).
  assert (Hc : forall op, In op [js "="; js "<"; js ">"; js ">="; js "<="] ->
            matchAll true (re_compare op) (one_line wc) =
            map flat_m (matchAll true (re_compare op) wc)).
  { intros op Hop. apply matchAll_one_line; [|exact Hw]. apply Fcmp.
    simpl in Hop. decompose [or] Hop; subst; try contradiction; repeat constructor. }
  rewrite !Hc by (simpl; tauto).
  rewrite (exec_one_line true re_between Fbt wc Hw).
  rewrite !map_app, !map_map.
  repeat (f_equal;
          [apply map_ext; intros m; cbn [flat_all flat_val];
           now rewrite ?grp_flat, ?parseFloat_one_line, ?flat_val_parseFloat|]).
  f_equal.
  - destruct (exec true re_between wc) as [b|]; [|reflexivity].
    cbn [fmap option_fmap option_map map flat_all].
    now rewrite !grp_flat, !parseFloat_one_line, !flat_val_parseFloat.
  - apply map_ext. intros m. cbn [flat_all flat_val]. now rewrite !grp_flat.
Qed.

Lemma order_by_calls_one_line :
  order_by_calls (one_line stmt) = map flat_all (order_by_calls stmt).
Proof using kept.
  unfold order_by_calls.
  destruct translator_expressions_free as (_ & _ & _ & _ & _ & _ & _ & Ford & _).
  rewrite (exec_one_line true re_order Ford stmt kept).
  destruct (exec true re_order stmt) as [m|]; [|reflexivity].
  cbn [fmap option_fmap option_map map flat_all]. cbv zeta.
  rewrite grp_flat, first_sort_key_one_line, first_word_one_line, second_word_one_line.
  rewrite toUpperCase_one_line, jsstring_eqb_one_line by repeat constructor.
  reflexivity.
Qed.

Lemma limit_calls_one_line : limit_calls (one_line stmt) = map flat_all (limit_calls stmt).
Proof using kept.
  unfold limit_calls.
  destruct translator_expressions_free as (_ & _ & _ & _ & _ & _ & _ & _ & Flim & _).
  rewrite (exec_one_line true re_limit Flim stmt kept).
  destruct (exec true re_limit stmt) as [m|]; [|reflexivity].
  cbn [fmap option_fmap option_map map flat_all].
  now rewrite grp_flat, parseInt_one_line.
Qed.

Lemma distinct_one_line p :
  spaces_kept p ->
  startsWith (toUpperCase (one_line p)) (js "DISTINCT ") =
  startsWith (toUpperCase p) (js "DISTINCT ").
Proof using Type.
  intros Hp. rewrite toUpperCase_one_line.
  apply (startsWith_keyword (toUpperCase p) (js "DISTINCT") []);
    [now apply spaces_kept_upper | simpl; tauto | constructor].
Qed.

Lemma listed_columns_one_line p :
  spaces_kept (trim p) -> listed_columns (one_line p) = one_line (listed_columns p).
Proof using Type.
  intros Hp. unfold listed_columns. cbv zeta.
  rewrite trim_one_line, (distinct_one_line (trim p) Hp).
  set (cols := if startsWith (toUpperCase (trim p)) (js "DISTINCT ")
               then trim (substring_from 9 (trim p)) else trim p).
  assert (E : (if startsWith (toUpperCase (trim p)) (js "DISTINCT ")
               then trim (substring_from 9 (one_line (trim p))) else one_line (trim p))
              = one_line cols).
  { unfold cols. destruct (startsWith _ _); [|reflexivity].
    now rewrite substring_from_one_line, trim_one_line. }
  rewrite E. rewrite jsstring_eqb_one_line, includes_one_line by repeat constructor.
  destruct (negb (jsstring_eqb cols (js "*")) && negb (includes cols (js "(")));
    [|reflexivity].
  rewrite split_one_line by reflexivity. rewrite map_map.
  rewrite <- (join_one_line "," (map trim (split "," cols))) by reflexivity.
  rewrite map_map. f_equal. apply map_ext. intros x. apply trim_one_line.
Qed.

Lemma select_list_one_line :
  select_list (one_line stmt) = (one_line (fst (select_list stmt)), snd (select_list stmt)).
Proof using kept.
  rewrite !select_list_columns.
  destruct translator_expressions_free as (_ & _ & Fsel & _).
  rewrite (exec_one_line true re_select Fsel stmt kept).
  destruct (exec true re_select stmt) as [m|] eqn:E; [|reflexivity].
  cbn [fmap option_fmap option_map fst snd].
  pose proof (exec_group_kept true re_select 1 m E) as Hp.
  rewrite grp_flat, (listed_columns_one_line _ Hp), trim_one_line.
  now rewrite (distinct_one_line _ Hp).
Qed.

Lemma grouped_select_one_line :
  match exec true re_select (one_line stmt) with
  | Some m => Some (trim (grp 1 m))
  | None => None
  end =
  match exec true re_select stmt with
  | Some m => Some (one_line (trim (grp 1 m)))
  | None => None
  end.
Proof using kept.
  destruct translator_expressions_free as (_ & _ & Fsel & _).
  rewrite (exec_one_line true re_select Fsel stmt kept).
  destruct (exec true re_select stmt) as [m|]; [|reflexivity].
  cbn [fmap option_fmap option_map]. now rewrite grp_flat, trim_one_line.
Qed.

Lemma table_one_line :
  grp 1 <$> exec true re_from (one_line stmt) =
  one_line <$> (grp 1 <$> exec true re_from stmt).
Proof using kept.
  destruct translator_expressions_free as (_ & Ffrom & _).
  rewrite (exec_one_line true re_from Ffrom stmt kept).
  destruct (exec true re_from stmt) as [m|]; [|reflexivity].
  cbn [fmap option_fmap option_map]. now rewrite grp_flat.
Qed.

Lemma count_test_one_line :
  includes (toUpperCase (one_line stmt)) (js "COUNT(*)") =
  includes (toUpperCase stmt) (js "COUNT(*)").
Proof using Type.
  rewrite toUpperCase_one_line. apply includes_one_line. repeat constructor.
Qed.

Lemma group_test_one_line :
  includes (toUpperCase (one_line stmt)) (js "GROUP BY") =
  includes (toUpperCase stmt) (js "GROUP BY").
Proof using kept.
  rewrite toUpperCase_one_line.
  apply (includes_keyword (toUpperCase stmt) (js "GROUP") (js "BY"));
    [now apply spaces_kept_upper | simpl; tauto | repeat constructor].
Qed.
End FlatPlan.

(** ** Semicolons at the end, and the one-line statement *)

Lemma cleanSQL_semicolons sql semis :
  Forall (fun c => c = ";"%char) semis -> cleanSQL (sql ++ semis) = cleanSQL sql.
Proof.
  intros Hs. unfold cleanSQL. f_equal.
  destruct (strip_semicolons sql) as (s1 & E1 & H1 & N1).
  destruct (strip_semicolons (sql ++ semis)) as (s2 & E2 & H2 & N2).
  apply (strip_unique _ _ s2 (s1 ++ semis)); try assumption.
  - rewrite <- E2, app_assoc. now rewrite <- E1.
  - apply Forall_app. now split.
Qed.

Lemma parseAndExecuteSQL_semicolons store JSON_stringify sql semis :
  Forall (fun c => c = ";"%char) semis ->
  parseAndExecuteSQL store JSON_stringify (sql ++ semis) =
  parseAndExecuteSQL store JSON_stringify sql.
Proof.
  intros Hs. unfold parseAndExecuteSQL. now rewrite (cleanSQL_semicolons sql semis Hs).
Qed.

Lemma plan_one_line sql :
  spaces_kept sql ->
  table_of (one_line sql) = one_line <$> table_of sql /\
  builder_of (one_line sql) = map flat_all (builder_of sql) /\
  calls_of (one_line sql) = map flat_all (calls_of sql) /\
  select_list (cleanSQL (one_line sql)) =
    (one_line (fst (select_list (cleanSQL sql))), snd (select_list (cleanSQL sql))) /\
  where_text (cleanSQL (one_line sql)) = one_line (where_text (cleanSQL sql)) /\
  limit_of (one_line sql) = limit_of sql /\
  forall JSON_stringify r,
    result_of JSON_stringify (one_line sql) r = result_of JSON_stringify sql r.
Proof.
  intros Hk.
  assert (Hc : spaces_kept (cleanSQL sql)).
  { apply (spaces_kept_infix _ sql); [apply cleanSQL_infix | exact Hk]. }
  pose proof (table_one_line (cleanSQL sql) Hc) as Ht.
  pose proof (where_calls_one_line (cleanSQL sql) Hc) as Hw.
  pose proof (order_by_calls_one_line (cleanSQL sql) Hc) as Ho.
  pose proof (limit_calls_one_line (cleanSQL sql) Hc) as Hl.
  pose proof (select_list_one_line (cleanSQL sql) Hc) as Hs.
  pose proof (grouped_select_one_line (cleanSQL sql) Hc) as Hg.
  pose proof (count_test_one_line (cleanSQL sql)) as Hcount.
  pose proof (group_test_one_line (cleanSQL sql) Hc) as Hgroup.
  assert (Htab : table_of (one_line sql) = one_line <$> table_of sql).
  { unfold table_of. now rewrite (cleanSQL_one_line sql Hk). }
  assert (Hb : builder_of (one_line sql) = map flat_all (builder_of sql)).
  { unfold builder_of. rewrite Htab, (cleanSQL_one_line sql Hk), Hcount, Hgroup, Hw, Ho, Hl, Hs.
    cbv zeta. cbn [fst].
    assert (Hd : default [] (one_line <$> table_of sql) = one_line (default [] (table_of sql))).
    { now destruct (table_of sql). }
    rewrite Hd.
    destruct (includes (toUpperCase (cleanSQL sql)) (js "COUNT(*)")).
    - rewrite map_app. f_equal.
      destruct (includes (toUpperCase (cleanSQL sql)) (js "GROUP BY")); [|reflexivity].
      destruct (exec true re_select (one_line (cleanSQL sql))) as [m'|],
               (exec true re_select (cleanSQL sql)) as [m|]; try discriminate;
        [|reflexivity].
      injection Hg as Hg. now rewrite Hg.
    - now rewrite !map_app. }
  split; [exact Htab|]. split; [exact Hb|]. split; [|split; [|split; [|split]]].
  - unfold calls_of. rewrite Hb, Htab, (cleanSQL_one_line sql Hk), Hcount, Hgroup, Hw.
    cbv zeta.
    assert (Hd : default [] (one_line <$> table_of sql) = one_line (default [] (table_of sql))).
    { now destruct (table_of sql). }
    rewrite Hd, map_app. f_equal.
    destruct (includes (toUpperCase (cleanSQL sql)) (js "COUNT(*)")); [|reflexivity].
    destruct (includes (toUpperCase (cleanSQL sql)) (js "GROUP BY")); [|reflexivity].
    destruct (exec true re_select (one_line (cleanSQL sql))) as [m'|],
             (exec true re_select (cleanSQL sql)) as [m|]; try discriminate;
      reflexivity.
  - now rewrite (cleanSQL_one_line sql Hk).
  - rewrite (cleanSQL_one_line sql Hk). unfold where_text.
    rewrite (exec_one_line true re_where
               (proj1 (proj2 (proj2 (proj2 translator_expressions_free)))) _ Hc).
    destruct (exec true re_where (cleanSQL sql)); [|reflexivity].
    cbn [fmap option_fmap option_map]. now rewrite grp_flat, trim_one_line.
  - unfold limit_of. rewrite (cleanSQL_one_line sql Hk).
    destruct translator_expressions_free as (_ & _ & _ & _ & _ & _ & _ & _ & Flim & _).
    rewrite (exec_one_line true re_limit Flim _ Hc).
    destruct (exec true re_limit (cleanSQL sql)); [|reflexivity].
    cbn [fmap option_fmap option_map]. now rewrite grp_flat, parseInt_one_line.
  - intros J r. unfold result_of.
    rewrite (cleanSQL_one_line sql Hk), Hcount, Hgroup, Hs. reflexivity.
Qed.

(** ** Names hold no blank *)

Lemma word_no_space c : is_word c = true -> is_space c = false.
Proof.
  assert (H : forall c, implb (is_word c) (negb (is_space c)) = true).
  { apply forall_units. vm_compute. reflexivity. }
  intros Hc. specialize (H c). rewrite Hc in H. now apply negb_true_iff.
Qed.

Lemma column_no_space text col :
  is_column text col -> Forall (fun x => is_space x = false) col.
Proof.
  intros (_ & Hw & _). eapply Forall_impl; [exact Hw|]. intros x. apply word_no_space.
Qed.

Lemma flat_all_names c : names_free c -> flat_all c = flat_call c.
Proof.
  destruct c; cbn [names_free flat_all flat_call]; intros H;
    rewrite ?(one_line_id _ H); reflexivity.
Qed.

Lemma map_flat_all cs : Forall names_free cs -> map flat_all cs = map flat_call cs.
Proof.
  induction 1 as [|c cs Hc _ IH]; [reflexivity|]. cbn [map].
  now rewrite (flat_all_names c Hc), IH.
Qed.

Lemma where_calls_names sql : Forall names_free (where_calls sql).
Proof.
  destruct (applyWhereClause_calls [] sql fresh) as (fs & E & Hfs).
  rewrite applyWhereClause_exact in E. injection E as E _. cbn [app] in E. subst fs.
  eapply Forall_impl; [exact Hfs|]. intros c Hc.
  destruct c; cbn [predicate_call names_free] in *; try exact I; try contradiction;
    destruct Hc as [Hc _]; eapply column_no_space, Hc.
Qed.

Lemma order_by_calls_names sql : Forall names_free (order_by_calls sql).
Proof.
  unfold order_by_calls. destruct (exec true re_order sql); [|constructor].
  apply Forall_cons_2; [|constructor]. apply upto_blank_word.
Qed.

Lemma limit_calls_names sql : Forall names_free (limit_calls sql).
Proof.
  unfold limit_calls. destruct (exec true re_limit sql); [|constructor].
  apply Forall_cons_2; [exact I | constructor].
Qed.

Lemma table_names sql : names_free (From (default [] (table_of sql))).
Proof.
  unfold table_of. destruct (exec true re_from (cleanSQL sql)) as [m|] eqn:E; [|constructor].
  cbn [fmap option_fmap option_map default from_option id names_free].
  apply exec_sound in E.
  assert (Hg : groups_ok true (cleanSQL sql) (where_group (cleanSQL sql)) re_from).
  { simpl. repeat match goal with |- _ /\ _ => split end; try exact I.
    intros. eapply word_token; eassumption. }
  destruct (match_in_group _ _ _ _ _ 1 E Hg eq_refl ltac:(discriminate)) as (t & Et & Ht).
  rewrite (grp_of_group _ _ _ Et). eapply column_no_space, Ht.
Qed.

Lemma plan_names sql : Forall names_free (builder_of sql) /\ Forall names_free (calls_of sql).
Proof.
  pose proof (table_names sql) as Ht.
  pose proof (where_calls_names (cleanSQL sql)) as Hw.
  pose proof (order_by_calls_names (cleanSQL sql)) as Ho.
  pose proof (limit_calls_names (cleanSQL sql)) as Hl.
  assert (Hb : Forall names_free (builder_of sql)).
  { unfold builder_of. cbv zeta.
    destruct (includes _ (js "COUNT(*)")).
    - apply Forall_app. split; [|exact Hw].
      destruct (includes _ (js "GROUP BY")); [destruct (exec true re_select _)|];
        (apply Forall_cons_2; [exact Ht|]); (apply Forall_cons_2; [exact I | constructor]).
    - apply Forall_cons_2; [exact Ht|]. apply Forall_cons_2; [exact I|].
      cbn [app]. apply Forall_app. split; [exact Hw|]. apply Forall_app. now split. }
  split; [exact Hb|]. unfold calls_of. cbv zeta. apply Forall_app. split; [|exact Hb].
  destruct (includes _ (js "COUNT(*)")).
  - destruct (includes _ (js "GROUP BY")); [|constructor].
    destruct (exec true re_select _); [|constructor].
    apply Forall_cons_2; [exact Ht|]. apply Forall_cons_2; [exact I | exact Hw].
  - apply Forall_cons_2; [exact Ht | constructor].
Qed.

Lemma table_of_word sql t :
  table_of sql = Some t -> Forall (fun x => is_space x = false) t.
Proof.
  intros E. pose proof (table_names sql) as H. now rewrite E in H.
Qed.

(** C6, as stated, fails: a statement over several lines is not always read
    as the same statement on one line.  With a line break after DISTINCT the
    keyword stays in the argument of [select] and the rows are not filtered;
    with a line break inside ORDER BY no [order] call is made; and [SELECT 1]
    with a line break in it is a parse error, where on one line it is
    answered with a row. *)
Lemma line_breaks_change_the_parse :
  (select_list (cleanSQL distinct_on_two_lines) =
     (js "DISTINCT" ++ LF :: js "category", false) /\
   select_list (cleanSQL (one_line distinct_on_two_lines)) = (js "category", true)) /\
  (sent (snd (parseAndExecuteSQL three_rows_store (fun _ => []) order_by_on_two_lines
                fresh)) = [[From (js "items"); Select (js "*") None]] /\
   sent (snd (parseAndExecuteSQL three_rows_store (fun _ => [])
                (one_line order_by_on_two_lines) fresh)) =
     [[From (js "items"); Select (js "*") None; Order (js "price") true]]) /\
  keeps_spaces distinct_on_two_lines = false /\
  keeps_spaces order_by_on_two_lines = false /\
  parseAndExecuteSQL three_rows_store (fun _ => []) select_1_on_two_lines fresh =
    (Throw (Error (js "Could not parse table name from query")), fresh) /\
  parseAndExecuteSQL three_rows_store (fun _ => []) (one_line select_1_on_two_lines) fresh =
    (Ok (ParsedResult (Some [[(js "result", JNum 1)]]) 1), fresh).
Proof. repeat split; vm_compute; reflexivity. Qed.

(** C6, amended: take a statement in which every blank that follows ORDER,
    GROUP or DISTINCT is a space, with any number of semicolons after it, and
    the same statement on one line, each of its blanks replaced by a space
    and the semicolons left out.  Both are read alike: the same table, the
    same limit, and the projection and the WHERE text of the one are those of
    the other with their blanks replaced by spaces; [parseAndExecuteSQL] makes
    the same calls and awaits the same builder for both, up to the blanks
    inside the projection and inside the quoted strings, and returns the
    same when the store answers both builders alike, for a statement that
    names a table.  The
    projection is [*] when no text of the statement stands between a SELECT
    and a FROM with blanks on both sides; otherwise it comes from such a
    text, the blanks being of any kind, line breaks among them, and the text
    the shortest one after SELECT and its blanks that blanks and FROM follow.
    The WHERE text likewise is the shortest text after WHERE and blanks of
    any kind that ORDER BY, GROUP BY, LIMIT or the end of the statement
    follows.  So the statement of scenario 4, over four lines and with its
    semicolon, is read exactly as the statement of scenario 3. *)
Theorem multiline_parses_alike store JSON_stringify sql semis w :
  keeps_spaces sql = true ->
  Forall (fun c => c = ";"%char) semis ->
  let multi := sql ++ semis in
  let single := one_line sql in
  table_of single = table_of multi /\
  select_list (cleanSQL single) =
    (one_line (fst (select_list (cleanSQL multi))), snd (select_list (cleanSQL multi))) /\
  where_text (cleanSQL single) = one_line (where_text (cleanSQL multi)) /\
  limit_of single = limit_of multi /\
  (exists new qs,
     snd (parseAndExecuteSQL store JSON_stringify multi w) =
       Client (calls w ++ new) (sent w ++ qs) /\
     snd (parseAndExecuteSQL store JSON_stringify single w) =
       Client (calls w ++ map flat_call new) (sent w ++ map (map flat_call) qs) /\
     (is_Some (table_of multi) ->
      Forall (fun q => store (map flat_call q) = store q) qs ->
      fst (parseAndExecuteSQL store JSON_stringify single w) =
      fst (parseAndExecuteSQL store JSON_stringify multi w))) /\
  ((~ (exists p, is_projection (cleanSQL multi) p) /\
    select_list (cleanSQL multi) = (js "*", false)) \/
   exists p, is_projection (cleanSQL multi) p /\
     select_list (cleanSQL multi) =
       (listed_columns p, startsWith (toUpperCase (trim p)) (js "DISTINCT "))) /\
  ((~ (exists wt, is_where_text (cleanSQL multi) wt) /\ where_text (cleanSQL multi) = []) \/
   exists wt, is_where_text (cleanSQL multi) wt /\ where_text (cleanSQL multi) = trim wt) /\
  (table_of scenario4 = table_of scenario3 /\
   select_list (cleanSQL scenario4) = select_list (cleanSQL scenario3) /\
   where_text (cleanSQL scenario4) = where_text (cleanSQL scenario3) /\
   limit_of scenario4 = limit_of scenario3 /\
   parseAndExecuteSQL store JSON_stringify scenario4 w =
   parseAndExecuteSQL store JSON_stringify scenario3 w).
Proof.
  intros Hk Hs multi single. subst multi single.
  assert (Hscenario :
            table_of scenario4 = table_of scenario3 /\
            select_list (cleanSQL scenario4) = select_list (cleanSQL scenario3) /\
            where_text (cleanSQL scenario4) = where_text (cleanSQL scenario3) /\
            limit_of scenario4 = limit_of scenario3 /\
            parseAndExecuteSQL store JSON_stringify scenario4 w =
            parseAndExecuteSQL store JSON_stringify scenario3 w).
  { repeat split; vm_compute; reflexivity. }
  apply keeps_spaces_kept in Hk.
  destruct (plan_one_line sql Hk) as (Ht & Hb & Hc & Hsel & Hw & Hl & Hr).
  unfold table_of, limit_of in *.
  rewrite (parseAndExecuteSQL_semicolons store JSON_stringify sql semis Hs).
  rewrite (cleanSQL_semicolons sql semis Hs).
  fold (table_of sql) in *. fold (table_of (one_line sql)) in Ht.
  destruct (plan_names sql) as [Nb Nc].
  rewrite (map_flat_all _ Nb) in Hb. rewrite (map_flat_all _ Nc) in Hc.
  assert (Ht' : table_of (one_line sql) = table_of sql).
  { rewrite Ht. destruct (table_of sql) as [t|] eqn:Et; [|reflexivity].
    cbn [fmap option_fmap option_map]. now rewrite (one_line_id t (table_of_word sql t Et)). }
  split; [exact Ht'|]. split; [exact Hsel|]. split; [exact Hw|]. split; [exact Hl|].
  split; [|split; [apply projection_of | split; [apply where_text_of | exact Hscenario]]].
  destruct (table_of sql) as [t|] eqn:Et.
  - exists (calls_of sql), [builder_of sql].
    rewrite (parseAndExecuteSQL_exact store JSON_stringify sql w) by (rewrite Et; eauto).
    rewrite (parseAndExecuteSQL_exact store JSON_stringify (one_line sql) w)
      by (rewrite Ht; eauto).
    rewrite Hb, Hc. split; [reflexivity|]. split; [reflexivity|].
    intros _ Hq. apply Forall_cons in Hq as [Hq _]. cbn [fst].
    unfold answer. rewrite Hq. destruct (store (builder_of sql)) as [r|e]; [|reflexivity].
    destruct (r_error r); [reflexivity|]. now rewrite Hr.
  - exists [], [].
    rewrite (parseAndExecuteSQL_no_table store JSON_stringify sql w Et).
    rewrite (parseAndExecuteSQL_no_table store JSON_stringify (one_line sql) w Ht).
    cbn [map]. rewrite !app_nil_r, client_eta.
    split; [reflexivity|]. split; [reflexivity|]. intros [x Hx]. discriminate.
Qed.

Lemma multiline_parses_alike_witness :
  keeps_spaces scenario4_lines = true /\
  scenario4 = scenario4_lines ++ js ";" /\
  one_line scenario4_lines = scenario3 /\
  table_of scenario4 = table_of scenario3 /\
  select_list (cleanSQL scenario4) = select_list (cleanSQL scenario3) /\
  where_text (cleanSQL scenario4) = where_text (cleanSQL scenario3) /\
  limit_of scenario4 = limit_of scenario3 /\
  snd (parseAndExecuteSQL three_rows_store (fun _ => []) scenario4 fresh) =
    Client (From (js "items") :: plan3) [plan3] /\
  parseAndExecuteSQL three_rows_store (fun _ => []) scenario3 fresh =
  parseAndExecuteSQL three_rows_store (fun _ => []) scenario4 fresh.
Proof.
  assert (Hk : keeps_spaces scenario4_lines = true) by (vm_compute; reflexivity).
  assert (Hs : Forall (fun c => c = ";"%char) (js ";")) by (repeat constructor).
  destruct (multiline_parses_alike three_rows_store (fun _ => []) scenario4_lines (js ";")
              fresh Hk Hs) as (Ht & Hsel & Hw & Hl & (new & qs & E1 & E2 & Hr) & _).
  change (scenario4_lines ++ js ";") with scenario4 in *.
  change (one_line scenario4_lines) with scenario3 in *.
  assert (Et : table_of scenario4 = Some (js "items")) by (vm_compute; reflexivity).
  assert (Es : select_list (cleanSQL scenario4) = (js "*", false))
    by (vm_compute; reflexivity).
  assert (Ew : where_text (cleanSQL scenario4) = js "price < 50")
    by (vm_compute; reflexivity).
  assert (E4 : snd (parseAndExecuteSQL three_rows_store (fun _ => []) scenario4 fresh) =
               Client (From (js "items") :: plan3) [plan3]) by (vm_compute; reflexivity).
  split; [exact Hk|]. split; [reflexivity|]. split; [reflexivity|].
  split; [now rewrite Ht|]. split; [now rewrite Hsel, Es|].
  split; [now rewrite Hw, Ew|]. split; [now rewrite Hl|]. split; [exact E4|].
  rewrite E4 in E1. cbn [fresh calls sent app] in E1. injection E1 as <- <-.
  apply injective_projections; [|now rewrite E2, E4].
  apply Hr; [rewrite Et; eauto|]. repeat constructor.
Defined.

(* ================================================================== *)
(** * Failures are results *)
(* ================================================================== *)

Section FailureResults.
Variable store : query -> outcome response.
Variable JSON_stringify : row -> jsstring.
Variable ToString : jsval -> jsstring.

(** The three ways of [executeQuery] with a statement it accepts. *)
Lemma executeQuery_cases s params w :
  isSafeQuery (JStr s) = true ->
  executeQuery store ToString (JStr s) params w =
  if on_items s
  then (Ok (settled (JStr s) params
              (answer store (items_builder s params) (items_result s))),
        Client (calls w ++ items_builder s params) (sent w ++ [items_builder s params]))
  else if includes (toUpperCase (normalize s)) (js "SELECT DISTINCT CATEGORY")
  then (Ok (settled (JStr s) params (distinct_answer store ToString)),
        Client (calls w ++ categories_query) (sent w ++ [categories_query]))
  else (Ok (failure (JStr s) (Some params) (js "Unsupported query type")), w).
Proof.
  intros Hs. destruct (on_items s) eqn:Hi.
  { now rewrite executeQuery_items by assumption. }
  unfold executeQuery. rewrite Hs. cbn [negb].
  destruct (includes (toUpperCase (normalize s)) (js "SELECT DISTINCT CATEGORY")) eqn:Hd.
  - apply with_result_exact.
    unfold lift, as_string. erewrite bind_ok; [|reflexivity]. cbv zeta.
    unfold on_items in Hi. rewrite Hi, Hd. apply distinct_category_branch_exact.
  - rewrite (with_result_exact _ _ _ w (Throw (Error (js "Unsupported query type"))) w);
      [reflexivity|].
    unfold lift, as_string. erewrite bind_ok; [|reflexivity]. cbv zeta.
    unfold on_items in Hi. now rewrite Hi, Hd.
Qed.

(** C4: every way the pipeline fails ends in a result object with
    [success = false] and an error message, never in an exception, and such
    a result carries no rows.  For [executeDynamicQuery] and for
    [executeQuery] alike: a statement the validator refuses, a statement
    without a table name or of no supported shape, an exception of the store
    and an error in its response each give the failure with the message of
    that error; a result with [success = true] comes only from a response
    without error, and the statement for the categories fails as well when
    that response holds no rows to go through. *)
Theorem failures_are_structured sqlQuery w :
  exists res,
    fst (executeDynamicQuery store JSON_stringify sqlQuery w) = Ok res /\
    well_formed_result res /\
    (isSafeQuery sqlQuery = false ->
     res = failure sqlQuery None (js "Query contains unsafe operations")) /\
    (forall sql, sqlQuery = JStr sql -> isSafeQuery sqlQuery = true ->
       startsWith (trim (toUpperCase sql)) (js "SELECT") = true ->
       (exec true re_from (cleanSQL sql) = None ->
        toUpperCase (cleanSQL sql) <> js "SELECT 1" ->
        res = failure sqlQuery None (js "Could not parse table name from query")) /\
       (is_Some (exec true re_from (cleanSQL sql)) ->
        exists q,
          sent (snd (executeDynamicQuery store JSON_stringify sqlQuery w)) = sent w ++ [q] /\
          match store q with
          | Throw e => res = failure sqlQuery None (message e)
          | Ok r =>
              match r_error r with
              | Some msg => res = failure sqlQuery None msg
              | None => success res = true
              end
          end)) /\
    forall text params,
    exists res',
      fst (executeQuery store ToString text params w) = Ok res' /\
      well_formed_result res' /\
      (isSafeQuery text = false ->
       res' = failure text (Some params) (js "Query contains unsafe operations")) /\
      (forall s, text = JStr s -> isSafeQuery text = true ->
         let upperQuery := toUpperCase (normalize s) in
         includes upperQuery (js "SELECT") && includes upperQuery (js "FROM ITEMS") = false ->
         includes upperQuery (js "SELECT DISTINCT CATEGORY") = false ->
         res' = failure text (Some params) (js "Unsupported query type")) /\
      (forall s, text = JStr s -> isSafeQuery text = true ->
         let upperQuery := toUpperCase (normalize s) in
         let items := includes upperQuery (js "SELECT") &&
                      includes upperQuery (js "FROM ITEMS") in
         items || includes upperQuery (js "SELECT DISTINCT CATEGORY") = true ->
         exists q,
           sent (snd (executeQuery store ToString text params w)) = sent w ++ [q] /\
           match store q with
           | Throw e => res' = failure text (Some params) (message e)
           | Ok r =>
               match r_error r with
               | Some msg => res' = failure text (Some params) msg
               | None =>
                   if items then success res' = true
                   else match r_data r with
                        | Some _ => success res' = true
                        | None => exists msg, res' = failure text (Some params) msg
                        end
               end
           end).
Proof.
  destruct (dynamic_result store JSON_stringify sqlQuery w) as (res & Hres & Hwf).
  exists res. split; [exact Hres|]. split; [exact Hwf|].
  rewrite executeDynamicQuery_unfold in Hres. split; [|split].
  - intros Hu. rewrite Hu in Hres. simpl in Hres. now injection Hres as <-.
  - intros sql -> Hs Hsel. rewrite Hs, Hsel in Hres. simpl in Hres. split.
    + intros Hn Hne. unfold parseAndExecuteSQL in Hres. rewrite Hn in Hres.
      rewrite (jsstring_eqb_neq _ _ Hne) in Hres. simpl in Hres. now injection Hres as <-.
    + intros [m Hm].
      destruct (parseAndExecuteSQL_shape store JSON_stringify sql m Hm w)
        as (q & new & E & _ & H).
      exists q. rewrite executeDynamicQuery_unfold, Hs, Hsel. simpl.
      destruct (parseAndExecuteSQL store JSON_stringify sql w) as [[result|e] w'];
        simpl in *; subst w'; (split; [reflexivity|]).
      * destruct (store q) as [r|e0]; [|discriminate].
        destruct (r_error r); [discriminate|]. now injection Hres as <-.
      * destruct (store q) as [r|e0].
        -- destruct (r_error r); [|destruct H as (a & [=] & _)].
           injection H as ->. now injection Hres as <-.
        -- injection H as ->. now injection Hres as <-.
  - intros text params. unfold executeQuery.
    match goal with |- context [with_result text params ?b w] => set (body := b) end.
    assert (Hret : returns body (fun a => is_Some (p_data a))).
    { unfold body. destruct (negb (isSafeQuery text)); [apply returns_throw|].
      apply returns_bind. intros s.
      destruct (branch_returns_rows store ToString (normalize s)
                  (toUpperCase (normalize s)) params) as (Hc & Hs & Hd).
      repeat match goal with |- context [if ?c then _ else _] => destruct c end;
        auto using returns_throw. }
    destruct (with_result_well_formed text params body w Hret) as (res' & E & Hw & Hf).
    exists res'. split; [exact E|]. split; [exact Hw|]. split; [|split].
    + intros Hu. apply (Hf (Error _)). unfold body. now rewrite Hu.
    + intros s Et Hs. cbv zeta. intros H1 H2. apply (Hf (Error _)). unfold body.
      rewrite Hs, Et. unfold bind, lift.
      cbn -[includes toUpperCase normalize list_ascii_of_string].
      now rewrite H1, H2.
    + intros s -> Hs. cbv zeta. intros Hsup.
      change (with_result (JStr s) params body w)
        with (executeQuery store ToString (JStr s) params w) in E |- *.
      rewrite (executeQuery_cases s params w Hs) in E |- *.
      fold (on_items s) in Hsup |- *.
      destruct (on_items s) eqn:Hi.
      * cbn [fst snd sent] in E |- *. injection E as <-.
        exists (items_builder s params). split; [reflexivity|].
        unfold answer. destruct (store (items_builder s params)) as [r|e]; [|reflexivity].
        destruct (r_error r); reflexivity.
      * cbn [orb] in Hsup. rewrite Hsup in E |- *.
        cbn [fst snd sent] in E |- *. injection E as <-.
        exists categories_query. split; [reflexivity|].
        unfold distinct_answer, answer.
        destruct (store categories_query) as [r|e]; [|reflexivity].
        destruct (r_error r); [reflexivity|]. destruct (r_data r); [reflexivity|].
        eexists. reflexivity.
Qed.
End FailureResults.
